(** * Hermes buffer organizer: cost model, organizer loop, move executor,
      flush accounting and RPC serialization.

    Shallow embedding of [src/buffer_organizer.cc] and of the serializers of
    [src/rpc_thallium.h].  Part I holds the definitions, Part II the lemmas
    and theorems about them. *)

From Stdlib Require Import ZArith QArith Qabs List Lia Permutation Sorted.
From Stdlib Require Import Floats.SpecFloat.
From stdpp Require Import base option list gmap strings.
Import ListNotations.

Local Open Scope Z_scope.

(* ===================================================================== *)
(** * Part I.  Definitions                                                 *)
(* ===================================================================== *)

(** ** Arithmetic of [f32]

    The source computes scores in [f32].  The code is embedded once, over an
    interface of the float operations it uses; the interface has two
    instances: exact arithmetic (rationals extended with the IEEE special
    values, so that a division by zero is visible), and IEEE binary32 with
    round-to-nearest-even. *)

Class F32Ops (F : Type) : Type := {
  f_of_Z : Z -> F;            (* conversion of an integer, [(f32)n] *)
  fadd : F -> F -> F;
  fsub : F -> F -> F;
  fmul : F -> F -> F;
  fdiv : F -> F -> F;
  fabs : F -> F;
  flt  : F -> F -> bool;      (* [a < b] *)
  feq  : F -> F -> bool       (* [a == b] *)
}.

Definition fgt {F} `{F32Ops F} (a b : F) : bool := flt b a.

(** *** Exact arithmetic with the IEEE special values *)

Inductive xreal : Type :=
| Fin (q : Q)
| PInf
| NInf
| NaN.

Definition xopp (a : xreal) : xreal :=
  match a with
  | Fin q => Fin (- q)
  | PInf => NInf
  | NInf => PInf
  | NaN => NaN
  end.

Definition xadd (a b : xreal) : xreal :=
  match a, b with
  | NaN, _ | _, NaN => NaN
  | PInf, NInf | NInf, PInf => NaN
  | PInf, _ | _, PInf => PInf
  | NInf, _ | _, NInf => NInf
  | Fin p, Fin q => Fin (p + q)
  end.

Definition xsub (a b : xreal) : xreal := xadd a (xopp b).

(** The infinity with the sign of [q]; [0 * inf] is NaN. *)
Definition inf_of_sign (q : Q) : xreal :=
  match (q ?= 0)%Q with
  | Eq => NaN
  | Gt => PInf
  | Lt => NInf
  end.

Definition xmul (a b : xreal) : xreal :=
  match a, b with
  | NaN, _ | _, NaN => NaN
  | Fin p, Fin q => Fin (p * q)
  | Fin p, PInf | PInf, Fin p => inf_of_sign p
  | Fin p, NInf | NInf, Fin p => inf_of_sign (- p)
  | PInf, PInf | NInf, NInf => PInf
  | PInf, NInf | NInf, PInf => NInf
  end.

(** Division: a finite number over zero is an infinity (NaN for [0/0]);
    zeros carry no sign here, a zero divisor counts as [+0]. *)
Definition xdiv (a b : xreal) : xreal :=
  match a, b with
  | NaN, _ | _, NaN => NaN
  | Fin p, Fin q => if Qeq_bool q 0 then inf_of_sign p else Fin (p / q)
  | Fin _, PInf | Fin _, NInf => Fin 0
  | PInf, Fin q => match (q ?= 0)%Q with Lt => NInf | _ => PInf end
  | NInf, Fin q => match (q ?= 0)%Q with Lt => PInf | _ => NInf end
  | _, _ => NaN
  end.

Definition xabs (a : xreal) : xreal :=
  match a with
  | Fin q => Fin (Qabs q)
  | PInf | NInf => PInf
  | NaN => NaN
  end.

Definition xlt (a b : xreal) : bool :=
  match a, b with
  | NaN, _ | _, NaN => false
  | Fin p, Fin q => match (p ?= q)%Q with Lt => true | _ => false end
  | NInf, Fin _ | NInf, PInf | Fin _, PInf => true
  | _, _ => false
  end.

Definition xeqb (a b : xreal) : bool :=
  match a, b with
  | Fin p, Fin q => Qeq_bool p q
  | PInf, PInf | NInf, NInf => true
  | _, _ => false
  end.

#[export] Instance xreal_ops : F32Ops xreal := {
  f_of_Z := fun n => Fin (inject_Z n);
  fadd := xadd; fsub := xsub; fmul := xmul; fdiv := xdiv;
  fabs := xabs; flt := xlt; feq := xeqb
}.

Definition is_finite (a : xreal) : bool :=
  match a with Fin _ => true | _ => false end.

Definition is_nan (a : xreal) : bool :=
  match a with NaN => true | _ => false end.

(** [a <= b] on the extended reals; NaN is related to nothing. *)
Definition xle (a b : xreal) : Prop :=
  match a, b with
  | NaN, _ | _, NaN => False
  | NInf, _ | _, PInf => True
  | Fin p, Fin q => (p <= q)%Q
  | _, _ => False
  end.

(** *** IEEE binary32 *)

Definition b32_prec : Z := 24.
Definition b32_emax : Z := 128.

#[export] Instance binary32_ops : F32Ops spec_float := {
  f_of_Z := fun n => binary_normalize b32_prec b32_emax n 0 false;
  fadd := SFadd b32_prec b32_emax;
  fsub := SFsub b32_prec b32_emax;
  fmul := SFmul b32_prec b32_emax;
  fdiv := SFdiv b32_prec b32_emax;
  fabs := SFabs;
  flt := SFltb;
  feq := SFeqb
}.

(** ** Data model *)

(** The ID unions ([BufferID], [TargetID], [BlobID], ...) are used through
    their [as_int] member, an unsigned 64-bit integer. *)
Definition BufferID := Z.
Definition TargetID := Z.
Definition BlobID := Z.
Definition BucketID := Z.
Definition VBucketID := Z.

Section CostModel.
Context {F : Type} `{F32Ops F}.

Record BufferInfo : Type := mkBufferInfo {
  bi_id : BufferID;
  bi_bandwidth_mbps : F;
  bi_size : Z                     (* size_t *)
}.

(** The two fields of [BufferPool] that the organizer reads. *)
Record BufferPool : Type := mkBufferPool {
  min_device_bw_mbps : F;
  max_device_bw_mbps : F
}.

(** [NormalizeAccessScore]; [pool] is [GetBufferPoolFromContext(context)]. *)
Definition NormalizeAccessScore (pool : BufferPool) (raw_score size_mb : F) : F :=
  let min_seconds := fmul size_mb (min_device_bw_mbps pool) in
  let max_seconds := fmul size_mb (max_device_bw_mbps pool) in
  let range := fsub max_seconds min_seconds in
  let adjusted_score := fsub raw_score min_seconds in
  fdiv adjusted_score range.

(** [MEGABYTES(1)] is [1 << 20]. *)
Definition MEGABYTES (n : Z) : Z := n * 2 ^ 20.

Definition BytesToMegabytes (bytes : Z) : F :=
  fdiv (f_of_Z bytes) (f_of_Z (MEGABYTES 1)).

(** One iteration of the loop of [ComputeBlobAccessScore]; the accumulator
    is [(total_blob_size_mb, raw_score)]. *)
Definition access_score_step (acc : F * F) (b : BufferInfo) : F * F :=
  let size_in_mb := BytesToMegabytes (bi_size b) in
  let seconds_per_mb := fdiv (f_of_Z 1) (bi_bandwidth_mbps b) in
  let total_seconds := fmul size_in_mb seconds_per_mb in
  (fadd (fst acc) size_in_mb, fadd (snd acc) total_seconds).

Definition ComputeBlobAccessScore (pool : BufferPool)
    (buffer_info : list BufferInfo) : F :=
  let acc := fold_left access_score_step buffer_info (f_of_Z 0, f_of_Z 0) in
  NormalizeAccessScore pool (snd acc) (fst acc).
End CostModel.

Arguments BufferInfo F : clear implicits.
Arguments BufferPool F : clear implicits.

(** ** [std::sort]

    The library sort is embedded as an insertion sort driven by the
    comparator [comp] (a "less than": [comp a b] means [a] goes before [b]).
    Elements that the comparator does not separate keep their input order. *)

Section StdSort.
Context {A : Type} (comp : A -> A -> bool).

Fixpoint sort_insert (x : A) (l : list A) : list A :=
  match l with
  | [] => [x]
  | y :: l' => if comp y x then y :: sort_insert x l' else x :: l
  end.

Fixpoint std_sort (l : list A) : list A :=
  match l with
  | [] => []
  | x :: l' => sort_insert x (std_sort l')
  end.
End StdSort.

Section Sorting.
Context {F : Type} `{F32Ops F}.

Record TargetInfo : Type := mkTargetInfo {
  ti_id : TargetID;
  ti_bandwidth_mbps : F;
  ti_capacity : Z                 (* u64 *)
}.

(** [HERMES_BUFFER_INFO_COMPARATOR(direction, comp)], with [comp] the
    comparison of the two bandwidths. *)
Definition buffer_info_comparator (comp : F -> F -> bool)
    (lhs rhs : BufferInfo F) : bool :=
  if feq (bi_bandwidth_mbps lhs) (bi_bandwidth_mbps rhs)
  then bi_size lhs >? bi_size rhs
  else comp (bi_bandwidth_mbps lhs) (bi_bandwidth_mbps rhs).

Definition SortBufferInfo (buffer_info : list (BufferInfo F))
    (increasing : bool) : list (BufferInfo F) :=
  if increasing
  then std_sort (buffer_info_comparator fgt) buffer_info
  else std_sort (buffer_info_comparator flt) buffer_info.

Definition increasing_target_info_comparator (lhs rhs : TargetInfo) : bool :=
  fgt (ti_bandwidth_mbps lhs) (ti_bandwidth_mbps rhs).

Definition decreasing_target_info_comparator (lhs rhs : TargetInfo) : bool :=
  flt (ti_bandwidth_mbps lhs) (ti_bandwidth_mbps rhs).

Definition SortTargetInfo (target_info : list TargetInfo)
    (increasing : bool) : list TargetInfo :=
  if increasing
  then std_sort increasing_target_info_comparator target_info
  else std_sort decreasing_target_info_comparator target_info.
End Sorting.

Arguments TargetInfo F : clear implicits.

(** ** The organizer loop, [LocalOrganizeBlob] *)

Inductive BoPriority : Type := kLow | kHigh.

(** A [BoMove] closure handed to the thread pool by [LocalEnqueueBoMove]. *)
Record MoveTask : Type := mkMoveTask {
  mt_src : BufferID;
  mt_dest : list BufferID;
  mt_blob_id : BlobID;
  mt_high_priority : bool
}.

Definition PlacementSchema : Type := list (Z * TargetID).

Definition LocalEnqueueBoMove (queue : list MoveTask) (src : BufferID)
    (dest : list BufferID) (blob_id : BlobID) (priority : BoPriority)
    : list MoveTask :=
  let is_high_priority := match priority with kHigh => true | kLow => false end in
  queue ++ [mkMoveTask src dest blob_id is_high_priority].

Section Organizer.
Context {F : Type} `{F32Ops F}.

(** The shared-memory context and the services of the metadata manager and
    of the buffer pool that the organizer calls.  Their code is outside the
    buffer organizer; [GetBuffers] allocates, so it returns the context it
    leaves behind. *)
Variable SharedMemoryContext : Type.
Variable GetBufferPoolFromContext : SharedMemoryContext -> BufferPool F.
Variable LocalGet : SharedMemoryContext -> string -> BlobID.
Variable LocalGetBlobImportanceScore : SharedMemoryContext -> BlobID -> F.
Variable LocalGetBufferIdList : SharedMemoryContext -> BlobID -> list BufferID.
Variable GetBufferInfo : SharedMemoryContext -> BufferID -> BufferInfo F.
Variable LocalGetNodeTargets : SharedMemoryContext -> list TargetID.
Variable GetBandwidths : SharedMemoryContext -> list TargetID -> list F.
Variable GetRemainingTargetCapacities :
  SharedMemoryContext -> list TargetID -> list Z.
Variable GetBuffers :
  SharedMemoryContext -> PlacementSchema -> list BufferID * SharedMemoryContext.

(** Lines 289-294: [target_info[j]] is built from the [j]-th entries of the
    three vectors. *)
Fixpoint make_target_info (targets : list TargetID) (bws : list F)
    (caps : list Z) : list (TargetInfo F) :=
  match targets with
  | [] => []
  | t :: targets' =>
      mkTargetInfo t (hd (f_of_Z 0) bws) (hd 0 caps)
        :: make_target_info targets' (tl bws) (tl caps)
  end.

(** Lines 297-307: the scan for a destination target.  The result is
    [(src_buffer_id, schema, new_bandwidth_mbps)], which keep their initial
    values when no target is taken. *)
Fixpoint choose_target (target_info : list (TargetInfo F)) (b : BufferInfo F)
    : BufferID * PlacementSchema * F :=
  match target_info with
  | [] => (0, [], f_of_Z 0)
  | t :: rest =>
      if ti_capacity t >? bi_size b
      then (bi_id b, [(bi_size b, ti_id t)], ti_bandwidth_mbps t)
      else choose_target rest b
  end.

(** Lines 320-327. *)
Definition substitute_bandwidth (buffer_info : list (BufferInfo F))
    (src_buffer_id : BufferID) (new_bandwidth_mbps : F) : list (BufferInfo F) :=
  map (fun b => if bi_id b =? src_buffer_id
                then mkBufferInfo src_buffer_id new_bandwidth_mbps (bi_size b)
                else b) buffer_info.

(** Lines 330-342. *)
Definition move_is_valid (increasing_access_score : bool)
    (new_access_score importance_score epsilon : F) : bool :=
  if increasing_access_score
  then negb (fgt new_access_score importance_score
             && fgt (fsub new_access_score importance_score) epsilon)
  else negb (flt new_access_score importance_score
             && fgt (fsub importance_score new_access_score) epsilon).

(** What one iteration of the outer loop does. *)
Inductive iteration : Type :=
| Skipped                                   (* [continue] *)
| Examined (enqueued : option MoveTask) (new_access_score : F) (stop : bool).

(** The body of the outer loop (lines 284-352) for the buffer [b]. *)
Definition organize_buffer (context : SharedMemoryContext) (blob_id : BlobID)
    (importance_score epsilon : F) (increasing_access_score : bool)
    (buffer_info : list (BufferInfo F)) (b : BufferInfo F)
    : SharedMemoryContext * iteration :=
  let targets := LocalGetNodeTargets context in
  let target_bandwidths_mbps := GetBandwidths context targets in
  let capacities := GetRemainingTargetCapacities context targets in
  let target_info :=
    SortTargetInfo (make_target_info targets target_bandwidths_mbps capacities)
                   increasing_access_score in
  let '(src_buffer_id, schema, new_bandwidth_mbps) := choose_target target_info b in
  let '(dest, context') := GetBuffers context schema in
  match dest with
  | [] => (context', Skipped)
  | _ :: _ =>
      let new_buffer_info :=
        substitute_bandwidth buffer_info src_buffer_id new_bandwidth_mbps in
      let new_access_score :=
        ComputeBlobAccessScore (GetBufferPoolFromContext context') new_buffer_info in
      let valid := move_is_valid increasing_access_score new_access_score
                                 importance_score epsilon in
      let task := mkMoveTask src_buffer_id dest blob_id false in
      (context',
       Examined (if valid then Some task else None) new_access_score
                (flt (fabs (fsub importance_score new_access_score)) epsilon))
  end.

(** The outer loop over the sorted [buffer_info]; [todo] is the part still
    to visit.  The result lists, in order, what each visited buffer led to. *)
Fixpoint organize_loop (context : SharedMemoryContext) (blob_id : BlobID)
    (importance_score epsilon : F) (increasing_access_score : bool)
    (buffer_info todo : list (BufferInfo F))
    : SharedMemoryContext * list iteration :=
  match todo with
  | [] => (context, [])
  | b :: todo' =>
      let '(context', it) :=
        organize_buffer context blob_id importance_score epsilon
                        increasing_access_score buffer_info b in
      match it with
      | Examined _ _ true => (context', [it])
      | _ =>
          let '(context'', its) :=
            organize_loop context' blob_id importance_score epsilon
                          increasing_access_score buffer_info todo' in
          (context'', it :: its)
      end
  end.

(** The thread-pool queue after the iterations [its]: every enqueued task
    went through [LocalEnqueueBoMove] with [BoPriority::kLow]. *)
Fixpoint enqueue_all (queue : list MoveTask) (its : list iteration)
    : list MoveTask :=
  match its with
  | [] => queue
  | Examined (Some t) _ _ :: its' =>
      enqueue_all (LocalEnqueueBoMove queue (mt_src t) (mt_dest t)
                                      (mt_blob_id t) kLow) its'
  | _ :: its' => enqueue_all queue its'
  end.

Record organize_run : Type := mkOrganizeRun {
  or_context : SharedMemoryContext;
  or_importance_score : F;
  or_increasing : bool;
  or_iterations : list iteration;
  or_queue : list MoveTask
}.

Definition LocalOrganizeBlob (context : SharedMemoryContext)
    (queue : list MoveTask) (internal_blob_name : string)
    (epsilon explicit_importance_score : F) : organize_run :=
  let blob_id := LocalGet context internal_blob_name in
  let importance_score :=
    if feq explicit_importance_score (f_of_Z (-1))
    then LocalGetBlobImportanceScore context blob_id
    else explicit_importance_score in
  let buffer_ids := LocalGetBufferIdList context blob_id in
  let buffer_info := map (GetBufferInfo context) buffer_ids in
  let access_score :=
    ComputeBlobAccessScore (GetBufferPoolFromContext context) buffer_info in
  let increasing_access_score := fgt importance_score access_score in
  let buffer_info := SortBufferInfo buffer_info increasing_access_score in
  let '(context', its) :=
    organize_loop context blob_id importance_score epsilon
                  increasing_access_score buffer_info buffer_info in
  mkOrganizeRun context' importance_score increasing_access_score its
                (enqueue_all queue its).
End Organizer.

(** ** Machine integers *)

Definition u64 (x : Z) : Z := x mod 2 ^ 64.                  (* cast to size_t *)
Definition i64 (x : Z) : Z := (x + 2 ^ 63) mod 2 ^ 64 - 2 ^ 63.   (* cast to i64 *)
Definition i32 (x : Z) : Z := (x + 2 ^ 31) mod 2 ^ 32 - 2 ^ 31.   (* cast to int *)

Definition is_u32 (x : Z) : Prop := 0 <= x < 2 ^ 32.
Definition is_u64 (x : Z) : Prop := 0 <= x < 2 ^ 64.
Definition is_i32 (x : Z) : Prop := - 2 ^ 31 <= x < 2 ^ 31.

(** ** The move executor, [BoMove] *)

Module Mover.

(** The two [u32] fields of [BufferHeader] that [BoMove] reads. *)
Record BufferHeader : Type := mkBufferHeader {
  capacity : Z;
  used : Z
}.

(** What [BoMove] sees of the node: the buffer headers by [BufferID]
    ([GetHeaderByBufferId] is the lookup, a null pointer is [None]), the
    bytes held by each buffer, and the blobs that are locked. *)
Record SharedMemoryContext : Type := mkContext {
  headers : gmap Z BufferHeader;
  buffer_data : gmap Z (list Byte.byte);
  locked_blobs : gset Z
}.

Definition GetHeaderByBufferId (context : SharedMemoryContext)
    (id : BufferID) : option BufferHeader :=
  headers context !! id.

(** Modelled from the spec: [LocalLockBlob] and [LocalUnlockBlob] are not
    part of the buffer organizer; "blob-lock acquisition is try-lock", so
    locking a locked blob fails and changes nothing. *)
Definition LocalLockBlob (context : SharedMemoryContext) (blob_id : BlobID)
    : bool * SharedMemoryContext :=
  if decide (blob_id ∈ locked_blobs context)
  then (false, context)
  else (true, mkContext (headers context) (buffer_data context)
                        ({[ blob_id ]} ∪ locked_blobs context)).

Definition LocalUnlockBlob (context : SharedMemoryContext) (blob_id : BlobID)
    : SharedMemoryContext :=
  mkContext (headers context) (buffer_data context)
            (locked_blobs context ∖ {[ blob_id ]}).

(** Modelled from the spec: [LocalReadBufferById(context, id, &blob, 0)] is
    a primitive of the buffer pool; it "reads the full source buffer's used
    bytes into a local byte buffer", here the [size] bytes of [blob]. *)
Definition LocalReadBufferById (context : SharedMemoryContext)
    (id : BufferID) (size : Z) : list Byte.byte :=
  resize (Z.to_nat size) Byte.x00 (default [] (buffer_data context !! id)).

(** The effects of [BoMove], in program order.  [LocalWriteBufferById] is a
    primitive of the buffer pool: a call is recorded with its arguments, the
    bytes of [blob_portion] and the [offset] argument. *)
Inductive event : Type :=
| WriteBuffer (dest : BufferID) (blob_portion : list Byte.byte) (offset : Z)
| WarnBufferNotFound (id : BufferID)
| WarnCouldNotLock (blob_id : BlobID).

(** The loop over [destinations] (lines 194-213); the state is
    [(offset, remaining_src_size)]. *)
Fixpoint move_loop (context : SharedMemoryContext) (blob : list Byte.byte)
    (destinations : list BufferID) (offset remaining_src_size : Z)
    : list event * (Z * Z) :=
  match destinations with
  | [] => ([], (offset, remaining_src_size))
  | dest :: rest =>
      match GetHeaderByBufferId context dest with
      | Some dest_header =>
          let dest_capacity := capacity dest_header in
          let portion_size := u64 (Z.min (i64 dest_capacity) remaining_src_size) in
          let blob_portion :=
            take (Z.to_nat portion_size) (drop (Z.to_nat offset) blob) in
          let '(evs, st) :=
            move_loop context blob rest (u64 (offset + portion_size))
                      (i64 (u64 remaining_src_size - portion_size)) in
          (WriteBuffer dest blob_portion offset :: evs, st)
      | None =>
          let '(evs, st) :=
            move_loop context blob rest offset remaining_src_size in
          (WarnBufferNotFound dest :: evs, st)
      end
  end.

Inductive outcome : Type :=
| Returned (context : SharedMemoryContext)
| AssertionFailed (context : SharedMemoryContext).
    (* [assert(remaining_src_size == 0)] fails, the blob stays locked *)

Record result : Type := mkResult {
  res_events : list event;
  res_remaining_src_size : option Z;   (* at the assertion, when reached *)
  res_outcome : outcome
}.

Definition BoMove (context : SharedMemoryContext) (src : BufferID)
    (destinations : list BufferID) (blob_id : BlobID) : result :=
  match LocalLockBlob context blob_id with
  | (true, context1) =>
      match GetHeaderByBufferId context1 src with
      | Some src_header =>
          let blob := LocalReadBufferById context1 src (used src_header) in
          let '(evs, (_, remaining_src_size)) :=
            move_loop context1 blob destinations 0 (i64 (used src_header)) in
          if remaining_src_size =? 0
          then mkResult evs (Some remaining_src_size)
                        (Returned (LocalUnlockBlob context1 blob_id))
          else mkResult evs (Some remaining_src_size) (AssertionFailed context1)
      | None =>
          mkResult [WarnBufferNotFound src] None
                   (Returned (LocalUnlockBlob context1 blob_id))
      end
  | (false, context1) =>
      mkResult [WarnCouldNotLock blob_id] None (Returned context1)
  end.

(** The [LocalWriteBufferById] calls among the events. *)
Record write_call : Type := mkWrite {
  w_dest : BufferID;
  w_data : list Byte.byte;
  w_offset : Z
}.

Fixpoint writes_of (evs : list event) : list write_call :=
  match evs with
  | [] => []
  | WriteBuffer d p o :: evs' => mkWrite d p o :: writes_of evs'
  | _ :: evs' => writes_of evs'
  end.

Definition capacity_of (context : SharedMemoryContext) (id : BufferID) : Z :=
  match GetHeaderByBufferId context id with
  | Some h => capacity h
  | None => 0
  end.

Definition sum_capacities (context : SharedMemoryContext)
    (ids : list BufferID) : Z :=
  fold_right Z.add 0 (map (capacity_of context) ids).

Definition well_formed_header (h : BufferHeader) : Prop :=
  is_u32 (capacity h) /\ is_u32 (used h).
End Mover.

(** ** Flushing and the outstanding-flush counter *)

Module Flush.

Record VBucketInfo : Type := mkVBucketInfo {
  async_flush_count : Z            (* std::atomic<int> *)
}.

(** The part of a node's metadata manager that the flush counter uses:
    the VBucket ids by name and the VBucket records by id. *)
Record MetadataManager : Type := mkMdm {
  vbucket_ids : gmap string VBucketID;
  vbucket_info : gmap Z VBucketInfo
}.

(** A [FlushBlob] closure handed to the thread pool. *)
Record FlushTask : Type := mkFlushTask {
  ft_blob_id : BlobID;
  ft_filename : string;
  ft_offset : Z;
  ft_async : bool
}.

(** Calls that matter to the accounting, in program order. *)
Inductive event : Type :=
| CallIncrementFlushCount (vbkt_name : string)
| CallDecrementFlushCount (vbkt_name : string)
| PoolRun (task : FlushTask)
| PersistBlob (blob_id : BlobID) (filename : string) (offset : Z)
| BlobUnlocked (blob_id : BlobID).

(** The nodes' metadata managers by node id, this node's thread-pool
    queue, and the events so far. *)
Record state : Type := mkState {
  nodes : gmap Z MetadataManager;
  pool_queue : list FlushTask;
  trace : list event
}.

Definition log (e : event) (st : state) : state :=
  mkState (nodes st) (pool_queue st) (trace st ++ [e]).

(** [LocalGetVBucketId]: the id stored under the name, the null id 0 when
    there is none. *)
Definition LocalGetVBucketId (mdm : MetadataManager) (name : string) : VBucketID :=
  default 0 (vbucket_ids mdm !! name).

(** [LocalGetVBucketInfoById]: a null pointer is [None]. *)
Definition LocalGetVBucketInfoById (mdm : MetadataManager) (id : VBucketID)
    : option VBucketInfo :=
  vbucket_info mdm !! id.

(** [LocalAdjustFlushCount]; [fetch_add] on an atomic [int] wraps. *)
Definition LocalAdjustFlushCount (mdm : MetadataManager) (vbkt_name : string)
    (adjustment : Z) : MetadataManager :=
  let id := LocalGetVBucketId mdm vbkt_name in
  match LocalGetVBucketInfoById mdm id with
  | Some info =>
      mkMdm (vbucket_ids mdm)
            (<[ id := mkVBucketInfo (i32 (async_flush_count info + adjustment)) ]>
               (vbucket_info mdm))
  | None => mdm
  end.

Definition LocalIncrementFlushCount (mdm : MetadataManager) (vbkt_name : string)
    : MetadataManager :=
  LocalAdjustFlushCount mdm vbkt_name 1.

Definition LocalDecrementFlushCount (mdm : MetadataManager) (vbkt_name : string)
    : MetadataManager :=
  LocalAdjustFlushCount mdm vbkt_name (-1).

(** Results of [LockBlob] (routed by RPC to the blob's node) and of the
    system calls of one [FlushBlob]. *)
Record syscalls : Type := mkSyscalls {
  lock_acquired : bool;            (* LockBlob *)
  file_exists : bool;              (* access(filename, F_OK) == 0 *)
  open_ok : bool;                  (* fd != -1 *)
  flock_ex_ok : bool;              (* flock(fd, LOCK_EX) == 0 *)
  flock_un_ok : bool;              (* flock(fd, LOCK_UN) == 0 *)
  close_ok : bool                  (* close(fd) == 0 *)
}.

(** Modelled from the spec: [FailedLibraryCall] is defined outside the
    buffer organizer and is "fatal by contract": the process stops there. *)
Inductive outcome : Type :=
| Returned (st : state)
| Fatal (func : string) (st : state).

Definition and_then (o : outcome) (k : state -> outcome) : outcome :=
  match o with
  | Returned st => k st
  | Fatal f st => Fatal f st
  end.

Definition check (ok : bool) (func : string) (st : state) : outcome :=
  if ok then Returned st else Fatal func st.

Section Routing.
(** [HashString]: the node that owns a name. *)
Variable HashString : string -> Z.
Variable BlobIsInSwap : BlobID -> bool.
(** [rpc->node_id]. *)
Variable node_id : Z.

(** Modelled from the spec: the handlers of [RemoteIncrementFlushCount]
    and [RemoteDecrementFlushCount] are outside the buffer organizer; the
    calls "route to the authoritative vbucket node, which updates an
    atomic counter on VBucketInfo", so the handler runs the local
    function on the target node. *)
Definition on_node (target_node : Z) (f : MetadataManager -> MetadataManager)
    (st : state) : state :=
  mkState (alter f target_node (nodes st)) (pool_queue st) (trace st).

Definition IncrementFlushCount (st : state) (vbkt_name : string) : state :=
  let st := log (CallIncrementFlushCount vbkt_name) st in
  let target_node := HashString vbkt_name in
  if target_node =? node_id
  then on_node node_id (fun mdm => LocalIncrementFlushCount mdm vbkt_name) st
  else on_node target_node (fun mdm => LocalIncrementFlushCount mdm vbkt_name) st.

Definition DecrementFlushCount (st : state) (vbkt_name : string) : state :=
  let st := log (CallDecrementFlushCount vbkt_name) st in
  let target_node := HashString vbkt_name in
  if target_node =? node_id
  then on_node node_id (fun mdm => LocalDecrementFlushCount mdm vbkt_name) st
  else on_node target_node (fun mdm => LocalDecrementFlushCount mdm vbkt_name) st.

(** Lines 379-416 of [FlushBlob], once the blob lock is held. *)
Definition flush_locked (sys : syscalls) (st : state) (blob_id : BlobID)
    (filename : string) (offset : Z) : outcome :=
  and_then
    (if open_ok sys
     then
       and_then (check (flock_ex_ok sys) "flock" st) (fun st =>
       and_then (Returned (log (PersistBlob blob_id filename offset) st)) (fun st =>
       and_then (check (flock_un_ok sys) "flock" st) (fun st =>
       check (close_ok sys) "close" st)))
     else Fatal "open" st)
    (fun st => Returned (log (BlobUnlocked blob_id) st)).

Definition FlushBlob (sys : syscalls) (st : state) (blob_id : BlobID)
    (filename : string) (offset : Z) (async : bool) : outcome :=
  and_then
    (if lock_acquired sys
     then flush_locked sys st blob_id filename offset
     else Returned st)
    (fun st =>
       if async then Returned (DecrementFlushCount st filename)
       else Returned st).

Definition LocalEnqueueFlushingTask (st : state) (blob_id : BlobID)
    (filename : string) (offset : Z) : bool * state :=
  if negb (BlobIsInSwap blob_id)
  then
    let st := IncrementFlushCount st filename in
    let async := true in
    let task := mkFlushTask blob_id filename offset async in
    let st := log (PoolRun task)
                  (mkState (nodes st) (pool_queue st ++ [task]) (trace st)) in
    (true, st)
  else (false, st).

(** A worker thread runs a queued closure. *)
Definition run_task (sys : syscalls) (st : state) (task : FlushTask) : outcome :=
  FlushBlob sys st (ft_blob_id task) (ft_filename task) (ft_offset task)
            (ft_async task).

(** The state once a worker thread has taken a closure off the queue, which
    leaves [queue]. *)
Definition dequeued (st : state) (queue : list FlushTask) : state :=
  mkState (nodes st) queue (trace st).

(** The node at work: a caller has a flush task accepted, or a worker thread
    takes one of the queued closures, whichever it is, and runs it to its
    return.  [FlushBlob] touches the counter in its last statement only, so
    running the body in one step loses no interleaving of the counter. *)
Inductive step : state -> state -> Prop :=
| step_enqueue (st : state) (blob_id : BlobID) (filename : string) (offset : Z) :
    BlobIsInSwap blob_id = false ->
    step st (snd (LocalEnqueueFlushingTask st blob_id filename offset))
| step_run (st st' : state) (pre post : list FlushTask) (task : FlushTask)
           (sys : syscalls) :
    pool_queue st = pre ++ task :: post ->
    run_task sys (dequeued st (pre ++ post)) task = Returned st' ->
    step st st'.

Inductive reachable (st0 : state) : state -> Prop :=
| reachable_refl : reachable st0 st0
| reachable_step (st st' : state) :
    reachable st0 st -> step st st' -> reachable st0 st'.

(** The nodes' metadata with one increment for each task of [queue]. *)
Definition with_outstanding (queue : list FlushTask)
    (base : gmap Z MetadataManager) : gmap Z MetadataManager :=
  foldr (fun task ns =>
           alter (fun mdm => LocalIncrementFlushCount mdm (ft_filename task))
                 (HashString (ft_filename task)) ns)
        base queue.
End Routing.

(** The counter of the VBucket [name] on node [n], when there is one. *)
Definition flush_count (st : state) (n : Z) (name : string) : option Z :=
  mdm ← nodes st !! n;
  info ← LocalGetVBucketInfoById mdm (LocalGetVBucketId mdm name);
  Some (async_flush_count info).

(** Every counter holds an [int]. *)
Definition nodes_in_range (ns : gmap Z MetadataManager) : Prop :=
  forall n mdm id info,
    ns !! n = Some mdm -> vbucket_info mdm !! id = Some info ->
    is_i32 (async_flush_count info).

Definition counters_in_range (st : state) : Prop := nodes_in_range (nodes st).

Fixpoint count_increments (name : string) (evs : list event) : nat :=
  match evs with
  | [] => 0
  | CallIncrementFlushCount n :: evs' =>
      (if String.eqb n name then 1 else 0) + count_increments name evs'
  | _ :: evs' => count_increments name evs'
  end%nat.

Fixpoint count_decrements (name : string) (evs : list event) : nat :=
  match evs with
  | [] => 0
  | CallDecrementFlushCount n :: evs' =>
      (if String.eqb n name then 1 else 0) + count_decrements name evs'
  | _ :: evs' => count_decrements name evs'
  end%nat.
End Flush.

(** ** RPC serialization ([rpc_thallium.h]) *)

Module Rpc.

(** *** The archive

    A Thallium archive is either an output archive, which appends the bytes
    of what it is given, or an input archive, which overwrites what it is
    given with the next bytes.  The same [serialize] function runs in both
    directions: [ar & x] is [amp x].  Integers are laid out little-endian. *)
Inductive archive : Type :=
| Output (buf : list Byte.byte)
| Input (buf : list Byte.byte).

Definition Ar (A : Type) : Type := archive -> option (A * archive).

Definition ret {A} (a : A) : Ar A := fun ar => Some (a, ar).

Definition bind {A B} (m : Ar A) (k : A -> Ar B) : Ar B :=
  fun ar => match m ar with
            | Some (a, ar') => k a ar'
            | None => None
            end.

Declare Scope ar_scope.
Delimit Scope ar_scope with ar.
Notation "x <~ m ;; k" := (bind m (fun x => k))
  (at level 100, m at next level, right associativity) : ar_scope.
Local Open Scope ar_scope.

Definition byte_of_Z (z : Z) : Byte.byte :=
  default Byte.x00 (Byte.of_N (Z.to_N (z mod 256))).

Definition Z_of_byte (b : Byte.byte) : Z := Z.of_N (Byte.to_N b).

(** The [w] low bytes of [x], least significant first. *)
Fixpoint le_encode (w : nat) (x : Z) : list Byte.byte :=
  match w with
  | O => []
  | S w' => byte_of_Z x :: le_encode w' (x / 256)
  end.

Fixpoint le_decode (bs : list Byte.byte) : Z :=
  match bs with
  | [] => 0
  | b :: bs' => Z_of_byte b + 256 * le_decode bs'
  end.

(** [ar & x] for an unsigned integer of [w] bytes. *)
Definition amp_unsigned (w : nat) (x : Z) : Ar Z :=
  fun ar =>
    match ar with
    | Output buf => Some (x, Output (buf ++ le_encode w x))
    | Input buf =>
        if (length buf <? w)%nat then None
        else Some (le_decode (take w buf), Input (drop w buf))
    end.

Definition amp_u32 : Z -> Ar Z := amp_unsigned 4.
Definition amp_u64 : Z -> Ar Z := amp_unsigned 8.

(** An [int] is written as its 32-bit two's complement pattern. *)
Definition amp_int (x : Z) : Ar Z :=
  v <~ amp_unsigned 4 (x mod 2 ^ 32) ;; ret (i32 v).

(** An [f32] is written as its 32 bits; the model keeps the bit pattern. *)
Definition amp_f32 (bits : Z) : Ar Z := amp_unsigned 4 bits.

(** The direction of the archive picks [save] or [load]. *)
Definition save_load {A} (save : A -> Ar A) (load : A -> Ar A) (x : A) : Ar A :=
  fun ar => match ar with
            | Output _ => save x ar
            | Input _ => load x ar
            end.

(** *** The serialized types

    Their declarations are in headers outside [rpc_thallium.h]; the fields
    are the ones the serializers name. *)

(** Modelled from the spec: "SwapBlob (node_id, offset, size, bucket_id)";
    [node_id] is a [u32], [offset] and [size] are [u64]. *)
Record SwapBlob : Type := mkSwapBlob {
  sb_node_id : Z;
  sb_offset : Z;
  sb_size : Z;
  sb_bucket_id : BucketID
}.

(** [BufferInfo] as it travels: the [f32] bandwidth by its bit pattern. *)
Record BufferInfo : Type := mkBufferInfo {
  info_id : BufferID;
  info_bandwidth_mbps : Z;
  info_size : Z
}.

(** Modelled from the spec: "BoTask: operation in {Move, Copy, Delete}";
    the enumerators count from 0 in this order. *)
Inductive BoOperation : Type := kMove | kCopy | kDelete.

Definition BoOperation_to_int (op : BoOperation) : Z :=
  match op with kMove => 0 | kCopy => 1 | kDelete => 2 end.

(** The cast [(BoOperation)val]; an [int] that no enumerator has is kept
    out of the model ([None]). *)
Definition BoOperation_of_int (val : Z) : option BoOperation :=
  if val =? 0 then Some kMove
  else if val =? 1 then Some kCopy
  else if val =? 2 then Some kDelete
  else None.

(** Modelled from the spec: "BoTask: args (variant)".  [BoArgs] is a union
    of the argument structs, each a [BufferID] followed, for Move and Copy,
    by a [TargetID]; the model is the union's storage, two 64-bit words.
    [move_args.src] and [move_args.dest] are the two words, whichever
    member was written last. *)
Record BoArgs : Type := mkBoArgs {
  args_word0 : Z;
  args_word1 : Z
}.

Definition move_args_src (a : BoArgs) : BufferID := args_word0 a.
Definition move_args_dest (a : BoArgs) : TargetID := args_word1 a.

Record BoTask : Type := mkBoTask {
  task_op : BoOperation;
  task_args : BoArgs
}.

(** [ThresholdViolation] and [PrefetchHint] are enum classes declared
    elsewhere; a value is kept as the [int] its enumerator stands for. *)
Definition ThresholdViolation : Type := Z.
Definition PrefetchHint : Type := Z.

(** Modelled from the spec: [ViolationInfo] and [PrefetchContext] are listed
    among the serialized types, without their fields; the fields here are
    the ones their serializers name. *)
Record ViolationInfo : Type := mkViolationInfo {
  vi_target_id : TargetID;
  vi_violation : ThresholdViolation;
  vi_violation_size : Z            (* size_t *)
}.

Record PrefetchContext : Type := mkPrefetchContext {
  pc_hint : PrefetchHint;
  pc_read_ahead : Z                (* int *)
}.

(** *** The serializers *)

Definition serialize_BufferID (buffer_id : BufferID) : Ar BufferID :=
  amp_u64 buffer_id.
Definition serialize_BucketID (bucket_id : BucketID) : Ar BucketID :=
  amp_u64 bucket_id.
Definition serialize_VBucketID (vbucket_id : VBucketID) : Ar VBucketID :=
  amp_u64 vbucket_id.
Definition serialize_BlobID (blob_id : BlobID) : Ar BlobID :=
  amp_u64 blob_id.
Definition serialize_TargetID (target_id : TargetID) : Ar TargetID :=
  amp_u64 target_id.

Definition serialize_SwapBlob (swap_blob : SwapBlob) : Ar SwapBlob :=
  node_id <~ amp_u32 (sb_node_id swap_blob) ;;
  offset <~ amp_u64 (sb_offset swap_blob) ;;
  size <~ amp_u64 (sb_size swap_blob) ;;
  bucket_id <~ serialize_BucketID (sb_bucket_id swap_blob) ;;
  ret (mkSwapBlob node_id offset size bucket_id).

Definition serialize_BufferInfo (info : BufferInfo) : Ar BufferInfo :=
  id <~ serialize_BufferID (info_id info) ;;
  bandwidth_mbps <~ amp_f32 (info_bandwidth_mbps info) ;;
  size <~ amp_u64 (info_size info) ;;
  ret (mkBufferInfo id bandwidth_mbps size).

(** [save(ar, ThresholdViolation&)]: [int val = (int)violation;
    ar.write(&val, 1)], and [load]: [ar.read(&val, 1);
    violation = (ThresholdViolation)val]. *)
Definition save_ThresholdViolation (violation : ThresholdViolation)
    : Ar ThresholdViolation :=
  _ <~ amp_int violation ;; ret violation.
Definition load_ThresholdViolation (violation : ThresholdViolation)
    : Ar ThresholdViolation :=
  val <~ amp_int 0 ;; ret val.

Definition save_BoOperation (op : BoOperation) : Ar BoOperation :=
  _ <~ amp_int (BoOperation_to_int op) ;; ret op.
Definition load_BoOperation (op : BoOperation) : Ar BoOperation :=
  val <~ amp_int 0 ;;
  (fun ar => match BoOperation_of_int val with
             | Some op' => Some (op', ar)
             | None => None
             end).

Definition serialize_BoArgs (bo_args : BoArgs) : Ar BoArgs :=
  src <~ serialize_BufferID (move_args_src bo_args) ;;
  dest <~ serialize_TargetID (move_args_dest bo_args) ;;
  ret (mkBoArgs src dest).

Definition serialize_BoTask (bo_task : BoTask) : Ar BoTask :=
  op <~ save_load save_BoOperation load_BoOperation (task_op bo_task) ;;
  args <~ serialize_BoArgs (task_args bo_task) ;;
  ret (mkBoTask op args).

Definition serialize_ViolationInfo (info : ViolationInfo) : Ar ViolationInfo :=
  target_id <~ serialize_TargetID (vi_target_id info) ;;
  violation <~ save_load save_ThresholdViolation load_ThresholdViolation
                         (vi_violation info) ;;
  violation_size <~ amp_u64 (vi_violation_size info) ;;
  ret (mkViolationInfo target_id violation violation_size).

(** [save(ar, PrefetchHint&)]: [ar << static_cast<int>(hint)], and [load]:
    [ar >> hint_i; hint = static_cast<PrefetchHint>(hint_i)]. *)
Definition save_PrefetchHint (hint : PrefetchHint) : Ar PrefetchHint :=
  _ <~ amp_int hint ;; ret hint.
Definition load_PrefetchHint (hint : PrefetchHint) : Ar PrefetchHint :=
  hint_i <~ amp_int 0 ;; ret hint_i.

Definition serialize_PrefetchContext (pctx : PrefetchContext) : Ar PrefetchContext :=
  hint <~ save_load save_PrefetchHint load_PrefetchHint (pc_hint pctx) ;;
  read_ahead <~ amp_int (pc_read_ahead pctx) ;;
  ret (mkPrefetchContext hint read_ahead).

(** *** Sending and receiving *)

(** The bytes an output archive holds after [ser x]. *)
Definition to_bytes {A} (ser : A -> Ar A) (x : A) : list Byte.byte :=
  match ser x (Output []) with
  | Some (_, Output buf) => buf
  | _ => []
  end.

(** The value an input archive over [bytes] puts into the object [init],
    with the bytes it leaves unread. *)
Definition from_bytes {A} (ser : A -> Ar A) (init : A) (bytes : list Byte.byte)
    : option (A * list Byte.byte) :=
  match ser init (Input bytes) with
  | Some (x, Input rest) => Some (x, rest)
  | _ => None
  end.

Definition well_formed_SwapBlob (s : SwapBlob) : Prop :=
  is_u32 (sb_node_id s) /\ is_u64 (sb_offset s) /\ is_u64 (sb_size s)
  /\ is_u64 (sb_bucket_id s).

Definition well_formed_BufferInfo (b : BufferInfo) : Prop :=
  is_u64 (info_id b) /\ is_u32 (info_bandwidth_mbps b) /\ is_u64 (info_size b).

Definition well_formed_BoTask (t : BoTask) : Prop :=
  is_u64 (args_word0 (task_args t)) /\ is_u64 (args_word1 (task_args t)).

Definition well_formed_ViolationInfo (v : ViolationInfo) : Prop :=
  is_u64 (vi_target_id v) /\ is_i32 (vi_violation v)
  /\ is_u64 (vi_violation_size v).

Definition well_formed_PrefetchContext (p : PrefetchContext) : Prop :=
  is_i32 (pc_hint p) /\ is_i32 (pc_read_ahead p).
End Rpc.

(** ** Vocabulary of the statements *)

(** A pool whose devices run between 100 and 1000 MB/s, in both arithmetics. *)
Definition pool_100_1000 : BufferPool xreal := mkBufferPool (Fin 100) (Fin 1000).
Definition pool32_100_1000 : BufferPool spec_float :=
  mkBufferPool (f_of_Z 100) (f_of_Z 1000).

Definition bandwidths {F} (v : list (TargetInfo F)) : list F :=
  map ti_bandwidth_mbps v.

Definition non_increasing (l : list xreal) : Prop :=
  StronglySorted (fun a b => xle b a) l.

Definition non_decreasing (l : list xreal) : Prop :=
  StronglySorted xle l.

Definition no_nan_bandwidth (v : list (TargetInfo xreal)) : Prop :=
  Forall (fun t => is_nan (ti_bandwidth_mbps t) = false) v.

(** What [comp] leaves in order: [b] does not go before [a]. *)
Definition in_order {A} (comp : A -> A -> bool) (a b : A) : Prop :=
  comp b a = false.

Definition two_targets : list (TargetInfo xreal) :=
  [mkTargetInfo 1 (Fin 100) 0; mkTargetInfo 2 (Fin 1000) 0].


(** The moves an organizer run enqueued, each with the access score that was
    predicted for it. *)
Fixpoint enqueued_moves {F} `{F32Ops F} (its : list (iteration (F := F)))
    : list (MoveTask * F) :=
  match its with
  | [] => []
  | Examined (Some t) new_access_score _ :: its' =>
      (t, new_access_score) :: enqueued_moves its'
  | _ :: its' => enqueued_moves its'
  end.

(** The predicted score [new] does not overshoot [importance] by more than
    [epsilon] in the direction the organizer is moving. *)
Definition no_overshoot {F} `{F32Ops F} (increasing : bool)
    (new importance epsilon : F) : Prop :=
  (increasing = true ->
   ~ (fgt new importance = true /\ fgt (fsub new importance) epsilon = true))
  /\ (increasing = false ->
      ~ (flt new importance = true /\ fgt (fsub importance new) epsilon = true)).

(** No target before the chosen one has room for the buffer. *)
Definition fits {F} (b : BufferInfo F) (t : TargetInfo F) : Prop :=
  ti_capacity t > bi_size b.
Definition first_fit {F} (target_info : list (TargetInfo F)) (b : BufferInfo F)
    (t : TargetInfo F) : Prop :=
  exists pre post,
    target_info = pre ++ t :: post
    /\ Forall (fun u => ~ fits b u) pre /\ fits b t.


(** A sample node for the organizer: target 1 is fast (1000 MB/s) with 4096
    bytes left, target 2 is slow (100 MB/s) with 8192 bytes left; the buffer
    pool hands out one buffer per schema entry, numbered after its target. *)
Module Sample.
Definition GetBufferPoolFromContext (_ : unit) : BufferPool xreal := pool_100_1000.
Definition LocalGetNodeTargets (_ : unit) : list TargetID := [1; 2].
Definition GetBandwidths (_ : unit) (_ : list TargetID) : list xreal :=
  [Fin 1000; Fin 100].
Definition GetRemainingTargetCapacities (_ : unit) (_ : list TargetID) : list Z :=
  [4096; 8192].
Definition GetBuffers (context : unit) (schema : PlacementSchema)
    : list BufferID * unit :=
  (map (fun entry => 1000 * snd entry) schema, context).
Definition buffer_info : list (BufferInfo xreal) :=
  [mkBufferInfo 11 (Fin 1000) 4096; mkBufferInfo 12 (Fin 1000) 2048].
Definition organize_buffer :=
  organize_buffer unit GetBufferPoolFromContext LocalGetNodeTargets GetBandwidths
                  GetRemainingTargetCapacities GetBuffers.
Definition target_info (increasing : bool) : list (TargetInfo xreal) :=
  SortTargetInfo
    (make_target_info (LocalGetNodeTargets tt)
       (GetBandwidths tt (LocalGetNodeTargets tt))
       (GetRemainingTargetCapacities tt (LocalGetNodeTargets tt)))
    increasing.
End Sample.


(** The vocabulary of the statements about [BoMove]. *)
Module MoverSpec.
Import Mover.

(** Every write is issued at the number of bytes written before it, counted
    from [start]. *)
Fixpoint offsets_run (start : Z) (ws : list write_call) : Prop :=
  match ws with
  | [] => True
  | w :: ws' =>
      w_offset w = start
      /\ offsets_run (start + Z.of_nat (length (w_data w))) ws'
  end.

Definition resolves (context : SharedMemoryContext) (id : BufferID) : Prop :=
  is_Some (GetHeaderByBufferId context id).

(** The headers that resolve hold [u32] values. *)
Definition well_formed_headers (context : SharedMemoryContext)
    (ids : list BufferID) : Prop :=
  Forall (fun id => forall h, GetHeaderByBufferId context id = Some h ->
                              well_formed_header h) ids.

(** The context while the blob is locked. *)
Definition locked (context : SharedMemoryContext) (blob_id : BlobID)
    : SharedMemoryContext :=
  mkContext (headers context) (buffer_data context)
            ({[ blob_id ]} ∪ locked_blobs context).

(** A node with a source buffer 1 of six bytes and two destination buffers
    of capacity 3 and 4; buffer 9 does not exist. *)
Definition six_bytes : list Byte.byte :=
  [Byte.x61; Byte.x62; Byte.x63; Byte.x64; Byte.x65; Byte.x66].
Definition sample_context : SharedMemoryContext :=
  mkContext
    (<[ 1 := mkBufferHeader 8 6 ]>
       (<[ 2 := mkBufferHeader 3 0 ]> (<[ 3 := mkBufferHeader 4 0 ]> ∅)))
    (<[ 1 := six_bytes ]> ∅)
    ∅.
End MoverSpec.


(** A sample cluster for the flush accounting: one node, 0, which owns every
    name; the VBucket "out.dat" has id 5 and no outstanding flush. *)
Module FlushSample.
Import Flush.
Definition HashString (_ : string) : Z := 0.
Definition BlobIsInSwap (_ : BlobID) : bool := false.
Definition node_id : Z := 0.
Definition initial : state :=
  mkState {[ 0 := mkMdm {[ "out.dat"%string := 5 ]} {[ 5 := mkVBucketInfo 0 ]} ]} [] [].
Definition task : FlushTask := mkFlushTask 42 "out.dat" 0 true.
Definition enqueued : bool * state :=
  LocalEnqueueFlushingTask HashString BlobIsInSwap node_id initial 42 "out.dat" 0.
(** The blob lock is not acquired. *)
Definition lock_fails : syscalls := mkSyscalls false true true true true true.
(** The lock is acquired and every call succeeds. *)
Definition all_succeed : syscalls := mkSyscalls true false true true true true.
Definition after_lock_failure : state :=
  DecrementFlushCount HashString node_id (dequeued (snd enqueued) []) "out.dat".
End FlushSample.


(** [bytes] is what [p] appends for [x], and what [p] reads [x] from. *)
Definition encodes {A} (p : A -> Rpc.Ar A) (x : A) (bytes : list Byte.byte) : Prop :=
  (forall buf, p x (Rpc.Output buf) = Some (x, Rpc.Output (buf ++ bytes)))
  /\ (forall init rest,
        p init (Rpc.Input (bytes ++ rest)) = Some (x, Rpc.Input rest)).

(** Deserializing what [ser] wrote for [x] gives [x] back, whatever object it
    is read into and whatever follows in the stream. *)
Definition round_trips {A} (ser : A -> Rpc.Ar A) (x : A) : Prop :=
  forall init rest,
    Rpc.from_bytes ser init (Rpc.to_bytes ser x ++ rest) = Some (x, rest).


(** ** Vocabulary of the further properties *)

(** The rational bandwidth of a buffer whose bandwidth is a nonzero number. *)
Definition bw_Q (b : BufferInfo xreal) : Q :=
  match bi_bandwidth_mbps b with
  | Fin q => q
  | _ => 0
  end.

Definition usable (b : BufferInfo xreal) : Prop :=
  exists q, bi_bandwidth_mbps b = Fin q /\ ~ (q == 0)%Q.

(** A buffer's size in megabytes, and the two sums of the loop of
    [ComputeBlobAccessScore]. *)
Definition size_mb_Q (b : BufferInfo xreal) : Q :=
  (inject_Z (bi_size b) / inject_Z (MEGABYTES 1))%Q.

Fixpoint total_mb (l : list (BufferInfo xreal)) : Q :=
  match l with
  | [] => 0
  | b :: l' => (size_mb_Q b + total_mb l')%Q
  end.

Fixpoint raw_seconds (l : list (BufferInfo xreal)) : Q :=
  match l with
  | [] => 0
  | b :: l' => (size_mb_Q b * (1 / bw_Q b) + raw_seconds l')%Q
  end.


(** The buffers hold positive sizes. *)
Definition positive_sizes (l : list (BufferInfo xreal)) : Prop :=
  Forall (fun x => 0 < bi_size x) l.

(** The buffers' bandwidths are positive numbers. *)
Definition positive_bandwidths (l : list (BufferInfo xreal)) : Prop :=
  Forall (fun x => exists q, bi_bandwidth_mbps x = Fin q /\ (0 < q)%Q) l.


(** [operator==] on [BufferInfo] (lines 25-28); ids compare by [as_int]. *)
Definition BufferInfo_eq {F} `{F32Ops F} (lhs rhs : BufferInfo F) : bool :=
  (bi_id lhs =? bi_id rhs) && (bi_size lhs =? bi_size rhs)
  && feq (bi_bandwidth_mbps lhs) (bi_bandwidth_mbps rhs).

(** [a] may come before [b] in a buffer list sorted by bandwidth, descending
    or ascending, and then by size, descending. *)
Definition buffer_order (descending : bool) (a b : BufferInfo xreal) : Prop :=
  (if descending
   then xle (bi_bandwidth_mbps b) (bi_bandwidth_mbps a)
   else xle (bi_bandwidth_mbps a) (bi_bandwidth_mbps b))
  /\ (xeqb (bi_bandwidth_mbps a) (bi_bandwidth_mbps b) = true ->
      bi_size b <= bi_size a).

Definition no_nan_buffers (l : list (BufferInfo xreal)) : Prop :=
  Forall (fun x => is_nan (bi_bandwidth_mbps x) = false) l.

Definition three_buffers : list (BufferInfo xreal) :=
  [mkBufferInfo 1 (Fin 100) 4096; mkBufferInfo 2 (Fin 1000) 1024;
   mkBufferInfo 3 (Fin 100) 8192].


(** The iteration ended the loop ([break], line 351). *)
Definition stops {F} `{F32Ops F} (it : iteration (F := F)) : bool :=
  match it with
  | Examined _ _ true => true
  | _ => false
  end.

(** [OrganizeBlob] (lines 356-369): the blob is organized on this node, or
    the request is sent to the node that owns the blob's name. *)
Inductive organize_outcome {F : Type} (Run : Type) : Type :=
| OrganizedLocally (run : Run)
| ForwardedTo (target_node : Z) (func_name : string) (internal_name : string)
              (epsilon : F).
Arguments OrganizedLocally {F Run} run.
Arguments ForwardedTo {F Run} target_node func_name internal_name epsilon.

Section OrganizeBlob.
Context {F : Type} `{F32Ops F}.
Variable SharedMemoryContext : Type.
Variable GetBufferPoolFromContext : SharedMemoryContext -> BufferPool F.
Variable LocalGet : SharedMemoryContext -> string -> BlobID.
Variable LocalGetBlobImportanceScore : SharedMemoryContext -> BlobID -> F.
Variable LocalGetBufferIdList : SharedMemoryContext -> BlobID -> list BufferID.
Variable GetBufferInfo : SharedMemoryContext -> BufferID -> BufferInfo F.
Variable LocalGetNodeTargets : SharedMemoryContext -> list TargetID.
Variable GetBandwidths : SharedMemoryContext -> list TargetID -> list F.
Variable GetRemainingTargetCapacities :
  SharedMemoryContext -> list TargetID -> list Z.
Variable GetBuffers :
  SharedMemoryContext -> PlacementSchema -> list BufferID * SharedMemoryContext.
(** [MakeInternalBlobName], [HashString] and [rpc->node_id]. *)
Variable MakeInternalBlobName : string -> BucketID -> string.
Variable HashString : string -> Z.
Variable node_id : Z.

Definition OrganizeBlob (context : SharedMemoryContext) (queue : list MoveTask)
    (bucket_id : BucketID) (blob_name : string) (epsilon importance_score : F)
    : organize_outcome (F := F) (organize_run SharedMemoryContext) :=
  let internal_name := MakeInternalBlobName blob_name bucket_id in
  let target_node := HashString internal_name in
  if target_node =? node_id
  then OrganizedLocally
         (LocalOrganizeBlob SharedMemoryContext GetBufferPoolFromContext LocalGet
            LocalGetBlobImportanceScore LocalGetBufferIdList GetBufferInfo
            LocalGetNodeTargets GetBandwidths GetRemainingTargetCapacities
            GetBuffers context queue internal_name epsilon importance_score)
  else ForwardedTo target_node "RemoteOrganizeBlob" internal_name epsilon.
End OrganizeBlob.


(** A sample blob for the organizer on the sample node: blob 5, named
    "blob", of buffers 11 and 12, both on the fast device; its stored
    importance is 1. *)
Module SampleBlob.
Definition LocalGet (_ : unit) (_ : string) : BlobID := 5.
Definition LocalGetBlobImportanceScore (_ : unit) (_ : BlobID) : xreal := Fin 1.
Definition LocalGetBufferIdList (_ : unit) (_ : BlobID) : list BufferID := [11; 12].
Definition GetBufferInfo (_ : unit) (id : BufferID) : BufferInfo xreal :=
  mkBufferInfo id (Fin 1000) (if id =? 11 then 4096 else 2048).
Definition LocalOrganizeBlob :=
  LocalOrganizeBlob unit Sample.GetBufferPoolFromContext LocalGet
    LocalGetBlobImportanceScore LocalGetBufferIdList GetBufferInfo
    Sample.LocalGetNodeTargets Sample.GetBandwidths
    Sample.GetRemainingTargetCapacities Sample.GetBuffers.
Definition MakeInternalBlobName (blob_name : string) (_ : BucketID) : string :=
  blob_name.
Definition HashString (_ : string) : Z := 1.
End SampleBlob.


(** ** [LocalEnqueueBoTask] *)

Module BoTasks.
Import Rpc.



End BoTasks.

(** ** [AwaitAsyncFlushingTasks] *)

Module Await.

Inductive event : Type :=
| LogWaiting (outstanding_flushes : Z)
| SleepFor (milliseconds : Z).

Definition sleep_time : Z := 500.
Definition log_every : Z := 10.

(** The loop of lines 546-554.  [GetNumOutstandingFlushingTasks] is read once
    per turn of the loop; [readings n] is what the [n]-th call returns.  The
    loop has no bound of its own: [None] stands for a run that is still
    polling when the [fuel] is spent. *)
Fixpoint await_loop (fuel : nat) (readings : nat -> Z) (poll : nat) (counter : Z)
    : option (list event) :=
  match fuel with
  | O => None
  | S fuel' =>
      let outstanding_flushes := readings poll in
      if outstanding_flushes =? 0 then Some []
      else
        let counter := i32 (counter + 1) in
        let logged := if counter =? log_every
                      then [LogWaiting outstanding_flushes] else [] in
        let counter := if counter =? log_every then 0 else counter in
        match await_loop fuel' readings (S poll) counter with
        | Some evs => Some (logged ++ SleepFor sleep_time :: evs)
        | None => None
        end
  end.

Definition AwaitAsyncFlushingTasks (fuel : nat) (readings : nat -> Z)
    : option (list event) :=
  await_loop fuel readings 0 0.

Fixpoint sleeps (evs : list event) : nat :=
  match evs with
  | [] => 0
  | SleepFor _ :: evs' => S (sleeps evs')
  | _ :: evs' => sleeps evs'
  end.

Fixpoint logs (evs : list event) : nat :=
  match evs with
  | [] => 0
  | LogWaiting _ :: evs' => S (logs evs')
  | _ :: evs' => logs evs'
  end.
End Await.

(** ** Routing of RPC names ([IsBoFunction], [ThalliumRpc::Call]) *)

Module RpcNames.

Definition kBoPrefix : string := "BO::".
Definition kBoPrefixLength : nat := String.length kBoPrefix.

(** What reading [s[i]] gives for the C string [s]: its [i]-th character, the
    terminator at [i = strlen(s)], and nothing ([None]) past the terminator,
    where a read is out of bounds. *)
Definition char_at (s : string) (i : nat) : option Ascii.ascii :=
  match String.get i s with
  | Some c => Some c
  | None => if (i =? String.length s)%nat then Some Ascii.zero else None
  end.

Definition ascii_eqb (a b : Ascii.ascii) : bool := Ascii.eqb a b.

(** The [while] loop of [IsBoFunction] from index [i] on; the result is the
    final [i], or [None] when a read is out of bounds.  The test [i <
    kBoPrefixLength] bounds the loop; [fuel] counts the turns it may take. *)
Fixpoint prefix_loop (fuel : nat) (func_name : string) (i : nat) : option nat :=
  match fuel with
  | O => Some i
  | S fuel' =>
      match char_at func_name 0 with
      | None => None
      | Some first =>
          if negb (ascii_eqb first Ascii.zero) && (i <? kBoPrefixLength)%nat
          then
            match char_at func_name i, char_at kBoPrefix i with
            | Some c, Some p =>
                if negb (ascii_eqb c p) then Some i
                else prefix_loop fuel' func_name (S i)
            | _, _ => None
            end
          else Some i
      end
  end.

(** [IsBoFunction]; a null [func_name] is [None].  The result is [None] when
    the function reads out of bounds. *)
Definition IsBoFunction (func_name : option string) : option bool :=
  match func_name with
  | None => Some false
  | Some s =>
      match prefix_loop (S kBoPrefixLength) s 0 with
      | Some i => Some (i =? kBoPrefixLength)%nat
      | None => None
      end
  end.

(** The part of [ThalliumRpc::Call] that picks the engine and the name of the
    remote procedure: [func_name += kBoPrefixLength] for a buffer-organizer
    function.  The result is [(is_bo_func, func_name)]. *)
Definition call_target (func_name : string) : option (bool * string) :=
  match IsBoFunction (Some func_name) with
  | Some is_bo_func =>
      Some (is_bo_func,
            if is_bo_func
            then String.substring kBoPrefixLength
                   (String.length func_name - kBoPrefixLength) func_name
            else func_name)
  | None => None
  end.
End RpcNames.

(** ** The other serializers of [rpc_thallium.h] *)

Module RpcMore.
Import Rpc.
Local Open Scope ar_scope.

(** [MapType] and [BoPriority] are enum classes; a value is kept as the
    [int] its enumerator stands for. *)
Definition MapType : Type := Z.
Definition BoPriorityValue : Type := Z.

Definition save_MapType (map_type : MapType) : Ar MapType :=
  _ <~ amp_int map_type ;; ret map_type.
Definition load_MapType (map_type : MapType) : Ar MapType :=
  val <~ amp_int 0 ;; ret val.

Definition save_BoPriority (priority : BoPriorityValue) : Ar BoPriorityValue :=
  _ <~ amp_int priority ;; ret priority.
Definition load_BoPriority (priority : BoPriorityValue) : Ar BoPriorityValue :=
  val <~ amp_int 0 ;; ret val.

(** [api::Context]: the two members that [save] and [load] name, an [int]
    and the placement policy (an enum class, kept as its [int]), and
    [ctx_others], the members the serializer does not name. *)
Record Context (Others : Type) : Type := mkApiContext {
  ctx_buffer_organizer_retries : Z;
  ctx_policy : Z;
  ctx_others : Others
}.
Arguments mkApiContext {Others} _ _ _.
Arguments ctx_buffer_organizer_retries {Others} _.
Arguments ctx_policy {Others} _.
Arguments ctx_others {Others} _.

Definition save_Context {Others} (ctx : Context Others) : Ar (Context Others) :=
  _ <~ amp_int (ctx_buffer_organizer_retries ctx) ;;
  _ <~ amp_int (ctx_policy ctx) ;;
  ret ctx.

Definition load_Context {Others} (ctx : Context Others) : Ar (Context Others) :=
  retries <~ amp_int (ctx_buffer_organizer_retries ctx) ;;
  val <~ amp_int 0 ;;
  ret (mkApiContext retries val (ctx_others ctx)).

(** [ar & x] for the three types. *)
Definition serialize_MapType : MapType -> Ar MapType :=
  save_load save_MapType load_MapType.
Definition serialize_BoPriority : BoPriorityValue -> Ar BoPriorityValue :=
  save_load save_BoPriority load_BoPriority.
Definition serialize_Context {Others} : Context Others -> Ar (Context Others) :=
  save_load save_Context load_Context.
End RpcMore.

(** ** Vocabulary of the statements about flushing *)

Module FlushSpec.
Import Flush.

(** The number of tasks of [queue] that count on the VBucket [id] of node
    [n], whose names [mdm] resolves. *)
Fixpoint pending (HashString : string -> Z) (mdm : MetadataManager) (n : Z)
    (id : VBucketID) (queue : list FlushTask) : Z :=
  match queue with
  | [] => 0
  | task :: queue' =>
      (if (HashString (ft_filename task) =? n)
          && (LocalGetVBucketId mdm (ft_filename task) =? id)
       then 1 else 0)
      + pending HashString mdm n id queue'
  end.

(** The events of a [FlushBlob] that returns. *)
Definition flush_events (sys : syscalls) (blob_id : BlobID) (filename : string)
    (offset : Z) (async : bool) : list event :=
  (if lock_acquired sys
   then [PersistBlob blob_id filename offset; BlobUnlocked blob_id] else [])
  ++ (if async then [CallDecrementFlushCount filename] else []).

(** Some library call of the flush fails. *)
Definition a_call_fails (sys : syscalls) : Prop :=
  open_ok sys = false \/ flock_ex_ok sys = false
  \/ flock_un_ok sys = false \/ close_ok sys = false.

(** The lock is acquired, [open] succeeds and [close] fails. *)
Definition close_fails : syscalls := mkSyscalls true true true true true false.
End FlushSpec.

(** ** [GetFilenameFromFP] ([adapter/interceptor.h]) *)

Module Interceptor.

(** [kMaxPathLen], the size of the arrays [proclnk] and [filename]. *)
Definition kMaxPathLen : Z := 4096.

(** What [readlink(proclnk, filename, kMaxPathLen)] does: it fails and
    returns -1, or it copies the link's target into [filename], cut to
    [kMaxPathLen] bytes, with no terminator, and returns the number of bytes
    copied. *)
Definition readlink (target : option (list Ascii.ascii))
    : Z * list Ascii.ascii :=
  match target with
  | None => (-1, [])
  | Some t =>
      let copied := take (Z.to_nat kMaxPathLen) t in
      (Z.of_nat (length copied), copied)
  end.

Inductive result : Type :=
| Filename (name : list Ascii.ascii)
| WriteOutOfBounds (index : Z).     (* [filename[index] = 0] past the array *)

(** The C string that starts an array: the bytes before the first NUL. *)
Fixpoint c_string (bytes : list Ascii.ascii) : list Ascii.ascii :=
  match bytes with
  | [] => []
  | c :: bytes' => if Ascii.eqb c Ascii.zero then [] else c :: c_string bytes'
  end.

(** Lines 31-39; [target] is what the link [/proc/self/fd/<fno>] points to,
    [None] when it cannot be read. *)
Definition GetFilenameFromFP (target : option (list Ascii.ascii)) : result :=
  let '(n, filename) := readlink target in
  let r := u64 n in                              (* [size_t r = readlink(...)] *)
  if (0 <=? r) && (r <? kMaxPathLen)
  then Filename (c_string (filename ++ [Ascii.zero]))
  else WriteOutOfBounds r.
End Interceptor.

(* ===================================================================== *)
(** * Part II.  Lemmas and theorems                                       *)
(* ===================================================================== *)

(** ** Exact arithmetic *)

Lemma Qplus_comm_eq (a b : Q) : (a + b)%Q = (b + a)%Q.
Proof.
  destruct a as [an ad], b as [bn bd]. unfold Qplus. simpl.
  f_equal; [ lia | apply Pos.mul_comm ].
Qed.

Lemma Qplus_assoc_eq (a b c : Q) : ((a + b) + c)%Q = (a + (b + c))%Q.
Proof.
  destruct a as [an ad], b as [bn bd], c as [cn cd]. unfold Qplus. simpl.
  f_equal.
  - rewrite !Pos2Z.inj_mul. ring.
  - symmetry. apply Pos.mul_assoc.
Qed.

Lemma xadd_comm (a b : xreal) : xadd a b = xadd b a.
Proof.
  destruct a, b; simpl; try reflexivity. f_equal. apply Qplus_comm_eq.
Qed.

Lemma xadd_assoc (a b c : xreal) : xadd (xadd a b) c = xadd a (xadd b c).
Proof.
  destruct a, b, c; simpl; try reflexivity. f_equal. apply Qplus_assoc_eq.
Qed.

Lemma xadd_right_comm (a b c : xreal) : xadd (xadd a b) c = xadd (xadd a c) b.
Proof.
  rewrite !xadd_assoc. f_equal. apply xadd_comm.
Qed.

Lemma fold_left_Permutation {A B : Type} (f : A -> B -> A) (l l' : list B) :
  (forall acc x y, f (f acc x) y = f (f acc y) x) ->
  Permutation l l' -> forall acc, fold_left f l acc = fold_left f l' acc.
Proof.
  intros Hf Hp. induction Hp as [ | x l l' _ IH | x y l | l l' l'' _ IH1 _ IH2 ];
    intros acc; simpl.
  - reflexivity.
  - apply IH.
  - now rewrite Hf.
  - now rewrite IH1.
Qed.

Lemma access_score_step_comm (acc : xreal * xreal) (a b : BufferInfo xreal) :
  access_score_step (access_score_step acc a) b
  = access_score_step (access_score_step acc b) a.
Proof.
  unfold access_score_step. simpl. f_equal; apply xadd_right_comm.
Qed.

(** ** The cost model *)

(** C1.  With device bandwidths between 100 and 1000 MB/s, a blob of one
    1 MiB buffer on the fastest device does not score 0, and on the slowest
    device does not score 1: [ComputeBlobAccessScore] returns
    [(1/1000 - 100) / 900] and [(1/100 - 100) / 900], both negative, in exact
    arithmetic, and negative numbers in binary32 as well.  The score is not
    in [0,1]. *)
Theorem ComputeBlobAccessScore_not_normalized :
  (exists q, ComputeBlobAccessScore pool_100_1000 [mkBufferInfo 1 (Fin 1000) 1048576]
             = Fin q /\ (q == - (11111 # 100000))%Q)
  /\ (exists q, ComputeBlobAccessScore pool_100_1000 [mkBufferInfo 1 (Fin 100) 1048576]
                = Fin q /\ (q == - (1111 # 10000))%Q)
  /\ ComputeBlobAccessScore pool32_100_1000 [mkBufferInfo 1 (f_of_Z 1000) 1048576]
     = S754_finite true 14912932 (-27)
  /\ ComputeBlobAccessScore pool32_100_1000 [mkBufferInfo 1 (f_of_Z 100) 1048576]
     = S754_finite true 14911589 (-27).
Proof.
  split; [ | split; [ | split ] ].
  - eexists. split; [ vm_compute; reflexivity | reflexivity ].
  - eexists. split; [ vm_compute; reflexivity | reflexivity ].
  - vm_compute. reflexivity.
  - vm_compute. reflexivity.
Qed.

(** C10.  Over exact arithmetic [ComputeBlobAccessScore] returns the same
    score for a buffer list and for every permutation of it. *)
Theorem ComputeBlobAccessScore_Permutation
    (pool : BufferPool xreal) (l l' : list (BufferInfo xreal)) :
  Permutation l l' ->
  ComputeBlobAccessScore pool l = ComputeBlobAccessScore pool l'.
Proof.
  intros Hp. unfold ComputeBlobAccessScore.
  now rewrite (fold_left_Permutation access_score_step l l'
                 access_score_step_comm Hp).
Qed.

Lemma ComputeBlobAccessScore_Permutation_witness :
  ComputeBlobAccessScore pool_100_1000
    [mkBufferInfo 1 (Fin 1000) 4096; mkBufferInfo 2 (Fin 100) 8192]
  = ComputeBlobAccessScore pool_100_1000
      [mkBufferInfo 2 (Fin 100) 8192; mkBufferInfo 1 (Fin 1000) 4096].
Proof.
  apply ComputeBlobAccessScore_Permutation. apply perm_swap.
Defined.

Lemma inf_of_sign_not_finite (q : Q) : is_finite (inf_of_sign q) = false.
Proof. unfold inf_of_sign. now destruct (q ?= 0)%Q. Qed.

Lemma inf_of_sign_Qeq (p q : Q) : (p == q)%Q -> inf_of_sign p = inf_of_sign q.
Proof. intros E. unfold inf_of_sign. now rewrite E. Qed.

Lemma xsub_inf_of_sign_self (q : Q) : xsub (inf_of_sign q) (inf_of_sign q) = NaN.
Proof. unfold inf_of_sign. now destruct (q ?= 0)%Q. Qed.

Lemma xdiv_NaN_r (x : xreal) : xdiv x NaN = NaN.
Proof. now destruct x. Qed.

(** Dividing by a zero never gives a finite number. *)
Lemma xdiv_zero_not_finite (x : xreal) (z : Q) :
  (z == 0)%Q -> is_finite (xdiv x (Fin z)) = false.
Proof.
  intros Hz. destruct x as [p | | | ]; simpl.
  - apply Qeq_bool_iff in Hz. rewrite Hz. apply inf_of_sign_not_finite.
  - apply Qeq_alt in Hz. now rewrite Hz.
  - apply Qeq_alt in Hz. now rewrite Hz.
  - reflexivity.
Qed.

(** With equal bandwidths at both ends the range is zero, or NaN. *)
Lemma single_tier_range (t a b : xreal) :
  xeqb a b = true ->
  let range := xsub (xmul t b) (xmul t a) in
  range = NaN \/ exists z, range = Fin z /\ (z == 0)%Q.
Proof.
  intros E range. subst range.
  destruct a as [a | | | ], b as [b | | | ]; simpl in E; try discriminate.
  - apply Qeq_bool_iff in E.
    destruct t as [q | | | ]; simpl.
    + right. eexists. split; [ reflexivity | ]. rewrite E. ring.
    + left. rewrite (inf_of_sign_Qeq a b E). apply xsub_inf_of_sign_self.
    + left. assert (E' : (- a == - b)%Q) by now rewrite E.
      rewrite (inf_of_sign_Qeq _ _ E'). apply xsub_inf_of_sign_self.
    + now left.
  - left. destruct t as [q | | | ]; simpl; try reflexivity.
    apply xsub_inf_of_sign_self.
  - left. destruct t as [q | | | ]; simpl; try reflexivity.
    apply xsub_inf_of_sign_self.
Qed.

Lemma NormalizeAccessScore_single_tier (pool : BufferPool xreal) (raw size_mb : xreal) :
  feq (min_device_bw_mbps pool) (max_device_bw_mbps pool) = true ->
  is_finite (NormalizeAccessScore pool raw size_mb) = false.
Proof.
  intros E. unfold NormalizeAccessScore. cbn [fsub fmul fdiv xreal_ops].
  destruct (single_tier_range size_mb _ _ E) as [-> | (z & -> & Hz)].
  - now rewrite xdiv_NaN_r.
  - now apply xdiv_zero_not_finite.
Qed.

Lemma ComputeBlobAccessScore_nil (pool : BufferPool xreal) :
  ComputeBlobAccessScore pool [] = NaN.
Proof.
  unfold ComputeBlobAccessScore, NormalizeAccessScore. simpl.
  destruct pool as [[a | | | ] [b | | | ]]; simpl; reflexivity.
Qed.

(** C3, as stated, fails: the score of the empty buffer list is NaN, not 0,
    and with a single tier (both bandwidths 100 MB/s) the score of a 1 MiB
    buffer is minus infinity; in binary32 as in exact arithmetic. *)
Lemma ComputeBlobAccessScore_edge_cases_not_zero :
  ComputeBlobAccessScore pool_100_1000 [] = NaN
  /\ feq (ComputeBlobAccessScore pool_100_1000 []) (f_of_Z 0) = false
  /\ ComputeBlobAccessScore pool32_100_1000 [] = S754_nan
  /\ ComputeBlobAccessScore (mkBufferPool (Fin 100) (Fin 100))
       [mkBufferInfo 1 (Fin 100) 1048576] = NInf
  /\ ComputeBlobAccessScore
       (mkBufferPool (f_of_Z 100) (f_of_Z 100) : BufferPool spec_float)
       [mkBufferInfo 1 (f_of_Z 100) 1048576] = S754_infinity true.
Proof. repeat split; vm_compute; reflexivity. Qed.

(** C3, amended.  [ComputeBlobAccessScore] is a total function, and the
    division of [NormalizeAccessScore] is not guarded: over exact arithmetic
    the score of the empty buffer list is NaN (0/0) whatever the pool, and
    when the pool's minimum and maximum bandwidths are equal the score of
    every buffer list is NaN or an infinity, never a finite number. *)
Theorem ComputeBlobAccessScore_edge_cases
    (pool : BufferPool xreal) (buffer_info : list (BufferInfo xreal)) :
  ComputeBlobAccessScore pool [] = NaN
  /\ (feq (min_device_bw_mbps pool) (max_device_bw_mbps pool) = true ->
      is_finite (ComputeBlobAccessScore pool buffer_info) = false).
Proof.
  split.
  - apply ComputeBlobAccessScore_nil.
  - intros E. unfold ComputeBlobAccessScore.
    now apply NormalizeAccessScore_single_tier.
Qed.

Lemma ComputeBlobAccessScore_edge_cases_witness :
  feq (Fin 100) (Fin 100) = true
  /\ is_finite (ComputeBlobAccessScore (mkBufferPool (Fin 100) (Fin 100))
                  [mkBufferInfo 1 (Fin 100) 1048576; mkBufferInfo 2 (Fin 100) 4096])
     = false.
Proof.
  split; [ reflexivity | ].
  apply (ComputeBlobAccessScore_edge_cases (mkBufferPool (Fin 100) (Fin 100))).
  reflexivity.
Defined.

(** ** Sorting *)

Section StdSortFacts.
Context {A : Type} (comp : A -> A -> bool).
Hypothesis comp_asym : forall a b, comp a b = true -> comp b a = false.

Lemma sort_insert_Permutation (x : A) (l : list A) :
  Permutation (x :: l) (sort_insert comp x l).
Proof.
  induction l as [ | y l IH ]; simpl.
  - reflexivity.
  - destruct (comp y x).
    + rewrite perm_swap. now apply perm_skip.
    + reflexivity.
Qed.

Lemma std_sort_Permutation (l : list A) : Permutation l (std_sort comp l).
Proof.
  induction l as [ | x l IH ]; simpl.
  - reflexivity.
  - rewrite <- sort_insert_Permutation. now apply perm_skip.
Qed.

Lemma sort_insert_HdRel (y x : A) (l : list A) :
  in_order comp y x -> HdRel (in_order comp) y l ->
  HdRel (in_order comp) y (sort_insert comp x l).
Proof.
  intros Hyx Hl. destruct l as [ | z l ]; simpl.
  - now constructor.
  - inversion_clear Hl. destruct (comp z x); now constructor.
Qed.

Lemma sort_insert_Sorted (x : A) (l : list A) :
  Sorted (in_order comp) l -> Sorted (in_order comp) (sort_insert comp x l).
Proof.
  induction l as [ | y l IH ]; intros Hs; simpl.
  - repeat constructor.
  - destruct (comp y x) eqn:E.
    + inversion_clear Hs. constructor; [ now apply IH | ].
      apply sort_insert_HdRel; [ | assumption ].
      now apply comp_asym.
    + constructor; [ assumption | now constructor ].
Qed.

Lemma std_sort_Sorted (l : list A) : Sorted (in_order comp) (std_sort comp l).
Proof.
  induction l as [ | x l IH ]; simpl.
  - constructor.
  - now apply sort_insert_Sorted.
Qed.
End StdSortFacts.

Lemma Sorted_Forall_impl {A : Type} (P : A -> Prop) (R1 R2 : A -> A -> Prop)
    (l : list A) :
  (forall a b, P a -> P b -> R1 a b -> R2 a b) ->
  Forall P l -> Sorted R1 l -> Sorted R2 l.
Proof.
  intros HR HP Hs. induction Hs as [ | a l Hs IH Hhd ].
  - constructor.
  - inversion_clear HP as [ | ? ? Pa Pl ]. constructor; [ now apply IH | ].
    destruct Hhd as [ | b l' Hab ]; constructor.
    inversion_clear Pl. now apply HR.
Qed.

Lemma xlt_asym (a b : xreal) : xlt a b = true -> xlt b a = false.
Proof.
  destruct a as [p | | | ], b as [q | | | ]; simpl; try easy.
  rewrite <- (Qcompare_antisym p q). now destruct (p ?= q)%Q.
Qed.

Lemma xle_of_not_xlt (a b : xreal) :
  is_nan a = false -> is_nan b = false -> xlt a b = false -> xle b a.
Proof.
  destruct a as [p | | | ], b as [q | | | ]; simpl; try easy.
  intros _ _. destruct (p ?= q)%Q eqn:E; try discriminate; intros _.
  - apply Qeq_alt in E. rewrite E. apply Qle_refl.
  - apply Qgt_alt in E. now apply Qlt_le_weak.
Qed.

Lemma xle_trans (a b c : xreal) : xle a b -> xle b c -> xle a c.
Proof.
  destruct a as [p | | | ], b as [q | | | ], c as [r | | | ]; simpl; try easy.
  apply Qle_trans.
Qed.

Lemma StronglySorted_map {A B : Type} (f : A -> B) (R : B -> B -> Prop)
    (l : list A) :
  StronglySorted (fun a b => R (f a) (f b)) l -> StronglySorted R (map f l).
Proof.
  induction 1 as [ | a l Hs IH Hall ]; simpl; constructor.
  - assumption.
  - now apply List.Forall_map.
Qed.

Lemma SortTargetInfo_Permutation {F} `{F32Ops F} (v : list (TargetInfo F))
    (increasing : bool) :
  Permutation v (SortTargetInfo v increasing).
Proof.
  unfold SortTargetInfo. destruct increasing; apply std_sort_Permutation.
Qed.

(** Whatever algorithm sorts, a sequence in which no element goes before its
    predecessor under the comparator [>] on bandwidths is non-increasing, and
    under [<] non-decreasing. *)
Lemma in_order_gt_non_increasing (v : list (TargetInfo xreal)) :
  no_nan_bandwidth v ->
  Sorted (in_order increasing_target_info_comparator) v ->
  non_increasing (bandwidths v).
Proof.
  intros Hv Hs. unfold non_increasing, bandwidths. apply StronglySorted_map.
  apply Sorted_StronglySorted.
  { intros a b c Hab Hbc. exact (xle_trans _ _ _ Hbc Hab). }
  apply (Sorted_Forall_impl (fun t => is_nan (ti_bandwidth_mbps t) = false)
           (in_order increasing_target_info_comparator)); try assumption.
  intros a b Ha Hb Hab. apply xle_of_not_xlt; assumption.
Qed.

Lemma in_order_lt_non_decreasing (v : list (TargetInfo xreal)) :
  no_nan_bandwidth v ->
  Sorted (in_order decreasing_target_info_comparator) v ->
  non_decreasing (bandwidths v).
Proof.
  intros Hv Hs. unfold non_decreasing, bandwidths. apply StronglySorted_map.
  apply Sorted_StronglySorted.
  { intros a b c. apply xle_trans. }
  apply (Sorted_Forall_impl (fun t => is_nan (ti_bandwidth_mbps t) = false)
           (in_order decreasing_target_info_comparator)); try assumption.
  intros a b Ha Hb Hab. apply xle_of_not_xlt; assumption.
Qed.

Lemma SortTargetInfo_no_nan (v : list (TargetInfo xreal)) (increasing : bool) :
  no_nan_bandwidth v -> no_nan_bandwidth (SortTargetInfo v increasing).
Proof.
  unfold no_nan_bandwidth. intros Hv.
  eapply Permutation_Forall; [ apply SortTargetInfo_Permutation | exact Hv ].
Qed.

Lemma SortTargetInfo_true_descending (v : list (TargetInfo xreal)) :
  no_nan_bandwidth v -> non_increasing (bandwidths (SortTargetInfo v true)).
Proof.
  intros Hv. apply in_order_gt_non_increasing.
  - now apply SortTargetInfo_no_nan.
  - apply std_sort_Sorted. intros a b. apply xlt_asym.
Qed.

Lemma SortTargetInfo_false_ascending (v : list (TargetInfo xreal)) :
  no_nan_bandwidth v -> non_decreasing (bandwidths (SortTargetInfo v false)).
Proof.
  intros Hv. apply in_order_lt_non_decreasing.
  - now apply SortTargetInfo_no_nan.
  - apply std_sort_Sorted. intros a b. apply xlt_asym.
Qed.

(** C2, as stated, fails: with targets of 100 and 1000 MB/s,
    [SortTargetInfo(v, false)] puts 100 before 1000, which is not
    non-increasing, and [SortTargetInfo(v, true)] puts 1000 before 100, which
    is not non-decreasing. *)
Lemma SortTargetInfo_direction_counterexample :
  bandwidths (SortTargetInfo two_targets false) = [Fin 100; Fin 1000]
  /\ ~ non_increasing (bandwidths (SortTargetInfo two_targets false))
  /\ bandwidths (SortTargetInfo two_targets true) = [Fin 1000; Fin 100]
  /\ ~ non_decreasing (bandwidths (SortTargetInfo two_targets true)).
Proof.
  split; [ reflexivity | split; [ | split; [ reflexivity | ] ] ].
  - intros Hs. inversion_clear Hs as [ | ? ? _ Hall ].
    inversion_clear Hall as [ | ? ? Hle _ ]. now apply Hle.
  - intros Hs. inversion_clear Hs as [ | ? ? _ Hall ].
    inversion_clear Hall as [ | ? ? Hle _ ]. now apply Hle.
Qed.

(** C2, amended.  [SortTargetInfo] permutes its input; when [increasing] is
    true the bandwidths come out in non-increasing order (fastest targets
    first), and when [increasing] is false in non-decreasing order (slowest
    targets first).  The bandwidths are numbers or infinities, not NaN. *)
Theorem SortTargetInfo_order (v : list (TargetInfo xreal)) :
  no_nan_bandwidth v ->
  (Permutation v (SortTargetInfo v true)
   /\ non_increasing (bandwidths (SortTargetInfo v true)))
  /\ (Permutation v (SortTargetInfo v false)
      /\ non_decreasing (bandwidths (SortTargetInfo v false))).
Proof.
  intros Hv. repeat split.
  - apply SortTargetInfo_Permutation.
  - now apply SortTargetInfo_true_descending.
  - apply SortTargetInfo_Permutation.
  - now apply SortTargetInfo_false_ascending.
Qed.

Lemma SortTargetInfo_order_witness :
  no_nan_bandwidth two_targets
  /\ (Permutation two_targets (SortTargetInfo two_targets true)
      /\ non_increasing (bandwidths (SortTargetInfo two_targets true)))
  /\ (Permutation two_targets (SortTargetInfo two_targets false)
      /\ non_decreasing (bandwidths (SortTargetInfo two_targets false))).
Proof.
  assert (Hv : no_nan_bandwidth two_targets) by (repeat constructor).
  split; [ exact Hv | exact (SortTargetInfo_order two_targets Hv) ].
Defined.

(** ** The organizer loop *)

Section OrganizerFacts.
Context {F : Type} `{F32Ops F}.
Variable SharedMemoryContext : Type.
Variable GetBufferPoolFromContext : SharedMemoryContext -> BufferPool F.
Variable LocalGet : SharedMemoryContext -> string -> BlobID.
Variable LocalGetBlobImportanceScore : SharedMemoryContext -> BlobID -> F.
Variable LocalGetBufferIdList : SharedMemoryContext -> BlobID -> list BufferID.
Variable GetBufferInfo : SharedMemoryContext -> BufferID -> BufferInfo F.
Variable LocalGetNodeTargets : SharedMemoryContext -> list TargetID.
Variable GetBandwidths : SharedMemoryContext -> list TargetID -> list F.
Variable GetRemainingTargetCapacities :
  SharedMemoryContext -> list TargetID -> list Z.
Variable GetBuffers :
  SharedMemoryContext -> PlacementSchema -> list BufferID * SharedMemoryContext.

Local Abbreviation organize_buffer' :=
  (organize_buffer SharedMemoryContext GetBufferPoolFromContext
     LocalGetNodeTargets GetBandwidths GetRemainingTargetCapacities GetBuffers).
Local Abbreviation organize_loop' :=
  (organize_loop SharedMemoryContext GetBufferPoolFromContext
     LocalGetNodeTargets GetBandwidths GetRemainingTargetCapacities GetBuffers).
Local Abbreviation LocalOrganizeBlob' :=
  (LocalOrganizeBlob SharedMemoryContext GetBufferPoolFromContext LocalGet
     LocalGetBlobImportanceScore LocalGetBufferIdList GetBufferInfo
     LocalGetNodeTargets GetBandwidths GetRemainingTargetCapacities GetBuffers).
(** The sorted [target_info] that the iteration for a buffer scans. *)
Local Abbreviation sorted_targets context increasing :=
  (SortTargetInfo
     (make_target_info (LocalGetNodeTargets context)
        (GetBandwidths context (LocalGetNodeTargets context))
        (GetRemainingTargetCapacities context (LocalGetNodeTargets context)))
     increasing).

Lemma choose_target_first_fit (target_info : list (TargetInfo F))
    (b : BufferInfo F) (t : TargetInfo F) :
  first_fit target_info b t ->
  choose_target target_info b
  = (bi_id b, [(bi_size b, ti_id t)], ti_bandwidth_mbps t).
Proof.
  intros (pre & post & -> & Hpre & Ht). unfold fits in *.
  induction Hpre as [ | u pre Hu _ IH ]; simpl.
  - destruct (Z.gtb_spec (ti_capacity t) (bi_size b)); [ reflexivity | lia ].
  - destruct (Z.gtb_spec (ti_capacity u) (bi_size b)); [ lia | exact IH ].
Qed.

Lemma choose_target_none (target_info : list (TargetInfo F)) (b : BufferInfo F) :
  Forall (fun u => ~ fits b u) target_info ->
  choose_target target_info b = (0, [], f_of_Z 0).
Proof.
  unfold fits. induction 1 as [ | u l Hu _ IH ]; simpl.
  - reflexivity.
  - destruct (Z.gtb_spec (ti_capacity u) (bi_size b)); [ lia | exact IH ].
Qed.

(** Every scan ends in one of the two ways. *)
Lemma choose_target_cases (target_info : list (TargetInfo F)) (b : BufferInfo F) :
  (exists t, first_fit target_info b t)
  \/ Forall (fun u => ~ fits b u) target_info.
Proof.
  induction target_info as [ | u l IH ].
  - right. constructor.
  - destruct (Z.gtb_spec (ti_capacity u) (bi_size b)) as [Hu | Hu].
    + left. exists u, [], l. repeat split; [ constructor | unfold fits; lia ].
    + destruct IH as [(t & pre & post & -> & Hpre & Ht) | Hall].
      * left. exists t, (u :: pre), post. repeat split; try assumption.
        constructor; [ unfold fits; lia | assumption ].
      * right. constructor; [ unfold fits; lia | assumption ].
Qed.

Lemma organize_buffer_enqueues_valid (context : SharedMemoryContext)
    (blob_id : BlobID) (importance_score epsilon : F) (increasing : bool)
    (buffer_info : list (BufferInfo F)) (b : BufferInfo F)
    (context' : SharedMemoryContext) (t : MoveTask) (new : F) (stop : bool) :
  organize_buffer' context blob_id importance_score epsilon increasing
                   buffer_info b = (context', Examined (Some t) new stop) ->
  move_is_valid increasing new importance_score epsilon = true.
Proof.
  unfold organize_buffer.
  destruct (choose_target _ b) as [[src schema] bw].
  destruct (GetBuffers context schema) as [[ | d dest] ctx']; [ discriminate | ].
  intros E. injection E as _ Etask <- _.
  destruct (move_is_valid increasing _ importance_score epsilon);
    [ reflexivity | discriminate ].
Qed.

Lemma move_is_valid_no_overshoot (increasing : bool) (new importance epsilon : F) :
  move_is_valid increasing new importance epsilon = true ->
  no_overshoot increasing new importance epsilon.
Proof.
  unfold move_is_valid, no_overshoot. intros Hv.
  split; intros -> [H1 H2]; rewrite H1, H2 in Hv; discriminate.
Qed.

Lemma organize_loop_no_overshoot (blob_id : BlobID) (importance_score epsilon : F)
    (increasing : bool) (buffer_info todo : list (BufferInfo F)) :
  forall context,
    Forall (fun '(_, new) => no_overshoot increasing new importance_score epsilon)
           (enqueued_moves
              (snd (organize_loop' context blob_id importance_score epsilon
                                   increasing buffer_info todo))).
Proof.
  induction todo as [ | b todo IH ]; intros context; simpl.
  - constructor.
  - destruct (organize_buffer' context blob_id importance_score epsilon
                increasing buffer_info b) as [context' it] eqn:E.
    specialize (IH context').
    destruct (organize_loop' context' blob_id importance_score epsilon
                increasing buffer_info todo) as [context'' its].
    simpl in IH.
    destruct it as [ | [t | ] new stop ].
    + exact IH.
    + apply organize_buffer_enqueues_valid in E.
      apply move_is_valid_no_overshoot in E.
      destruct stop; simpl; constructor; try assumption. constructor.
    + destruct stop; simpl; [ constructor | exact IH ].
Qed.

Lemma enqueue_all_enqueued_moves (its : list (iteration (F := F))) :
  forall queue,
    enqueue_all queue its
    = queue ++ map (fun '(t, _) => mkMoveTask (mt_src t) (mt_dest t)
                                              (mt_blob_id t) false)
                   (enqueued_moves its).
Proof.
  induction its as [ | [ | [t | ] new stop ] its IH ]; intros queue; simpl.
  - now rewrite app_nil_r.
  - apply IH.
  - rewrite IH. unfold LocalEnqueueBoMove. now rewrite <- app_assoc.
  - apply IH.
Qed.

(** C6.  In every run of [LocalOrganizeBlob], the thread-pool queue grows
    by exactly the moves of the iterations that enqueued one, and for each
    of them the predicted new access score does not overshoot the
    importance score by more than epsilon: when increasing, not
    ([new > importance] and [new - importance > epsilon]); when not
    increasing, not ([new < importance] and [importance - new > epsilon]). *)
Theorem LocalOrganizeBlob_never_overshoots (context : SharedMemoryContext)
    (queue : list MoveTask) (internal_blob_name : string)
    (epsilon explicit_importance_score : F) :
  let run := LocalOrganizeBlob' context queue internal_blob_name epsilon
                                explicit_importance_score in
  or_queue _ run
  = queue ++ map (fun '(t, _) => mkMoveTask (mt_src t) (mt_dest t)
                                            (mt_blob_id t) false)
                 (enqueued_moves (or_iterations _ run))
  /\ Forall (fun '(_, new) =>
               no_overshoot (or_increasing _ run) new
                            (or_importance_score _ run) epsilon)
            (enqueued_moves (or_iterations _ run)).
Proof.
  unfold LocalOrganizeBlob.
  set (blob_id := LocalGet context internal_blob_name).
  set (importance := if feq explicit_importance_score (f_of_Z (-1)) then _ else _).
  set (increasing := fgt importance _).
  set (buffer_info := SortBufferInfo _ increasing).
  pose proof (organize_loop_no_overshoot blob_id importance epsilon increasing
                buffer_info buffer_info context) as Hloop.
  destruct (organize_loop' context blob_id importance epsilon increasing
              buffer_info buffer_info) as [context' its].
  simpl in *. split; [ apply enqueue_all_enqueued_moves | exact Hloop ].
Qed.

(** C7, amended.  For a source buffer, the scan takes the first target in
    sorted order whose remaining capacity is strictly greater than the
    buffer's size: a Move that the iteration enqueues has the buffer as its
    source and the buffers allocated on that target as its destination.  A
    target whose remaining capacity equals the size is passed over.  When
    no target has more room than the size, the schema is empty and, the
    buffer pool giving no buffer for an empty schema, the buffer is
    skipped.  One of the two always holds. *)
Theorem organize_buffer_first_fit (context : SharedMemoryContext)
    (blob_id : BlobID) (importance_score epsilon : F) (increasing : bool)
    (buffer_info : list (BufferInfo F)) (b : BufferInfo F) :
  (forall ctx, fst (GetBuffers ctx []) = []) ->
  let target_info := sorted_targets context increasing in
  let result := organize_buffer' context blob_id importance_score epsilon
                                 increasing buffer_info b in
  (forall t, first_fit target_info b t ->
     choose_target target_info b
     = (bi_id b, [(bi_size b, ti_id t)], ti_bandwidth_mbps t)
     /\ forall task new stop,
          snd result = Examined (Some task) new stop ->
          mt_src task = bi_id b
          /\ mt_dest task = fst (GetBuffers context [(bi_size b, ti_id t)]))
  /\ (forall t, ti_capacity t = bi_size b -> ~ fits b t)
  /\ (Forall (fun u => ~ fits b u) target_info -> snd result = Skipped)
  /\ ((exists t, first_fit target_info b t)
      \/ Forall (fun u => ~ fits b u) target_info).
Proof.
  intros Hnil target_info result. split; [ | split; [ | split ] ].
  - intros t Ht. pose proof (choose_target_first_fit _ _ _ Ht) as Hc.
    split; [ exact Hc | ].
    subst result. unfold organize_buffer. fold target_info. rewrite Hc.
    destruct (GetBuffers context [(bi_size b, ti_id t)]) as [[ | d dest] ctx'];
      simpl; [ discriminate | ].
    intros task new stop E. injection E as Etask _ _.
    destruct (move_is_valid _ _ _ _); [ | discriminate ].
    injection Etask as <-. now split.
  - intros t Ht. unfold fits. lia.
  - intros Hall. subst result. unfold organize_buffer. fold target_info.
    rewrite (choose_target_none _ _ Hall).
    specialize (Hnil context).
    destruct (GetBuffers context []) as [dest ctx']. simpl in Hnil.
    now subst dest.
  - apply choose_target_cases.
Qed.
End OrganizerFacts.

(** C7, as stated, fails: the fast target has exactly the 4096 bytes of the
    buffer left and comes first in sorted order, but the scan passes it over
    and the Move goes to the slow target; with a buffer of 8192 bytes, which
    the slow target could hold exactly, no target is taken and the buffer is
    skipped. *)
Lemma organize_buffer_equal_capacity_counterexample :
  Sample.target_info true
  = [mkTargetInfo 1 (Fin 1000) 4096; mkTargetInfo 2 (Fin 100) 8192]
  /\ choose_target (Sample.target_info true) (mkBufferInfo 11 (Fin 1000) 4096)
     = (11, [(4096, 2)], Fin 100)
  /\ (exists new stop,
        snd (Sample.organize_buffer tt 5 (Fin 1) (Fin (1 # 100)) true
               Sample.buffer_info (mkBufferInfo 11 (Fin 1000) 4096))
        = Examined (Some (mkMoveTask 11 [2000] 5 false)) new stop)
  /\ snd (Sample.organize_buffer tt 5 (Fin 1) (Fin (1 # 100)) true
            Sample.buffer_info (mkBufferInfo 13 (Fin 1000) 8192)) = Skipped.
Proof.
  split; [ reflexivity | split; [ reflexivity | split ] ].
  - eexists _, _. vm_compute. reflexivity.
  - reflexivity.
Qed.

Lemma organize_buffer_first_fit_witness :
  (forall ctx, fst (Sample.GetBuffers ctx []) = [])
  /\ first_fit (Sample.target_info true) (mkBufferInfo 11 (Fin 1000) 4096)
               (mkTargetInfo 2 (Fin 100) 8192)
  /\ choose_target (Sample.target_info true) (mkBufferInfo 11 (Fin 1000) 4096)
     = (11, [(4096, 2)], Fin 100)
  /\ Forall (fun u => ~ fits (mkBufferInfo 13 (Fin 1000) 8192) u)
            (Sample.target_info true)
  /\ snd (Sample.organize_buffer tt 5 (Fin 1) (Fin (1 # 100)) true
            Sample.buffer_info (mkBufferInfo 13 (Fin 1000) 8192)) = Skipped.
Proof.
  assert (Hnil : forall ctx, fst (Sample.GetBuffers ctx []) = []) by reflexivity.
  assert (Hfit : first_fit (Sample.target_info true) (mkBufferInfo 11 (Fin 1000) 4096)
                           (mkTargetInfo 2 (Fin 100) 8192)).
  { exists [mkTargetInfo 1 (Fin 1000) 4096], []. repeat split.
    constructor; [ unfold fits; simpl; lia | constructor ]. }
  assert (Hnone : Forall (fun u => ~ fits (mkBufferInfo 13 (Fin 1000) 8192) u)
                         (Sample.target_info true)).
  { repeat constructor; unfold fits; simpl; lia. }
  split; [ exact Hnil | split; [ exact Hfit | split; [ | split; [ exact Hnone | ] ] ] ].
  - exact (proj1 (proj1 (organize_buffer_first_fit unit Sample.GetBufferPoolFromContext
                           Sample.LocalGetNodeTargets Sample.GetBandwidths
                           Sample.GetRemainingTargetCapacities Sample.GetBuffers
                           tt 5 (Fin 1) (Fin (1 # 100)) true Sample.buffer_info
                           (mkBufferInfo 11 (Fin 1000) 4096) Hnil) _ Hfit)).
  - exact (proj1 (proj2 (proj2 (organize_buffer_first_fit unit Sample.GetBufferPoolFromContext
                           Sample.LocalGetNodeTargets Sample.GetBandwidths
                           Sample.GetRemainingTargetCapacities Sample.GetBuffers
                           tt 5 (Fin 1) (Fin (1 # 100)) true Sample.buffer_info
                           (mkBufferInfo 13 (Fin 1000) 8192) Hnil))) Hnone).
Defined.

(** ** The move executor *)

Lemma u64_small (x : Z) : 0 <= x < 2 ^ 64 -> u64 x = x.
Proof. intros Hx. unfold u64. now apply Z.mod_small. Qed.

Lemma i64_small (x : Z) : - 2 ^ 63 <= x < 2 ^ 63 -> i64 x = x.
Proof. intros Hx. unfold i64. rewrite Z.mod_small; lia. Qed.

Lemma i32_small (x : Z) : is_i32 x -> i32 x = x.
Proof. unfold is_i32, i32. intros Hx. rewrite Z.mod_small; lia. Qed.

Module MoverFacts.
Import Mover MoverSpec.

Section Loop.
Variable context : SharedMemoryContext.
Variable blob : list Byte.byte.
Hypothesis blob_small : Z.of_nat (length blob) < 2 ^ 32.

Lemma move_loop_spec (destinations : list BufferID) :
  forall offset remaining,
    well_formed_headers context destinations ->
    0 <= offset -> 0 <= remaining ->
    offset + remaining = Z.of_nat (length blob) ->
    let r := move_loop context blob destinations offset remaining in
    let ws := writes_of (fst r) in
    let offset' := fst (snd r) in
    let remaining' := snd (snd r) in
    offsets_run offset ws
    /\ concat (map w_data ws)
       = take (Z.to_nat (offset' - offset)) (drop (Z.to_nat offset) blob)
    /\ offset <= offset'
    /\ offset' + remaining' = Z.of_nat (length blob)
    /\ map w_dest ws = filter (resolves context) destinations
    /\ Forall (fun w => Z.of_nat (length (w_data w)) <= capacity_of context (w_dest w)) ws
    /\ remaining' = Z.max 0 (remaining - sum_capacities context destinations).
Proof.
  induction destinations as [ | dest rest IH ]; intros offset remaining Hwf Ho Hr Hlen.
  - unfold sum_capacities. simpl. rewrite Z.sub_diag. simpl.
    repeat split; try lia. constructor.
  - inversion_clear Hwf as [ | ? ? Hdest Hrest ].
    change (sum_capacities context (dest :: rest))
      with (capacity_of context dest + sum_capacities context rest).
    assert (Ecap : capacity_of context dest
                   = match GetHeaderByBufferId context dest with
                     | Some h => capacity h
                     | None => 0
                     end) by reflexivity.
    simpl.
    destruct (GetHeaderByBufferId context dest) as [h | ] eqn:Eh.
    + destruct (Hdest h eq_refl) as [Hcap _]. unfold is_u32 in Hcap.
      rewrite (i64_small (capacity h)) by lia.
      set (p := Z.min (capacity h) remaining).
      assert (Hp : 0 <= p <= remaining) by (subst p; lia).
      rewrite (u64_small p) by lia.
      rewrite (u64_small (offset + p)) by lia.
      rewrite (u64_small remaining) by lia.
      rewrite (i64_small (remaining - p)) by lia.
      specialize (IH (offset + p) (remaining - p) Hrest ltac:(lia) ltac:(lia) ltac:(lia)).
      destruct (move_loop context blob rest (offset + p) (remaining - p))
        as [evs [offset' remaining']].
      simpl in IH |- *.
      destruct IH as (IHo & IHc & IHle & IHsum & IHd & IHcap & IHrem).
      assert (Hplen : length (take (Z.to_nat p) (drop (Z.to_nat offset) blob))
                      = Z.to_nat p).
      { apply length_take_le. rewrite length_drop. lia. }
      repeat split.
      * rewrite Hplen, Z2Nat.id by lia. exact IHo.
      * rewrite IHc.
        replace (Z.to_nat (offset + p)) with (Z.to_nat offset + Z.to_nat p)%nat by lia.
        rewrite <- drop_drop, take_take_drop. f_equal. lia.
      * lia.
      * exact IHsum.
      * rewrite filter_cons_True by (unfold resolves; rewrite Eh; eauto).
        now f_equal.
      * constructor; [ | exact IHcap ]. simpl.
        rewrite Hplen, Z2Nat.id by lia. lia.
      * rewrite IHrem. subst p. lia.
    + specialize (IH offset remaining Hrest Ho Hr Hlen).
      destruct (move_loop context blob rest offset remaining)
        as [evs [offset' remaining']].
      simpl in IH |- *.
      destruct IH as (IHo & IHc & IHle & IHsum & IHd & IHcap & IHrem).
      repeat split; try assumption.
      * rewrite filter_cons_False; [ exact IHd | ].
        unfold resolves. rewrite Eh. now intros [? ?].
      * rewrite IHrem. lia.
Qed.
End Loop.

(** What [BoMove] comes to once the lock is taken and the source resolves. *)
Lemma BoMove_locked (context : SharedMemoryContext) (src : BufferID)
    (destinations : list BufferID) (blob_id : BlobID) (src_header : BufferHeader) :
  blob_id ∉ locked_blobs context ->
  GetHeaderByBufferId context src = Some src_header ->
  well_formed_header src_header ->
  let blob := LocalReadBufferById context src (used src_header) in
  let r := move_loop (locked context blob_id) blob destinations 0 (used src_header) in
  BoMove context src destinations blob_id
  = if snd (snd r) =? 0
    then mkResult (fst r) (Some (snd (snd r)))
                  (Returned (LocalUnlockBlob (locked context blob_id) blob_id))
    else mkResult (fst r) (Some (snd (snd r)))
                  (AssertionFailed (locked context blob_id)).
Proof.
  intros Hlock Hsrc [_ Hused] blob r. unfold is_u32 in Hused.
  unfold BoMove, LocalLockBlob. rewrite decide_False by assumption.
  fold (locked context blob_id).
  change (GetHeaderByBufferId (locked context blob_id) src)
    with (GetHeaderByBufferId context src).
  rewrite Hsrc. rewrite (i64_small (used src_header)) by lia.
  change (LocalReadBufferById (locked context blob_id) src (used src_header))
    with blob.
  subst r. destruct (move_loop _ blob destinations 0 (used src_header))
    as [evs [offset' remaining']]. reflexivity.
Qed.

Lemma length_LocalReadBufferById (context : SharedMemoryContext) (id : BufferID)
    (size : Z) :
  0 <= size -> Z.of_nat (length (LocalReadBufferById context id size)) = size.
Proof.
  intros Hs. unfold LocalReadBufferById. rewrite length_resize. lia.
Qed.

(** C4.  When [BoMove] acquires the blob lock, the source and every
    destination header resolve, and the capacities of the destinations add up
    to at least [used(src)]: there is one write per destination, in order,
    each of at most the destination's capacity; the bytes written,
    concatenated in the order of [destinations], are the [used(src)] bytes
    read from the source; [remaining_src_size] is 0 at the assertion, which
    passes, and [BoMove] returns with the blob unlocked. *)
Theorem BoMove_moves_all_bytes (context : SharedMemoryContext) (src : BufferID)
    (destinations : list BufferID) (blob_id : BlobID) (src_header : BufferHeader) :
  blob_id ∉ locked_blobs context ->
  GetHeaderByBufferId context src = Some src_header ->
  well_formed_header src_header ->
  Forall (resolves context) destinations ->
  well_formed_headers context destinations ->
  used src_header <= sum_capacities context destinations ->
  let r := BoMove context src destinations blob_id in
  let ws := writes_of (res_events r) in
  let blob := LocalReadBufferById context src (used src_header) in
  map w_dest ws = destinations
  /\ Forall (fun w => Z.of_nat (length (w_data w)) <= capacity_of context (w_dest w)) ws
  /\ Z.of_nat (length blob) = used src_header
  /\ concat (map w_data ws) = blob
  /\ res_remaining_src_size r = Some 0
  /\ exists context',
       res_outcome r = Returned context'
       /\ (blob_id ∉ locked_blobs context')
       /\ headers context' = headers context.
Proof.
  intros Hlock Hsrc Hwf Hres Hwfd Hsum r ws blob. subst ws r.
  rewrite (BoMove_locked _ _ _ _ _ Hlock Hsrc Hwf).
  destruct Hwf as [_ Hused]. unfold is_u32 in Hused.
  assert (Hlen : Z.of_nat (length blob) = used src_header)
    by (apply length_LocalReadBufferById; lia).
  pose proof (move_loop_spec (locked context blob_id) blob ltac:(lia)
                destinations 0 (used src_header) Hwfd ltac:(lia) ltac:(lia)
                ltac:(lia)) as Hloop.
  fold blob.
  destruct (move_loop (locked context blob_id) blob destinations 0 (used src_header))
    as [evs [offset' remaining']].
  simpl in Hloop |- *.
  destruct Hloop as (_ & Hcat & _ & Hoff & Hdest & Hcap & Hrem).
  change (sum_capacities (locked context blob_id) destinations)
    with (sum_capacities context destinations) in Hrem.
  assert (remaining' = 0) as -> by lia. simpl.
  repeat split.
  - rewrite Hdest. clear -Hres.
    induction Hres as [ | d l Hd _ IH ]; [ reflexivity | ].
    rewrite filter_cons_True by exact Hd. now f_equal.
  - exact Hcap.
  - exact Hlen.
  - rewrite Hcat, Z.sub_0_r. simpl. apply take_ge. lia.
  - eexists. split; [ reflexivity | ]. split; [ simpl | reflexivity ].
    intros [_ Hn]%elem_of_difference. apply Hn. now apply elem_of_singleton.
Qed.

(** C5.  When [BoMove] acquires the lock and the source resolves, there is
    one write per destination that resolves, and each write is issued at the
    running source offset, the number of bytes written to the destinations
    before it: the first at 0, the second at the size of the portion written
    to the first. *)
Theorem BoMove_write_offsets (context : SharedMemoryContext) (src : BufferID)
    (destinations : list BufferID) (blob_id : BlobID) (src_header : BufferHeader) :
  blob_id ∉ locked_blobs context ->
  GetHeaderByBufferId context src = Some src_header ->
  well_formed_header src_header ->
  well_formed_headers context destinations ->
  let ws := writes_of (res_events (BoMove context src destinations blob_id)) in
  map w_dest ws = filter (resolves context) destinations
  /\ offsets_run 0 ws
  /\ forall w1 w2 rest,
       ws = w1 :: w2 :: rest ->
       w_offset w1 = 0 /\ w_offset w2 = Z.of_nat (length (w_data w1)).
Proof.
  intros Hlock Hsrc Hwf Hwfd ws. subst ws.
  rewrite (BoMove_locked _ _ _ _ _ Hlock Hsrc Hwf).
  destruct Hwf as [_ Hused]. unfold is_u32 in Hused.
  set (blob := LocalReadBufferById context src (used src_header)).
  assert (Hlen : Z.of_nat (length blob) = used src_header)
    by (apply length_LocalReadBufferById; lia).
  pose proof (move_loop_spec (locked context blob_id) blob ltac:(lia)
                destinations 0 (used src_header) Hwfd ltac:(lia) ltac:(lia)
                ltac:(lia)) as Hloop.
  destruct (move_loop (locked context blob_id) blob destinations 0 (used src_header))
    as [evs [offset' remaining']].
  simpl in Hloop.
  destruct Hloop as (Hrun & _ & _ & _ & Hdest & _ & _).
  assert (Hev : res_events
                  (if remaining' =? 0
                   then mkResult evs (Some remaining')
                          (Returned (LocalUnlockBlob (locked context blob_id) blob_id))
                   else mkResult evs (Some remaining')
                          (AssertionFailed (locked context blob_id))) = evs)
    by (now destruct (remaining' =? 0)).
  simpl. rewrite Hev. split; [ exact Hdest | split; [ exact Hrun | ] ].
  intros w1 w2 rest E. rewrite E in Hrun. simpl in Hrun.
  destruct Hrun as (H1 & H2 & _). split; [ exact H1 | ]. rewrite H2. lia.
Qed.

(** With destinations too small for the source, the assertion fails with
    bytes left over and the blob stays locked. *)
Example BoMove_assertion_fails :
  BoMove sample_context 1 [2] 7
  = mkResult [WriteBuffer 2 [Byte.x61; Byte.x62; Byte.x63] 0] (Some 3)
             (AssertionFailed (locked sample_context 7)).
Proof. vm_compute. reflexivity. Qed.

Lemma sample_context_well_formed (ids : list BufferID) :
  well_formed_headers sample_context ids.
Proof.
  apply Forall_forall. intros id _ h. unfold GetHeaderByBufferId, sample_context.
  cbn [headers]. intros E.
  apply lookup_insert_Some in E as [[_ <-] | [_ E]]; [ unfold well_formed_header, is_u32; simpl; lia | ].
  apply lookup_insert_Some in E as [[_ <-] | [_ E]]; [ unfold well_formed_header, is_u32; simpl; lia | ].
  apply lookup_insert_Some in E as [[_ <-] | [_ E]]; [ unfold well_formed_header, is_u32; simpl; lia | ].
  now rewrite lookup_empty in E.
Qed.

Lemma BoMove_moves_all_bytes_witness :
  BoMove sample_context 1 [2; 3] 7
  = mkResult [WriteBuffer 2 [Byte.x61; Byte.x62; Byte.x63] 0;
              WriteBuffer 3 [Byte.x64; Byte.x65; Byte.x66] 3]
             (Some 0) (Returned (LocalUnlockBlob (locked sample_context 7) 7))
  /\ concat (map w_data (writes_of (res_events (BoMove sample_context 1 [2; 3] 7))))
     = LocalReadBufferById sample_context 1 6.
Proof.
  split; [ vm_compute; reflexivity | ].
  refine (proj1 (proj2 (proj2 (proj2
            (BoMove_moves_all_bytes sample_context 1 [2; 3] 7 (mkBufferHeader 8 6)
               _ _ _ _ _ _))))).
  - apply not_elem_of_empty.
  - reflexivity.
  - unfold well_formed_header, is_u32; simpl; lia.
  - repeat constructor; eexists; reflexivity.
  - apply sample_context_well_formed.
  - vm_compute. discriminate.
Defined.

Lemma BoMove_write_offsets_witness :
  map w_offset (writes_of (res_events (BoMove sample_context 1 [2; 9; 3] 7))) = [0; 3]
  /\ offsets_run 0 (writes_of (res_events (BoMove sample_context 1 [2; 9; 3] 7))).
Proof.
  split; [ vm_compute; reflexivity | ].
  refine (proj1 (proj2
            (BoMove_write_offsets sample_context 1 [2; 9; 3] 7 (mkBufferHeader 8 6)
               _ _ _ _))).
  - apply not_elem_of_empty.
  - reflexivity.
  - unfold well_formed_header, is_u32; simpl; lia.
  - apply sample_context_well_formed.
Defined.
End MoverFacts.

(** ** Flush accounting *)

Module FlushFacts.
Import Flush.

Lemma i32_add_idemp (x y : Z) : i32 (i32 x + y) = i32 (x + y).
Proof.
  unfold i32. f_equal.
  replace ((x + 2 ^ 31) mod 2 ^ 32 - 2 ^ 31 + y + 2 ^ 31)
    with ((x + 2 ^ 31) mod 2 ^ 32 + y) by lia.
  rewrite Zplus_mod_idemp_l. f_equal. lia.
Qed.

Lemma i32_increment_decrement (c : Z) : is_i32 c -> i32 (i32 (c + 1) + -1) = c.
Proof.
  intros Hc. rewrite i32_add_idemp.
  replace (c + 1 + -1) with c by lia. now apply i32_small.
Qed.

Lemma LocalAdjustFlushCount_eq (ids : gmap string VBucketID)
    (infos : gmap Z VBucketInfo) (name : string) (adjustment : Z) :
  LocalAdjustFlushCount (mkMdm ids infos) name adjustment
  = match infos !! default 0 (ids !! name) with
    | Some info =>
        mkMdm ids (<[ default 0 (ids !! name)
                      := mkVBucketInfo (i32 (async_flush_count info + adjustment)) ]>
                     infos)
    | None => mkMdm ids infos
    end.
Proof. reflexivity. Qed.

(** On one metadata manager, an increment followed by a decrement of the
    same VBucket leaves every counter as it was. *)
Lemma LocalIncrement_Decrement (mdm : MetadataManager) (name : string) :
  (forall id info, vbucket_info mdm !! id = Some info ->
                   is_i32 (async_flush_count info)) ->
  LocalDecrementFlushCount (LocalIncrementFlushCount mdm name) name = mdm.
Proof.
  intros Hrange. destruct mdm as [ids infos]. cbn [vbucket_info] in Hrange.
  unfold LocalDecrementFlushCount, LocalIncrementFlushCount.
  rewrite (LocalAdjustFlushCount_eq ids infos).
  destruct (infos !! default 0 (ids !! name)) as [[c] | ] eqn:E;
    rewrite LocalAdjustFlushCount_eq.
  - rewrite lookup_insert_eq. cbn [async_flush_count].
    rewrite insert_insert_eq, i32_increment_decrement by exact (Hrange _ _ E).
    now rewrite insert_id.
  - now rewrite E.
Qed.

Lemma count_increments_app (name : string) (evs1 evs2 : list event) :
  count_increments name (evs1 ++ evs2)
  = (count_increments name evs1 + count_increments name evs2)%nat.
Proof.
  induction evs1 as [ | e evs1 IH ]; simpl; [ reflexivity | ].
  destruct e; rewrite IH; lia.
Qed.

Lemma count_decrements_app (name : string) (evs1 evs2 : list event) :
  count_decrements name (evs1 ++ evs2)
  = (count_decrements name evs1 + count_decrements name evs2)%nat.
Proof.
  induction evs1 as [ | e evs1 IH ]; simpl; [ reflexivity | ].
  destruct e; rewrite IH; lia.
Qed.

Lemma alter_alter_id {A : Type} (f g : A -> A) (m : gmap Z A) (i : Z) :
  (forall x, m !! i = Some x -> f (g x) = x) -> alter f i (alter g i m) = m.
Proof.
  intros Hfg. apply map_eq. intros j. destruct (decide (j = i)) as [-> | Hne].
  - rewrite !lookup_alter_eq. destruct (m !! i) as [x | ] eqn:E; simpl; [ | reflexivity ].
    f_equal. now apply Hfg.
  - now rewrite !lookup_alter_ne by congruence.
Qed.

Section Routing.
Variable HashString : string -> Z.
Variable BlobIsInSwap : BlobID -> bool.
Variable node_id : Z.

Local Abbreviation IncrementFlushCount' := (IncrementFlushCount HashString node_id).
Local Abbreviation DecrementFlushCount' := (DecrementFlushCount HashString node_id).
Local Abbreviation FlushBlob' := (FlushBlob HashString node_id).
Local Abbreviation run_task' := (run_task HashString node_id).
Local Abbreviation LocalEnqueueFlushingTask' :=
  (LocalEnqueueFlushingTask HashString BlobIsInSwap node_id).

(** Local or through RPC, the adjustment lands on the node that owns the
    name. *)
Lemma IncrementFlushCount_routed (st : state) (name : string) :
  IncrementFlushCount' st name
  = mkState (alter (fun mdm => LocalIncrementFlushCount mdm name)
                   (HashString name) (nodes st))
            (pool_queue st) (trace st ++ [CallIncrementFlushCount name]).
Proof.
  unfold IncrementFlushCount, on_node, log. cbn [nodes pool_queue trace].
  destruct (Z.eqb_spec (HashString name) node_id) as [-> | _]; reflexivity.
Qed.

Lemma DecrementFlushCount_routed (st : state) (name : string) :
  DecrementFlushCount' st name
  = mkState (alter (fun mdm => LocalDecrementFlushCount mdm name)
                   (HashString name) (nodes st))
            (pool_queue st) (trace st ++ [CallDecrementFlushCount name]).
Proof.
  unfold DecrementFlushCount, on_node, log. cbn [nodes pool_queue trace].
  destruct (Z.eqb_spec (HashString name) node_id) as [-> | _]; reflexivity.
Qed.

(** Between its start and the decrement, an asynchronous [FlushBlob] that
    returns only adds events that leave the counter alone. *)
Lemma FlushBlob_async_returned (sys : syscalls) (st st' : state) (blob_id : BlobID)
    (filename : string) (offset : Z) :
  FlushBlob' sys st blob_id filename offset true = Returned st' ->
  exists evs,
    st' = DecrementFlushCount' (mkState (nodes st) (pool_queue st) (trace st ++ evs))
                               filename
    /\ count_increments filename evs = 0%nat
    /\ count_decrements filename evs = 0%nat.
Proof.
  unfold FlushBlob, flush_locked, check, and_then.
  destruct st as [ns q tr].
  destruct (lock_acquired sys).
  - destruct (open_ok sys); [ | discriminate ].
    destruct (flock_ex_ok sys); [ | discriminate ].
    destruct (flock_un_ok sys); [ | discriminate ].
    destruct (close_ok sys); [ | discriminate ].
    intros E. injection E as <-.
    exists [PersistBlob blob_id filename offset; BlobUnlocked blob_id].
    unfold log. cbn [nodes pool_queue trace]. rewrite <- app_assoc.
    repeat split.
  - intros E. injection E as <-. exists []. rewrite app_nil_r. repeat split.
Qed.

(** [FlushBlob] returns exactly when the lock is not acquired or every
    library call succeeds. *)
Lemma FlushBlob_returns_iff (sys : syscalls) (st : state) (blob_id : BlobID)
    (filename : string) (offset : Z) (async : bool) :
  (exists st', FlushBlob' sys st blob_id filename offset async = Returned st')
  <-> lock_acquired sys = false
      \/ (open_ok sys = true /\ flock_ex_ok sys = true
          /\ flock_un_ok sys = true /\ close_ok sys = true).
Proof.
  unfold FlushBlob, flush_locked, check, and_then.
  destruct (lock_acquired sys), (open_ok sys), (flock_ex_ok sys),
    (flock_un_ok sys), (close_ok sys), async; simpl;
    (split; [ intros [st' E]; try discriminate; tauto
            | intros [E | (E1 & E2 & E3 & E4)]; try discriminate; eauto ]).
Qed.

(** One task, from its enqueue to the return of its body. *)
Lemma async_flush_cycle (st st_done : state) (sys : syscalls)
    (blob_id : BlobID) (filename : string) (offset : Z) :
  counters_in_range st ->
  BlobIsInSwap blob_id = false ->
  let enqueued := LocalEnqueueFlushingTask' st blob_id filename offset in
  let task := mkFlushTask blob_id filename offset true in
  run_task' sys (dequeued (snd enqueued) (pool_queue st)) task = Returned st_done ->
  fst enqueued = true
  /\ trace (snd enqueued) = trace st ++ [CallIncrementFlushCount filename; PoolRun task]
  /\ pool_queue (snd enqueued) = pool_queue st ++ [task]
  /\ (forall c, flush_count st (HashString filename) filename = Some c ->
                flush_count (snd enqueued) (HashString filename) filename
                = Some (i32 (c + 1)))
  /\ (exists evs, trace st_done = trace (snd enqueued) ++ evs
                  /\ count_decrements filename evs = 1%nat
                  /\ count_increments filename evs = 0%nat)
  /\ (lock_acquired sys = false ->
      exists st', run_task' sys (dequeued (snd enqueued) (pool_queue st)) task
                  = Returned st')
  /\ pool_queue st_done = pool_queue st
  /\ nodes st_done = nodes st
  /\ (forall n name, flush_count st_done n name = flush_count st n name).
Proof.
  intros Hrange Hswap enqueued task Hrun.
  assert (Henq : enqueued
                 = (true, mkState (alter (fun mdm => LocalIncrementFlushCount mdm filename)
                                         (HashString filename) (nodes st))
                                  (pool_queue st ++ [task])
                                  (trace st ++ [CallIncrementFlushCount filename;
                                                PoolRun task]))).
  { subst enqueued. unfold LocalEnqueueFlushingTask. rewrite Hswap. simpl negb. cbv iota.
    rewrite IncrementFlushCount_routed. unfold log. cbn [nodes pool_queue trace].
    now rewrite <- app_assoc. }
  rewrite Henq in *. cbn [fst snd] in *. clear Henq enqueued.
  unfold dequeued in *. cbn [nodes pool_queue trace] in *.
  assert (Hnodes : nodes st_done = nodes st).
  { unfold run_task in Hrun. cbn [ft_blob_id ft_filename ft_offset ft_async task] in Hrun.
    apply FlushBlob_async_returned in Hrun as (evs & -> & _ & _).
    rewrite DecrementFlushCount_routed. cbn [nodes].
    apply alter_alter_id. intros mdm Hmdm.
    apply LocalIncrement_Decrement. intros id info.
    exact (Hrange (HashString filename) mdm id info Hmdm). }
  repeat split.
  - intros c. unfold flush_count. cbn [nodes]. rewrite lookup_alter_eq.
    destruct (nodes st !! HashString filename) as [mdm | ]; [ | discriminate ].
    simpl. unfold LocalIncrementFlushCount, LocalAdjustFlushCount.
    destruct (LocalGetVBucketInfoById mdm (LocalGetVBucketId mdm filename))
      as [info | ] eqn:E; [ | discriminate ].
    simpl. intros [= <-].
    unfold LocalGetVBucketInfoById, LocalGetVBucketId. cbn [vbucket_ids vbucket_info].
    now rewrite lookup_insert_eq.
  - unfold run_task in Hrun. cbn [ft_blob_id ft_filename ft_offset ft_async task] in Hrun.
    apply FlushBlob_async_returned in Hrun as (evs & -> & Hinc & Hdec).
    rewrite DecrementFlushCount_routed. cbn [trace].
    exists (evs ++ [CallDecrementFlushCount filename]).
    rewrite <- app_assoc. split; [ reflexivity | ].
    rewrite count_decrements_app, count_increments_app, Hinc, Hdec. simpl.
    now rewrite String.eqb_refl.
  - intros Hlock. apply FlushBlob_returns_iff. now left.
  - unfold run_task in Hrun. cbn [ft_blob_id ft_filename ft_offset ft_async task] in Hrun.
    apply FlushBlob_async_returned in Hrun as (evs & -> & _ & _).
    now rewrite DecrementFlushCount_routed.
  - exact Hnodes.
  - intros n name. unfold flush_count. now rewrite Hnodes.
Qed.
(** *** Any schedule of enqueues and completions *)

Local Abbreviation adjust name adjustment :=
  (alter (fun mdm => LocalAdjustFlushCount mdm name adjustment) (HashString name)).

Lemma LocalAdjustFlushCount_comm (mdm : MetadataManager) (name name' : string)
    (a b : Z) :
  LocalAdjustFlushCount (LocalAdjustFlushCount mdm name' b) name a
  = LocalAdjustFlushCount (LocalAdjustFlushCount mdm name a) name' b.
Proof.
  destruct mdm as [ids infos].
  rewrite (LocalAdjustFlushCount_eq ids infos name' b),
          (LocalAdjustFlushCount_eq ids infos name a).
  set (id := default 0 (ids !! name)). set (id' := default 0 (ids !! name')).
  destruct (decide (id = id')) as [E | Hne].
  - rewrite <- E. destruct (infos !! id) as [[c] | ] eqn:Ei.
    + rewrite !LocalAdjustFlushCount_eq. fold id id'. rewrite <- E.
      rewrite !lookup_insert_eq, !insert_insert_eq. cbn [async_flush_count].
      rewrite !i32_add_idemp. now replace (c + b + a) with (c + a + b) by lia.
    + rewrite !LocalAdjustFlushCount_eq. fold id id'. rewrite <- E. now rewrite Ei.
  - destruct (infos !! id') as [[c'] | ] eqn:Ei', (infos !! id) as [[c] | ] eqn:Ei;
      rewrite !LocalAdjustFlushCount_eq; fold id id';
      rewrite ?lookup_insert_ne by congruence; rewrite ?Ei, ?Ei'; try reflexivity.
    f_equal. now apply insert_insert_ne.
Qed.

Lemma adjust_comm (ns : gmap Z MetadataManager) (name name' : string) (a b : Z) :
  adjust name a (adjust name' b ns) = adjust name' b (adjust name a ns).
Proof.
  destruct (decide (HashString name = HashString name')) as [E | Hne].
  - rewrite E. apply map_eq. intros n.
    destruct (decide (n = HashString name')) as [-> | Hn].
    + rewrite !lookup_alter_eq. destruct (ns !! HashString name'); simpl; [ | reflexivity ].
      f_equal. apply LocalAdjustFlushCount_comm.
    + now rewrite !lookup_alter_ne by congruence.
  - apply map_eq. intros n.
    destruct (decide (n = HashString name)) as [E | Hn];
      destruct (decide (n = HashString name')) as [E' | Hn'];
      try congruence; subst;
      repeat (rewrite lookup_alter_eq || rewrite lookup_alter_ne by congruence);
      reflexivity.
Qed.

(** An adjustment moves past the increments of the queued tasks. *)
Lemma adjust_with_outstanding (queue : list FlushTask)
    (ns : gmap Z MetadataManager) (name : string) (a : Z) :
  adjust name a (with_outstanding HashString queue ns)
  = with_outstanding HashString queue (adjust name a ns).
Proof.
  induction queue as [ | t queue IH ]; simpl; [ reflexivity | ].
  unfold LocalIncrementFlushCount. now rewrite adjust_comm, IH.
Qed.

Lemma with_outstanding_app (q1 q2 : list FlushTask) (ns : gmap Z MetadataManager) :
  with_outstanding HashString (q1 ++ q2) ns
  = with_outstanding HashString q1 (with_outstanding HashString q2 ns).
Proof. unfold with_outstanding. apply foldr_app. Qed.

Lemma i32_range (x : Z) : is_i32 (i32 x).
Proof.
  unfold is_i32, i32.
  pose proof (Z.mod_pos_bound (x + 2 ^ 31) (2 ^ 32) ltac:(lia)). lia.
Qed.

Lemma adjust_in_range (ns : gmap Z MetadataManager) (name : string) (a : Z) :
  nodes_in_range ns -> nodes_in_range (adjust name a ns).
Proof.
  intros Hns n mdm id info Hn Hid.
  apply lookup_alter_Some in Hn as [(<- & mdm0 & Hm & ->) | [_ Hn]];
    [ | exact (Hns _ _ _ _ Hn Hid) ].
  destruct mdm0 as [ids infos]. rewrite LocalAdjustFlushCount_eq in Hid.
  destruct (infos !! default 0 (ids !! name)) as [info0 | ] eqn:E;
    cbn [vbucket_info] in Hid.
  - apply lookup_insert_Some in Hid as [[_ <-] | [_ Hid]]; [ apply i32_range | ].
    exact (Hns _ _ _ _ Hm Hid).
  - exact (Hns _ _ _ _ Hm Hid).
Qed.

Lemma with_outstanding_in_range (queue : list FlushTask)
    (ns : gmap Z MetadataManager) :
  nodes_in_range ns -> nodes_in_range (with_outstanding HashString queue ns).
Proof.
  intros Hns. induction queue as [ | t queue IH ]; simpl; [ exact Hns | ].
  now apply adjust_in_range.
Qed.

Lemma adjust_cancel (ns : gmap Z MetadataManager) (name : string) :
  nodes_in_range ns -> adjust name (-1) (adjust name 1 ns) = ns.
Proof.
  intros Hns. apply alter_alter_id. intros mdm Hm.
  apply (LocalIncrement_Decrement mdm name). intros id info.
  exact (Hns _ _ _ _ Hm).
Qed.

(** At every state the node reaches from one with an empty queue, each
    queued task accounts for one increment over the initial counters; the
    tasks in the queue are asynchronous. *)
Lemma reachable_outstanding (st0 st : state) :
  nodes_in_range (nodes st0) -> pool_queue st0 = [] ->
  reachable HashString BlobIsInSwap node_id st0 st ->
  nodes st = with_outstanding HashString (pool_queue st) (nodes st0)
  /\ Forall (fun t => ft_async t = true) (pool_queue st).
Proof.
  intros Hrange Hq0 Hreach.
  induction Hreach as [ | st st' _ [IHn IHa] Hstep ].
  - rewrite Hq0. split; [ reflexivity | constructor ].
  - destruct Hstep as [st blob_id filename offset Hswap
                      | st st' pre post task sys Hq Hrun].
    + unfold LocalEnqueueFlushingTask. rewrite Hswap. simpl negb. cbv iota.
      rewrite IncrementFlushCount_routed. unfold log. cbn [snd nodes pool_queue trace].
      split.
      * rewrite IHn, with_outstanding_app. cbn [with_outstanding foldr ft_filename].
        unfold LocalIncrementFlushCount. now rewrite adjust_with_outstanding.
      * apply Forall_app. split; [ exact IHa | repeat constructor ].
    + rewrite Hq in IHn, IHa.
      apply Forall_app in IHa as [Hpre Hpost].
      inversion_clear Hpost as [ | ? ? Hasync Hpost' ].
      unfold run_task, dequeued in Hrun. rewrite Hasync in Hrun.
      apply FlushBlob_async_returned in Hrun as (evs & -> & _ & _).
      rewrite DecrementFlushCount_routed. cbn [nodes pool_queue trace].
      split; [ | apply Forall_app; now split ].
      rewrite IHn, !with_outstanding_app. cbn [with_outstanding foldr].
      unfold LocalDecrementFlushCount, LocalIncrementFlushCount.
      rewrite adjust_with_outstanding. f_equal.
      apply adjust_cancel. now apply with_outstanding_in_range.
Qed.

(** Steady state: from counters at rest and an empty queue, whatever the
    order in which flush tasks are accepted and complete, once the queue is
    empty again every counter is what it was at the start. *)
Lemma flush_count_steady_state (st0 st : state) (n : Z) (name : string) :
  counters_in_range st0 -> pool_queue st0 = [] ->
  reachable HashString BlobIsInSwap node_id st0 st ->
  pool_queue st = [] ->
  nodes st = nodes st0 /\ flush_count st n name = flush_count st0 n name.
Proof.
  intros Hrange Hq0 Hreach Hq.
  destruct (reachable_outstanding st0 st Hrange Hq0 Hreach) as [Hn _].
  rewrite Hq in Hn. simpl in Hn. split; [ exact Hn | ].
  unfold flush_count. now rewrite Hn.
Qed.

(** C8.  For an async flush task that [LocalEnqueueFlushingTask] accepts,
    [IncrementFlushCount] is called exactly once, before the task is handed
    to the pool, and it adds one to the VBucket's counter; when the
    [FlushBlob] body returns, on any path, [DecrementFlushCount] was called
    exactly once; the lock-failure path does return.  After the flush every
    counter on every node is what it was before the task was enqueued.
    Steady state: from an empty queue, whatever the order in which tasks are
    accepted and complete, once the queue is empty again every counter is
    what it was at the start, so a count that was zero is zero. *)
Theorem async_flush_count_balanced :
  (forall (st st_done : state) (sys : syscalls) (blob_id : BlobID)
          (filename : string) (offset : Z),
     counters_in_range st ->
     BlobIsInSwap blob_id = false ->
     let enqueued := LocalEnqueueFlushingTask' st blob_id filename offset in
     let task := mkFlushTask blob_id filename offset true in
     run_task' sys (dequeued (snd enqueued) (pool_queue st)) task = Returned st_done ->
     fst enqueued = true
     /\ trace (snd enqueued)
        = trace st ++ [CallIncrementFlushCount filename; PoolRun task]
     /\ pool_queue (snd enqueued) = pool_queue st ++ [task]
     /\ (forall c, flush_count st (HashString filename) filename = Some c ->
                   flush_count (snd enqueued) (HashString filename) filename
                   = Some (i32 (c + 1)))
     /\ (exists evs, trace st_done = trace (snd enqueued) ++ evs
                     /\ count_decrements filename evs = 1%nat
                     /\ count_increments filename evs = 0%nat)
     /\ (lock_acquired sys = false ->
         exists st', run_task' sys (dequeued (snd enqueued) (pool_queue st)) task
                     = Returned st')
     /\ pool_queue st_done = pool_queue st
     /\ nodes st_done = nodes st
     /\ (forall n name, flush_count st_done n name = flush_count st n name))
  /\ (forall (st0 st : state) (n : Z) (name : string),
        counters_in_range st0 -> pool_queue st0 = [] ->
        reachable HashString BlobIsInSwap node_id st0 st ->
        pool_queue st = [] ->
        nodes st = nodes st0 /\ flush_count st n name = flush_count st0 n name).
Proof.
  split.
  - intros st st_done sys blob_id filename offset Hrange Hswap enqueued task Hrun.
    exact (async_flush_cycle st st_done sys blob_id filename offset Hrange Hswap Hrun).
  - intros st0 st n name Hrange Hq0 Hreach Hq.
    exact (flush_count_steady_state st0 st n name Hrange Hq0 Hreach Hq).
Qed.
End Routing.

Lemma sample_counters_in_range : counters_in_range FlushSample.initial.
Proof.
  intros n mdm id info Hn Hid. unfold FlushSample.initial in Hn. cbn [nodes] in Hn.
  apply lookup_singleton_Some in Hn as [_ <-]. cbn [vbucket_info] in Hid.
  apply lookup_singleton_Some in Hid as [_ <-]. unfold is_i32. simpl. lia.
Qed.

(** The two ways a flush of the sample task completes: without the blob
    lock, and with it when every library call succeeds. *)
Example FlushBlob_lock_failure_trace :
  trace FlushSample.after_lock_failure
  = [CallIncrementFlushCount "out.dat"; PoolRun FlushSample.task;
     CallDecrementFlushCount "out.dat"].
Proof. reflexivity. Qed.

Example FlushBlob_success_trace :
  exists st,
    run_task FlushSample.HashString FlushSample.node_id FlushSample.all_succeed
             (dequeued (snd FlushSample.enqueued) []) FlushSample.task
    = Returned st
    /\ trace st
       = [CallIncrementFlushCount "out.dat"; PoolRun FlushSample.task;
          PersistBlob 42 "out.dat" 0; BlobUnlocked 42;
          CallDecrementFlushCount "out.dat"]
    /\ flush_count st 0 "out.dat" = Some 0.
Proof. eexists. split; [ reflexivity | split; vm_compute; reflexivity ]. Qed.

Lemma sample_reachable :
  reachable FlushSample.HashString FlushSample.BlobIsInSwap FlushSample.node_id
            FlushSample.initial FlushSample.after_lock_failure.
Proof.
  apply (reachable_step _ _ _ _ (snd FlushSample.enqueued)).
  - apply (reachable_step _ _ _ _ FlushSample.initial); [ apply reachable_refl | ].
    exact (step_enqueue FlushSample.HashString FlushSample.BlobIsInSwap
             FlushSample.node_id FlushSample.initial 42 "out.dat" 0 eq_refl).
  - exact (step_run FlushSample.HashString FlushSample.BlobIsInSwap
             FlushSample.node_id (snd FlushSample.enqueued)
             FlushSample.after_lock_failure [] []
             FlushSample.task FlushSample.lock_fails eq_refl eq_refl).
Qed.

Lemma async_flush_count_balanced_witness :
  run_task FlushSample.HashString FlushSample.node_id FlushSample.lock_fails
           (dequeued (snd FlushSample.enqueued) []) FlushSample.task
  = Returned FlushSample.after_lock_failure
  /\ flush_count (snd FlushSample.enqueued) 0 "out.dat" = Some 1
  /\ flush_count FlushSample.after_lock_failure 0 "out.dat" = Some 0
  /\ nodes FlushSample.after_lock_failure = nodes FlushSample.initial
  /\ flush_count FlushSample.after_lock_failure 0 "out.dat"
     = flush_count FlushSample.initial 0 "out.dat".
Proof.
  assert (Hrun : run_task FlushSample.HashString FlushSample.node_id
                          FlushSample.lock_fails
                          (dequeued (snd FlushSample.enqueued) []) FlushSample.task
                 = Returned FlushSample.after_lock_failure) by reflexivity.
  pose proof (async_flush_count_balanced FlushSample.HashString
                FlushSample.BlobIsInSwap FlushSample.node_id) as [Hcycle Hsteady].
  split; [ exact Hrun | ].
  split; [ vm_compute; reflexivity | ].
  split; [ vm_compute; reflexivity | ].
  split.
  - exact (proj1 (proj2 (proj2 (proj2 (proj2 (proj2 (proj2 (proj2
             (Hcycle FlushSample.initial FlushSample.after_lock_failure
                FlushSample.lock_fails 42 "out.dat"%string 0
                sample_counters_in_range eq_refl Hrun))))))))).
  - exact (proj2 (Hsteady FlushSample.initial FlushSample.after_lock_failure 0
                    "out.dat"%string sample_counters_in_range eq_refl
                    sample_reachable eq_refl)).
Defined.
End FlushFacts.

(** ** RPC serialization *)

Module RpcFacts.
Import Rpc.
Local Open Scope ar_scope.

Lemma Z_of_byte_of_Z (z : Z) : Z_of_byte (byte_of_Z z) = z mod 256.
Proof.
  unfold Z_of_byte, byte_of_Z.
  assert (Hz : 0 <= z mod 256 < 256) by (apply Z.mod_pos_bound; lia).
  destruct (Byte.of_N (Z.to_N (z mod 256))) as [b | ] eqn:E.
  - apply Byte.to_of_N in E. simpl. rewrite E. lia.
  - apply Byte.of_N_None_iff in E. lia.
Qed.

Lemma length_le_encode (w : nat) (x : Z) : length (le_encode w x) = w.
Proof.
  revert x. induction w as [ | w IH ]; intros x; simpl; [ reflexivity | ].
  now rewrite IH.
Qed.

Lemma le_decode_encode (w : nat) (x : Z) :
  0 <= x < 256 ^ Z.of_nat w -> le_decode (le_encode w x) = x.
Proof.
  revert x. induction w as [ | w IH ]; intros x Hx.
  - simpl in *. lia.
  - cbn [le_encode le_decode]. rewrite Z_of_byte_of_Z.
    rewrite Nat2Z.inj_succ, Z.pow_succ_r in Hx by lia.
    rewrite IH.
    + pose proof (Z.div_mod x 256). lia.
    + split; [ apply Z.div_pos; lia | apply Z.div_lt_upper_bound; lia ].
Qed.

Lemma encodes_round_trips {A} (p : A -> Ar A) (x : A) (bytes : list Byte.byte) :
  encodes p x bytes -> round_trips p x.
Proof.
  intros [Hout Hin] init rest. unfold from_bytes, to_bytes.
  rewrite Hout. simpl. now rewrite Hin.
Qed.

Lemma encodes_unsigned (w : nat) (x : Z) :
  0 <= x < 256 ^ Z.of_nat w -> encodes (amp_unsigned w) x (le_encode w x).
Proof.
  intros Hx. split.
  - reflexivity.
  - intros init rest. unfold amp_unsigned.
    assert (Hlen : (length (le_encode w x ++ rest) <? w)%nat = false).
    { apply Nat.ltb_ge. rewrite length_app, length_le_encode. lia. }
    rewrite Hlen.
    rewrite take_app_length' by (symmetry; apply length_le_encode).
    rewrite drop_app_length' by (symmetry; apply length_le_encode).
    now rewrite le_decode_encode.
Qed.

Lemma encodes_u64 (x : Z) : is_u64 x -> encodes amp_u64 x (le_encode 8 x).
Proof. intros Hx. apply encodes_unsigned. exact Hx. Qed.

Lemma encodes_u32 (x : Z) : is_u32 x -> encodes amp_u32 x (le_encode 4 x).
Proof. intros Hx. apply encodes_unsigned. exact Hx. Qed.

Lemma i32_mod (x : Z) : is_i32 x -> i32 (x mod 2 ^ 32) = x.
Proof.
  unfold is_i32, i32. intros Hx.
  rewrite Zplus_mod_idemp_l. rewrite Z.mod_small; lia.
Qed.

Lemma amp_int_out (x : Z) (buf : list Byte.byte) :
  is_i32 x ->
  amp_int x (Output buf) = Some (x, Output (buf ++ le_encode 4 (x mod 2 ^ 32))).
Proof.
  intros Hx. unfold amp_int, bind, ret. simpl. now rewrite i32_mod.
Qed.

Lemma amp_int_in (x init : Z) (rest : list Byte.byte) :
  is_i32 x ->
  amp_int init (Input (le_encode 4 (x mod 2 ^ 32) ++ rest)) = Some (x, Input rest).
Proof.
  intros Hx. unfold amp_int, bind, ret.
  assert (Hm : 0 <= x mod 2 ^ 32 < 256 ^ Z.of_nat 4) by (apply Z.mod_pos_bound; lia).
  rewrite (proj2 (encodes_unsigned 4 (x mod 2 ^ 32) Hm)). now rewrite i32_mod.
Qed.

Lemma encodes_int (x : Z) :
  is_i32 x -> encodes amp_int x (le_encode 4 (x mod 2 ^ 32)).
Proof.
  intros Hx. split; [ intros buf; now apply amp_int_out
                    | intros init rest; now apply amp_int_in ].
Qed.

(** An enum class that goes through [save] and [load] as its [int]. *)
Lemma encodes_ThresholdViolation (v : ThresholdViolation) :
  is_i32 v ->
  encodes (save_load save_ThresholdViolation load_ThresholdViolation) v
          (le_encode 4 (v mod 2 ^ 32)).
Proof.
  intros Hv. split.
  - intros buf. unfold save_load, save_ThresholdViolation, bind.
    now rewrite amp_int_out.
  - intros init rest. unfold save_load, load_ThresholdViolation, bind.
    now rewrite amp_int_in.
Qed.

Lemma encodes_PrefetchHint (h : PrefetchHint) :
  is_i32 h ->
  encodes (save_load save_PrefetchHint load_PrefetchHint) h
          (le_encode 4 (h mod 2 ^ 32)).
Proof.
  intros Hh. split.
  - intros buf. unfold save_load, save_PrefetchHint, bind.
    now rewrite amp_int_out.
  - intros init rest. unfold save_load, load_PrefetchHint, bind.
    now rewrite amp_int_in.
Qed.

Lemma BoOperation_of_to_int (op : BoOperation) :
  BoOperation_of_int (BoOperation_to_int op) = Some op.
Proof. now destruct op. Qed.

Lemma BoOperation_to_int_range (op : BoOperation) : is_i32 (BoOperation_to_int op).
Proof. unfold is_i32. destruct op; simpl; lia. Qed.

Lemma encodes_BoOperation (op : BoOperation) :
  encodes (save_load save_BoOperation load_BoOperation) op
          (le_encode 4 (BoOperation_to_int op mod 2 ^ 32)).
Proof.
  pose proof (BoOperation_to_int_range op) as Hop. split.
  - intros buf. unfold save_load, save_BoOperation, bind.
    now rewrite amp_int_out.
  - intros init rest. unfold save_load, load_BoOperation, bind.
    rewrite amp_int_in by assumption. now rewrite BoOperation_of_to_int.
Qed.

#[local] Arguments le_encode : simpl never.

(** The serializer of a struct runs the serializers of its fields in a row:
    with the facts [encodes] of the fields in the context, both directions
    follow by rewriting. *)
Ltac project_fields :=
  cbv beta iota delta
    [sb_node_id sb_offset sb_size sb_bucket_id info_id info_bandwidth_mbps
     info_size task_op task_args args_word0 args_word1 vi_target_id vi_violation
     vi_violation_size pc_hint pc_read_ahead].

Ltac use_field_encodings :=
  repeat match goal with
         | H : encodes _ _ _ |- _ => destruct H as [? ?]
         end;
  split;
  [ intros buf; unfold bind, ret; project_fields;
    repeat match goal with
           | Hout : forall buf, _ = Some (_, Output _) |- _ =>
               rewrite Hout; clear Hout; cbv beta iota
           end;
    rewrite <- ?app_assoc; reflexivity
  | intros init rest; unfold bind, ret; rewrite <- ?app_assoc;
    repeat match goal with
           | Hin : forall init rest, _ = Some (_, Input _) |- _ =>
               rewrite Hin; clear Hin; cbv beta iota
           end;
    reflexivity ].

Lemma encodes_SwapBlob (s : SwapBlob) :
  well_formed_SwapBlob s ->
  encodes serialize_SwapBlob s
    (le_encode 4 (sb_node_id s) ++ le_encode 8 (sb_offset s)
     ++ le_encode 8 (sb_size s) ++ le_encode 8 (sb_bucket_id s)).
Proof.
  intros (H1 & H2 & H3 & H4). destruct s as [n o z b]. cbn in *.
  pose proof (encodes_u32 n H1). pose proof (encodes_u64 o H2).
  pose proof (encodes_u64 z H3). pose proof (encodes_u64 b H4).
  unfold serialize_SwapBlob, serialize_BucketID. use_field_encodings.
Qed.

Lemma encodes_BufferInfo (b : BufferInfo) :
  well_formed_BufferInfo b ->
  encodes serialize_BufferInfo b
    (le_encode 8 (info_id b) ++ le_encode 4 (info_bandwidth_mbps b)
     ++ le_encode 8 (info_size b)).
Proof.
  intros (H1 & H2 & H3). destruct b as [i bw z]. cbn in *.
  pose proof (encodes_u64 i H1). pose proof (encodes_u32 bw H2).
  pose proof (encodes_u64 z H3).
  unfold serialize_BufferInfo, serialize_BufferID, amp_f32. use_field_encodings.
Qed.

Lemma encodes_BoTask (t : BoTask) :
  well_formed_BoTask t ->
  encodes serialize_BoTask t
    (le_encode 4 (BoOperation_to_int (task_op t) mod 2 ^ 32)
     ++ le_encode 8 (args_word0 (task_args t))
     ++ le_encode 8 (args_word1 (task_args t))).
Proof.
  intros (H1 & H2). destruct t as [op [w0 w1]]. cbn in *.
  pose proof (encodes_BoOperation op).
  pose proof (encodes_u64 w0 H1). pose proof (encodes_u64 w1 H2).
  unfold serialize_BoTask, serialize_BoArgs, serialize_BufferID, serialize_TargetID,
    move_args_src, move_args_dest.
  use_field_encodings.
Qed.

Lemma encodes_ViolationInfo (v : ViolationInfo) :
  well_formed_ViolationInfo v ->
  encodes serialize_ViolationInfo v
    (le_encode 8 (vi_target_id v) ++ le_encode 4 (vi_violation v mod 2 ^ 32)
     ++ le_encode 8 (vi_violation_size v)).
Proof.
  intros (H1 & H2 & H3). destruct v as [t vi z]. cbn in *.
  pose proof (encodes_u64 t H1). pose proof (encodes_ThresholdViolation vi H2).
  pose proof (encodes_u64 z H3).
  unfold serialize_ViolationInfo, serialize_TargetID. use_field_encodings.
Qed.

Lemma encodes_PrefetchContext (p : PrefetchContext) :
  well_formed_PrefetchContext p ->
  encodes serialize_PrefetchContext p
    (le_encode 4 (pc_hint p mod 2 ^ 32) ++ le_encode 4 (pc_read_ahead p mod 2 ^ 32)).
Proof.
  intros (H1 & H2). destruct p as [h r]. cbn in *.
  pose proof (encodes_PrefetchHint h H1). pose proof (encodes_int r H2).
  unfold serialize_PrefetchContext. use_field_encodings.
Qed.

(** The wire format of an id is its 64-bit value, least significant byte
    first; a [BoTask] is the 32-bit enumerator and the two words of the
    arguments. *)
Example to_bytes_BufferID_258 :
  to_bytes serialize_BufferID 258
  = [Byte.x02; Byte.x01; Byte.x00; Byte.x00; Byte.x00; Byte.x00; Byte.x00; Byte.x00].
Proof. vm_compute. reflexivity. Qed.

Example to_bytes_BoTask_delete :
  to_bytes serialize_BoTask (mkBoTask kDelete (mkBoArgs 7 0))
  = [Byte.x02; Byte.x00; Byte.x00; Byte.x00;
     Byte.x07; Byte.x00; Byte.x00; Byte.x00; Byte.x00; Byte.x00; Byte.x00; Byte.x00;
     Byte.x00; Byte.x00; Byte.x00; Byte.x00; Byte.x00; Byte.x00; Byte.x00; Byte.x00].
Proof. vm_compute. reflexivity. Qed.

(** C9.  For every value of each serialized type, reading back what the
    serializer wrote gives the value itself: the five ID unions (as their
    64-bit [as_int]), [SwapBlob], [BufferInfo], [BoTask] for each of the
    operations Move, Copy and Delete, [ViolationInfo] and [PrefetchContext].
    The fields hold values of their C++ types. *)
Theorem serialize_round_trip :
  (forall id, is_u64 id ->
     round_trips serialize_BufferID id /\ round_trips serialize_BucketID id
     /\ round_trips serialize_VBucketID id /\ round_trips serialize_BlobID id
     /\ round_trips serialize_TargetID id)
  /\ (forall s, well_formed_SwapBlob s -> round_trips serialize_SwapBlob s)
  /\ (forall b, well_formed_BufferInfo b -> round_trips serialize_BufferInfo b)
  /\ (forall t, well_formed_BoTask t -> round_trips serialize_BoTask t)
  /\ (forall v, well_formed_ViolationInfo v -> round_trips serialize_ViolationInfo v)
  /\ (forall p, well_formed_PrefetchContext p ->
               round_trips serialize_PrefetchContext p).
Proof.
  split; [ | split; [ | split; [ | split; [ | split ] ] ] ].
  - intros id Hid.
    refine (conj _ (conj _ (conj _ (conj _ _))));
      exact (encodes_round_trips _ _ _ (encodes_u64 id Hid)).
  - intros s Hs. exact (encodes_round_trips _ _ _ (encodes_SwapBlob s Hs)).
  - intros b Hb. exact (encodes_round_trips _ _ _ (encodes_BufferInfo b Hb)).
  - intros t Ht. exact (encodes_round_trips _ _ _ (encodes_BoTask t Ht)).
  - intros v Hv. exact (encodes_round_trips _ _ _ (encodes_ViolationInfo v Hv)).
  - intros p Hp. exact (encodes_round_trips _ _ _ (encodes_PrefetchContext p Hp)).
Qed.

Lemma serialize_round_trip_witness :
  round_trips serialize_BlobID (2 ^ 64 - 1)
  /\ round_trips serialize_SwapBlob (mkSwapBlob 3 4096 512 77)
  /\ round_trips serialize_BufferInfo (mkBufferInfo 9 1148846080 4096)
  /\ round_trips serialize_BoTask (mkBoTask kMove (mkBoArgs 7 9))
  /\ round_trips serialize_BoTask (mkBoTask kCopy (mkBoArgs 7 9))
  /\ round_trips serialize_BoTask (mkBoTask kDelete (mkBoArgs 7 0))
  /\ round_trips serialize_ViolationInfo (mkViolationInfo 5 1 1024)
  /\ round_trips serialize_PrefetchContext (mkPrefetchContext 2 (-1)).
Proof.
  destruct serialize_round_trip as (Hid & Hswap & Hinfo & Htask & Hviol & Hpctx).
  refine (conj _ (conj _ (conj _ (conj _ (conj _ (conj _ (conj _ _))))))).
  - apply Hid. unfold is_u64. lia.
  - apply Hswap. unfold well_formed_SwapBlob, is_u32, is_u64. simpl. lia.
  - apply Hinfo. unfold well_formed_BufferInfo, is_u32, is_u64. simpl. lia.
  - apply Htask. unfold well_formed_BoTask, is_u64. simpl. lia.
  - apply Htask. unfold well_formed_BoTask, is_u64. simpl. lia.
  - apply Htask. unfold well_formed_BoTask, is_u64. simpl. lia.
  - apply Hviol. unfold well_formed_ViolationInfo, is_i32, is_u64. simpl. lia.
  - apply Hpctx. unfold well_formed_PrefetchContext, is_i32. simpl. lia.
Defined.
End RpcFacts.

(* ===================================================================== *)
(** * Part III.  Further properties of the code                           *)
(* ===================================================================== *)

(** ** The cost model in closed form *)

Lemma BytesToMegabytes_exact (bytes : Z) :
  BytesToMegabytes bytes = Fin (inject_Z bytes / inject_Z (MEGABYTES 1)).
Proof. reflexivity. Qed.

Lemma access_score_step_usable (t r : Q) (b : BufferInfo xreal) :
  usable b ->
  access_score_step (Fin t, Fin r) b
  = (Fin (t + size_mb_Q b), Fin (r + size_mb_Q b * (1 / bw_Q b))).
Proof.
  intros (q & Hq & Hnz). unfold access_score_step, bw_Q, size_mb_Q.
  rewrite BytesToMegabytes_exact, Hq. cbn [fst snd fadd fmul fdiv f_of_Z xreal_ops].
  unfold xdiv at 1.
  destruct (Qeq_bool q 0) eqn:E; [ apply Qeq_bool_iff in E; contradiction | ].
  reflexivity.
Qed.

(** The loop adds up the sizes and the seconds. *)
Lemma access_score_fold (l : list (BufferInfo xreal)) :
  Forall usable l ->
  forall t r, exists t' r',
    fold_left access_score_step l (Fin t, Fin r) = (Fin t', Fin r')
    /\ (t' == t + total_mb l)%Q /\ (r' == r + raw_seconds l)%Q.
Proof.
  induction 1 as [ | b l Hb _ IH ]; intros t r.
  - exists t, r. simpl. repeat split; ring.
  - simpl fold_left. rewrite (access_score_step_usable t r b Hb).
    destruct (IH (t + size_mb_Q b)%Q (r + size_mb_Q b * (1 / bw_Q b))%Q)
      as (t' & r' & E & Ht & Hr).
    exists t', r'. split; [ exact E | ]. simpl. rewrite Ht, Hr. split; ring.
Qed.

(** With numbers everywhere and a range that is not zero, the score is the
    number [(raw - total * min) / (total * max - total * min)]. *)
Lemma ComputeBlobAccessScore_closed_form (a b : Q) (l : list (BufferInfo xreal)) :
  Forall usable l ->
  ~ (total_mb l * b - total_mb l * a == 0)%Q ->
  exists q,
    ComputeBlobAccessScore (mkBufferPool (Fin a) (Fin b)) l = Fin q
    /\ (q == (raw_seconds l - total_mb l * a)
             / (total_mb l * b - total_mb l * a))%Q.
Proof.
  intros Hl Hrange. unfold ComputeBlobAccessScore.
  destruct (access_score_fold l Hl (inject_Z 0) (inject_Z 0)) as (t & r & E & Ht & Hr).
  cbn [f_of_Z xreal_ops]. rewrite E.
  unfold NormalizeAccessScore.
  cbn [fst snd fsub fmul fdiv xreal_ops min_device_bw_mbps max_device_bw_mbps
       xmul xsub xadd xopp xdiv].
  assert (Ht' : (t == total_mb l)%Q) by (rewrite Ht; unfold inject_Z; ring).
  assert (Hr' : (r == raw_seconds l)%Q) by (rewrite Hr; unfold inject_Z; ring).
  destruct (Qeq_bool (t * b + - (t * a)) 0) eqn:Ez.
  - apply Qeq_bool_iff in Ez. exfalso. apply Hrange. rewrite <- Ht'.
    rewrite <- Ez. ring.
  - eexists. split; [ reflexivity | ]. rewrite Ht', Hr'. reflexivity.
Qed.

Lemma size_mb_Q_pos (x : BufferInfo xreal) : 0 < bi_size x -> (0 < size_mb_Q x)%Q.
Proof.
  intros Hx. unfold size_mb_Q, Qdiv. apply Qmult_lt_0_compat.
  - unfold Qlt. simpl. lia.
  - apply Qinv_lt_0_compat. reflexivity.
Qed.

Lemma total_mb_nonneg (l : list (BufferInfo xreal)) :
  positive_sizes l -> (0 <= total_mb l)%Q.
Proof.
  induction 1 as [ | x l Hx _ IH ]; simpl; [ apply Qle_refl | ].
  apply size_mb_Q_pos in Hx. apply Qlt_le_weak in Hx.
  apply (Qle_trans _ (0 + 0)%Q); [ now compute | now apply Qplus_le_compat ].
Qed.

Lemma total_mb_pos (l : list (BufferInfo xreal)) :
  l <> [] -> positive_sizes l -> (0 < total_mb l)%Q.
Proof.
  intros Hne Hl. destruct Hl as [ | x l Hx Hl ]; [ contradiction | ]. simpl.
  apply size_mb_Q_pos in Hx. apply total_mb_nonneg in Hl.
  apply (Qle_lt_trans _ (0 + 0)%Q); [ now compute | now apply Qplus_lt_le_compat ].
Qed.

Lemma positive_bandwidths_usable (l : list (BufferInfo xreal)) :
  positive_bandwidths l -> Forall usable l.
Proof.
  apply List.Forall_impl. intros x (q & Hq & Hpos). exists q. split; [ exact Hq | ].
  intros E. rewrite E in Hpos. now apply Qlt_irrefl in Hpos.
Qed.

Lemma Qminus_zero_eq (x y : Q) : (x - y == 0)%Q -> (x == y)%Q.
Proof.
  intros E. setoid_replace x with ((x - y) + y)%Q using relation Qeq by ring.
  rewrite E. ring.
Qed.

Lemma range_nonzero (t a b : Q) :
  (0 < t)%Q -> ~ (a == b)%Q -> ~ (t * b - t * a == 0)%Q.
Proof.
  intros Ht Hab E. apply Hab.
  assert (E' : (t * (b - a) == 0)%Q) by (rewrite <- E; ring).
  apply Qmult_integral in E' as [E' | E'].
  - rewrite E' in Ht. now apply Qlt_irrefl in Ht.
  - symmetry. now apply Qminus_zero_eq.
Qed.




(** X2.  With numbers for the pool's two bandwidths, not equal, buffers of
    positive size and bandwidths that are nonzero numbers, the score of a
    non-empty buffer list is a number: neither NaN nor an infinity. *)
Theorem ComputeBlobAccessScore_finite (a b : Q) (l : list (BufferInfo xreal)) :
  l <> [] -> positive_sizes l -> Forall usable l -> ~ (a == b)%Q ->
  is_finite (ComputeBlobAccessScore (mkBufferPool (Fin a) (Fin b)) l) = true.
Proof.
  intros Hne Hsz Hus Hab.
  pose proof (total_mb_pos l Hne Hsz) as HT.
  destruct (ComputeBlobAccessScore_closed_form a b l Hus (range_nonzero _ a b HT Hab))
    as (q & -> & _).
  reflexivity.
Qed.

Lemma ComputeBlobAccessScore_finite_witness :
  is_finite (ComputeBlobAccessScore pool_100_1000
               [mkBufferInfo 1 (Fin 1000) 4096; mkBufferInfo 2 (Fin 100) 8192]) = true.
Proof.
  apply (ComputeBlobAccessScore_finite 100 1000).
  - discriminate.
  - repeat constructor.
  - repeat constructor; eexists; (split; [ reflexivity | discriminate ]).
  - discriminate.
Defined.

(** ** The prediction of a move *)

Lemma substitute_bandwidth_total_mb (l : list (BufferInfo xreal)) (src : BufferID)
    (w : xreal) :
  total_mb (substitute_bandwidth l src w) = total_mb l.
Proof.
  induction l as [ | x l IH ]; simpl; [ reflexivity | ]. rewrite IH. f_equal.
  now destruct (bi_id x =? src).
Qed.

Lemma substitute_bandwidth_positive (l : list (BufferInfo xreal)) (src : BufferID)
    (w : Q) :
  (0 < w)%Q -> l <> [] -> positive_sizes l -> positive_bandwidths l ->
  substitute_bandwidth l src (Fin w) <> []
  /\ positive_sizes (substitute_bandwidth l src (Fin w))
  /\ positive_bandwidths (substitute_bandwidth l src (Fin w)).
Proof.
  intros Hw Hne Hsz Hbw. split; [ | split ].
  - destruct l; [ contradiction | discriminate ].
  - clear Hne Hbw. induction Hsz as [ | x l Hx _ IH ]; simpl; constructor;
      [ now destruct (bi_id x =? src) | exact IH ].
  - clear Hne Hsz. induction Hbw as [ | x l Hx _ IH ]; simpl; constructor;
      [ | exact IH ].
    destruct (bi_id x =? src); [ now exists w | exact Hx ].
Qed.

Lemma Qinv_le_of_le (w w' : Q) : (0 < w)%Q -> (w <= w')%Q -> (1 / w' <= 1 / w)%Q.
Proof.
  intros Hw Hle. assert (Hw' : (0 < w')%Q) by (eapply Qlt_le_trans; eassumption).
  apply Qle_shift_div_r; [ exact Hw' | ].
  setoid_replace (1 / w * w')%Q with (w' / w)%Q using relation Qeq
    by (field; intros E; rewrite E in Hw; now apply Qlt_irrefl in Hw).
  apply Qle_shift_div_l; [ exact Hw | ]. now rewrite Qmult_1_l.
Qed.

(** Putting buffers on a device at least as fast takes seconds off, on a
    device at most as fast adds seconds. *)
Lemma substitute_bandwidth_raw_seconds (l : list (BufferInfo xreal))
    (src : BufferID) (w : Q) :
  (0 < w)%Q -> positive_sizes l -> positive_bandwidths l ->
  (Forall (fun x => bi_id x = src -> (bw_Q x <= w)%Q) l ->
   (raw_seconds (substitute_bandwidth l src (Fin w)) <= raw_seconds l)%Q)
  /\ (Forall (fun x => bi_id x = src -> (w <= bw_Q x)%Q) l ->
      (raw_seconds l <= raw_seconds (substitute_bandwidth l src (Fin w)))%Q).
Proof.
  intros Hw Hsz Hbw. revert Hbw.
  induction Hsz as [ | x l Hx _ IH ]; intros Hbw.
  - split; intros _; apply Qle_refl.
  - inversion_clear Hbw as [ | ? ? (q & Hq & Hqpos) Hbw' ].
    destruct (IH Hbw') as [IHup IHdown]. clear IH.
    apply size_mb_Q_pos in Hx. apply Qlt_le_weak in Hx.
    assert (Hsame : size_mb_Q (mkBufferInfo src (Fin w) (bi_size x)) = size_mb_Q x)
      by reflexivity.
    assert (Hbwx : bw_Q x = q) by (unfold bw_Q; now rewrite Hq).
    split; intros Hall; inversion_clear Hall as [ | ? ? Hhd Htl ]; simpl;
      destruct (Z.eqb_spec (bi_id x) src) as [E | _]; simpl.
    + rewrite Hsame. apply Qplus_le_compat; [ | now apply IHup ].
      rewrite !(Qmult_comm (size_mb_Q x)). apply Qmult_le_compat_r; [ | exact Hx ].
      unfold bw_Q at 1. simpl. rewrite Hbwx in *. apply Qinv_le_of_le; auto.
    + apply Qplus_le_compat; [ apply Qle_refl | now apply IHup ].
    + rewrite Hsame. apply Qplus_le_compat; [ | now apply IHdown ].
      rewrite !(Qmult_comm (size_mb_Q x)). apply Qmult_le_compat_r; [ | exact Hx ].
      unfold bw_Q at 2. simpl. rewrite Hbwx in *. apply Qinv_le_of_le; auto.
    + apply Qplus_le_compat; [ apply Qle_refl | now apply IHdown ].
Qed.

(** X3.  The prediction of a move ([substitute_bandwidth] followed by
    [ComputeBlobAccessScore]) falls, or stays, when the buffer goes to a
    device at least as fast as the one it is on, and rises, or stays, when
    it goes to a device at most as fast: the access score grows with the
    seconds a read takes. *)
Theorem predicted_score_monotone (a b w : Q) (l : list (BufferInfo xreal))
    (src : BufferID) :
  l <> [] -> positive_sizes l -> positive_bandwidths l ->
  (0 < w)%Q -> (a < b)%Q ->
  let pool := mkBufferPool (Fin a) (Fin b) in
  let predicted :=
    ComputeBlobAccessScore pool (substitute_bandwidth l src (Fin w)) in
  (Forall (fun x => bi_id x = src -> (bw_Q x <= w)%Q) l ->
   xle predicted (ComputeBlobAccessScore pool l))
  /\ (Forall (fun x => bi_id x = src -> (w <= bw_Q x)%Q) l ->
      xle (ComputeBlobAccessScore pool l) predicted).
Proof.
  intros Hne Hsz Hbw Hw Hab pool predicted. subst pool predicted.
  destruct (substitute_bandwidth_positive l src w Hw Hne Hsz Hbw)
    as (Hne' & Hsz' & Hbw').
  pose proof (total_mb_pos l Hne Hsz) as HT.
  assert (Hne_ab : ~ (a == b)%Q) by now apply Qlt_not_eq.
  pose proof (range_nonzero _ a b HT Hne_ab) as Hrange.
  destruct (ComputeBlobAccessScore_closed_form a b l
              (positive_bandwidths_usable l Hbw) Hrange) as (q & -> & Hq).
  assert (Hrange' : ~ (total_mb (substitute_bandwidth l src (Fin w)) * b
                       - total_mb (substitute_bandwidth l src (Fin w)) * a == 0)%Q)
    by now rewrite substitute_bandwidth_total_mb.
  destruct (ComputeBlobAccessScore_closed_form a b _
              (positive_bandwidths_usable _ Hbw') Hrange') as (q' & -> & Hq').
  rewrite substitute_bandwidth_total_mb in Hq'.
  assert (HD : (0 < / (total_mb l * b - total_mb l * a))%Q).
  { apply Qinv_lt_0_compat.
    setoid_replace (total_mb l * b - total_mb l * a)%Q
      with (total_mb l * (b - a))%Q using relation Qeq by ring.
    apply Qmult_lt_0_compat; [ exact HT | ].
    unfold Qminus. now rewrite <- Qlt_minus_iff. }
  destruct (substitute_bandwidth_raw_seconds l src w Hw Hsz Hbw) as [Hup Hdown].
  simpl xle. rewrite Hq, Hq'. unfold Qdiv.
  split; intros Hall; apply Qmult_le_compat_r; try (now apply Qlt_le_weak);
    unfold Qminus; apply Qplus_le_compat; try apply Qle_refl; auto.
Qed.

Lemma predicted_score_monotone_witness :
  xle (ComputeBlobAccessScore pool_100_1000
         (substitute_bandwidth
            [mkBufferInfo 1 (Fin 100) 4096; mkBufferInfo 2 (Fin 100) 8192]
            1 (Fin 1000)))
      (ComputeBlobAccessScore pool_100_1000
         [mkBufferInfo 1 (Fin 100) 4096; mkBufferInfo 2 (Fin 100) 8192]).
Proof.
  refine (proj1 (predicted_score_monotone 100 1000 1000
                   [mkBufferInfo 1 (Fin 100) 4096; mkBufferInfo 2 (Fin 100) 8192] 1
                   _ _ _ _ _) _).
  - discriminate.
  - repeat constructor.
  - repeat constructor; eexists; (split; [ reflexivity | reflexivity ]).
  - reflexivity.
  - reflexivity.
  - repeat constructor; intros _; unfold bw_Q; simpl; discriminate.
Defined.

(** ** Equality and order of buffers *)

Lemma xeqb_sym (a b : xreal) : xeqb a b = xeqb b a.
Proof.
  destruct a as [p | | | ], b as [q | | | ]; simpl; try reflexivity.
  apply Qeq_bool_comm.
Qed.

Lemma xeqb_trans (a b c : xreal) :
  xeqb a b = true -> xeqb b c = true -> xeqb a c = true.
Proof.
  destruct a as [p | | | ], b as [q | | | ], c as [r | | | ]; simpl; try easy.
  rewrite !Qeq_bool_iff. intros E1 E2. now rewrite E1.
Qed.

Lemma xeqb_refl (a : xreal) : xeqb a a = negb (is_nan a).
Proof.
  destruct a as [p | | | ]; simpl; try reflexivity. now apply Qeq_bool_iff.
Qed.

Lemma xeqb_xle (a b : xreal) : xeqb a b = true -> xle a b.
Proof.
  destruct a as [p | | | ], b as [q | | | ]; simpl; try easy.
  intros E. apply Qeq_bool_iff in E. rewrite E. apply Qle_refl.
Qed.

Lemma xle_antisym (a b : xreal) : xle a b -> xle b a -> xeqb a b = true.
Proof.
  destruct a as [p | | | ], b as [q | | | ]; simpl; try easy.
  intros H1 H2. apply Qeq_bool_iff. now apply Qle_antisym.
Qed.

(** X4.  [operator==] on [BufferInfo] is symmetric and transitive, and a
    record equals itself exactly when its bandwidth is not NaN. *)
Theorem BufferInfo_eq_partial_equivalence :
  (forall x : BufferInfo xreal,
     BufferInfo_eq x x = negb (is_nan (bi_bandwidth_mbps x)))
  /\ (forall x y : BufferInfo xreal, BufferInfo_eq x y = BufferInfo_eq y x)
  /\ (forall x y z : BufferInfo xreal,
        BufferInfo_eq x y = true -> BufferInfo_eq y z = true ->
        BufferInfo_eq x z = true).
Proof.
  unfold BufferInfo_eq. cbn [feq xreal_ops]. split; [ | split ].
  - intros x. rewrite !Z.eqb_refl. simpl. apply xeqb_refl.
  - intros x y. now rewrite (Z.eqb_sym (bi_id x)), (Z.eqb_sym (bi_size x)), xeqb_sym.
  - intros x y z E1 E2.
    apply andb_prop in E1 as [E1 B1]. apply andb_prop in E1 as [I1 S1].
    apply andb_prop in E2 as [E2 B2]. apply andb_prop in E2 as [I2 S2].
    apply Z.eqb_eq in I1, S1, I2, S2.
    rewrite I1, I2, S1, S2, !Z.eqb_refl. simpl. now apply (xeqb_trans _ _ _ B1).
Qed.

Lemma buffer_info_comparator_asym (flip : bool) (a b : BufferInfo xreal) :
  buffer_info_comparator (if flip then fgt else flt) a b = true ->
  buffer_info_comparator (if flip then fgt else flt) b a = false.
Proof.
  unfold buffer_info_comparator. cbn [feq xreal_ops].
  rewrite (xeqb_sym (bi_bandwidth_mbps b)).
  destruct (xeqb (bi_bandwidth_mbps a) (bi_bandwidth_mbps b)).
  - intros E. apply Z.gtb_lt in E. rewrite Z.gtb_ltb. apply Z.ltb_ge. lia.
  - destruct flip; unfold fgt; cbn [flt xreal_ops]; apply xlt_asym.
Qed.

Lemma in_order_buffer_order (flip : bool) (a b : BufferInfo xreal) :
  is_nan (bi_bandwidth_mbps a) = false -> is_nan (bi_bandwidth_mbps b) = false ->
  in_order (buffer_info_comparator (if flip then fgt else flt)) a b ->
  buffer_order flip a b.
Proof.
  intros Ha Hb. unfold in_order, buffer_info_comparator, buffer_order.
  cbn [feq xreal_ops]. rewrite (xeqb_sym (bi_bandwidth_mbps b)).
  destruct (xeqb (bi_bandwidth_mbps a) (bi_bandwidth_mbps b)) eqn:E.
  - intros Hs. split.
    + destruct flip; apply xeqb_xle; [ now rewrite xeqb_sym | exact E ].
    + intros _. rewrite Z.gtb_ltb in Hs. apply Z.ltb_ge in Hs. lia.
  - intros Hlt. split; [ | discriminate ].
    destruct flip; unfold fgt in Hlt; cbn [flt xreal_ops] in Hlt;
      now apply xle_of_not_xlt.
Qed.

Lemma buffer_order_trans (flip : bool) (a b c : BufferInfo xreal) :
  buffer_order flip a b -> buffer_order flip b c -> buffer_order flip a c.
Proof.
  unfold buffer_order. intros [Hab Sab] [Hbc Sbc].
  assert (Hac : if flip then xle (bi_bandwidth_mbps c) (bi_bandwidth_mbps a)
                else xle (bi_bandwidth_mbps a) (bi_bandwidth_mbps c)).
  { destruct flip; eapply xle_trans; eassumption. }
  split; [ exact Hac | ].
  intros E. pose proof (xeqb_xle _ _ E) as Hle.
  rewrite xeqb_sym in E. pose proof (xeqb_xle _ _ E) as Hge.
  assert (Eab : xeqb (bi_bandwidth_mbps a) (bi_bandwidth_mbps b) = true).
  { destruct flip.
    - apply xle_antisym; [ exact (xle_trans _ _ _ Hle Hbc) | exact Hab ].
    - apply xle_antisym; [ exact Hab | exact (xle_trans _ _ _ Hbc Hge) ]. }
  assert (Ebc : xeqb (bi_bandwidth_mbps b) (bi_bandwidth_mbps c) = true).
  { destruct flip.
    - apply xle_antisym; [ exact (xle_trans _ _ _ Hab Hle) | exact Hbc ].
    - apply xle_antisym; [ exact Hbc | exact (xle_trans _ _ _ Hge Hab) ]. }
  specialize (Sab Eab). specialize (Sbc Ebc). lia.
Qed.

Lemma SortBufferInfo_eq (l : list (BufferInfo xreal)) (increasing : bool) :
  SortBufferInfo l increasing
  = std_sort (buffer_info_comparator (if increasing then fgt else flt)) l.
Proof. now destruct increasing. Qed.

(** X5.  [SortBufferInfo] permutes the buffer list; when [increasing] is
    true the result is ordered by bandwidth, largest first, and when false,
    smallest first; in both cases buffers of equal bandwidth come largest
    size first.  The bandwidths are not NaN. *)
Theorem SortBufferInfo_order (l : list (BufferInfo xreal)) (increasing : bool) :
  no_nan_buffers l ->
  Permutation l (SortBufferInfo l increasing)
  /\ StronglySorted (buffer_order increasing) (SortBufferInfo l increasing).
Proof.
  intros Hl. rewrite SortBufferInfo_eq.
  pose proof (std_sort_Permutation
                (buffer_info_comparator (if increasing then fgt else flt)) l) as Hp.
  split; [ exact Hp | ].
  apply Sorted_StronglySorted.
  { intros a b c. apply buffer_order_trans. }
  apply (Sorted_Forall_impl (fun x => is_nan (bi_bandwidth_mbps x) = false)
           (in_order (buffer_info_comparator (if increasing then fgt else flt)))).
  - intros a b. apply in_order_buffer_order.
  - eapply Permutation_Forall; [ exact Hp | exact Hl ].
  - apply std_sort_Sorted. apply buffer_info_comparator_asym.
Qed.

Lemma SortBufferInfo_order_witness :
  map bi_id (SortBufferInfo three_buffers true) = [2; 3; 1]
  /\ map bi_id (SortBufferInfo three_buffers false) = [3; 1; 2]
  /\ StronglySorted (buffer_order true) (SortBufferInfo three_buffers true).
Proof.
  split; [ reflexivity | split; [ reflexivity | ] ].
  apply (SortBufferInfo_order three_buffers true). repeat constructor.
Defined.

(** ** More on the organizer loop *)

Section OrganizerMore.
Context {F : Type} `{F32Ops F}.
Variable SharedMemoryContext : Type.
Variable GetBufferPoolFromContext : SharedMemoryContext -> BufferPool F.
Variable LocalGet : SharedMemoryContext -> string -> BlobID.
Variable LocalGetBlobImportanceScore : SharedMemoryContext -> BlobID -> F.
Variable LocalGetBufferIdList : SharedMemoryContext -> BlobID -> list BufferID.
Variable GetBufferInfo : SharedMemoryContext -> BufferID -> BufferInfo F.
Variable LocalGetNodeTargets : SharedMemoryContext -> list TargetID.
Variable GetBandwidths : SharedMemoryContext -> list TargetID -> list F.
Variable GetRemainingTargetCapacities :
  SharedMemoryContext -> list TargetID -> list Z.
Variable GetBuffers :
  SharedMemoryContext -> PlacementSchema -> list BufferID * SharedMemoryContext.
Variable MakeInternalBlobName : string -> BucketID -> string.
Variable HashString : string -> Z.
Variable node_id : Z.

Local Abbreviation organize_buffer' :=
  (organize_buffer SharedMemoryContext GetBufferPoolFromContext
     LocalGetNodeTargets GetBandwidths GetRemainingTargetCapacities GetBuffers).
Local Abbreviation organize_loop' :=
  (organize_loop SharedMemoryContext GetBufferPoolFromContext
     LocalGetNodeTargets GetBandwidths GetRemainingTargetCapacities GetBuffers).
Local Abbreviation LocalOrganizeBlob' :=
  (LocalOrganizeBlob SharedMemoryContext GetBufferPoolFromContext LocalGet
     LocalGetBlobImportanceScore LocalGetBufferIdList GetBufferInfo
     LocalGetNodeTargets GetBandwidths GetRemainingTargetCapacities GetBuffers).
Local Abbreviation OrganizeBlob' :=
  (OrganizeBlob SharedMemoryContext GetBufferPoolFromContext LocalGet
     LocalGetBlobImportanceScore LocalGetBufferIdList GetBufferInfo
     LocalGetNodeTargets GetBandwidths GetRemainingTargetCapacities GetBuffers
     MakeInternalBlobName HashString node_id).

Lemma organize_loop_shape (blob_id : BlobID) (importance_score epsilon : F)
    (increasing : bool) (buffer_info todo : list (BufferInfo F)) :
  forall context,
    let its := snd (organize_loop' context blob_id importance_score epsilon
                                   increasing buffer_info todo) in
    (length its <= length todo)%nat
    /\ (forall pre last, its = pre ++ [last] ->
                         Forall (fun it => stops it = false) pre)
    /\ (Forall (fun it => stops it = false) its -> length its = length todo).
Proof.
  induction todo as [ | b todo IH ]; intros context; simpl.
  - split; [ lia | split; [ | reflexivity ] ].
    intros [ | x pre ] last E; [ constructor | now destruct pre ].
  - destruct (organize_buffer' context blob_id importance_score epsilon
                increasing buffer_info b) as [context' it].
    specialize (IH context').
    destruct (organize_loop' context' blob_id importance_score epsilon
                increasing buffer_info todo) as [context'' its].
    simpl in IH. destruct IH as (IHlen & IHstop & IHall).
    assert (Hcont : stops it = false ->
              (length (it :: its) <= S (length todo))%nat
              /\ (forall pre last, it :: its = pre ++ [last] ->
                                   Forall (fun it => stops it = false) pre)
              /\ (Forall (fun it => stops it = false) (it :: its) ->
                  length (it :: its) = S (length todo))).
    { intros Hit. split; [ simpl; lia | split ].
      - intros [ | x pre ] last E; [ constructor | ].
        simpl in E. injection E as -> E. constructor; [ exact Hit | ].
        now apply (IHstop pre last).
      - intros Hall. inversion_clear Hall. simpl. f_equal. now apply IHall. }
    destruct it as [ | enq new [ | ] ]; simpl; try (apply Hcont; reflexivity).
    split; [ lia | split ].
    + intros [ | x [ | y pre ] ] last E; try discriminate; constructor.
    + intros Hall. inversion_clear Hall. discriminate.
Qed.

(** X6.  [LocalOrganizeBlob] visits each buffer of the blob at most once and
    enqueues at most one Move per buffer it visits: the number of iterations
    is at most the number of buffers, and the queue grows by at most the
    number of iterations. *)
Theorem LocalOrganizeBlob_bounded (context : SharedMemoryContext)
    (queue : list MoveTask) (internal_blob_name : string)
    (epsilon explicit_importance_score : F) :
  let run := LocalOrganizeBlob' context queue internal_blob_name epsilon
                                explicit_importance_score in
  let buffers :=
    LocalGetBufferIdList context (LocalGet context internal_blob_name) in
  (length (or_iterations _ run) <= length buffers)%nat
  /\ (length (or_queue _ run) <= length queue + length (or_iterations _ run))%nat
  /\ (buffers = [] -> or_queue _ run = queue /\ or_context _ run = context).
Proof.
  unfold LocalOrganizeBlob.
  set (blob_id := LocalGet context internal_blob_name).
  set (importance := if feq explicit_importance_score (f_of_Z (-1)) then _ else _).
  set (increasing := fgt importance _).
  set (infos := map (GetBufferInfo context) (LocalGetBufferIdList context blob_id)).
  assert (Hlen : length (SortBufferInfo infos increasing)
                 = length (LocalGetBufferIdList context blob_id)).
  { unfold SortBufferInfo.
    destruct increasing; rewrite <- (Permutation_length (std_sort_Permutation _ infos));
      apply length_map. }
  pose proof (organize_loop_shape blob_id importance epsilon increasing
                (SortBufferInfo infos increasing) (SortBufferInfo infos increasing)
                context) as (Hle & _ & _).
  split; [ | split ].
  - destruct (organize_loop' context blob_id importance epsilon increasing _ _)
      as [context' its]. simpl in *. lia.
  - destruct (organize_loop' context blob_id importance epsilon increasing _ _)
      as [context' its]. simpl.
    rewrite enqueue_all_enqueued_moves, length_app, length_map.
    clear. induction its as [ | [ | [t | ] new stop ] its IH ]; simpl; lia.
  - intros Hnil. subst infos. rewrite Hnil. simpl.
    assert (E : SortBufferInfo (F := F) [] increasing = []) by now destruct increasing.
    rewrite E. simpl. now split.
Qed.


Lemma organize_buffer_task (context context' : SharedMemoryContext)
    (blob_id : BlobID) (importance_score epsilon : F) (increasing : bool)
    (buffer_info : list (BufferInfo F)) (b : BufferInfo F) (t : MoveTask)
    (new : F) (stop : bool) :
  (forall ctx, fst (GetBuffers ctx []) = []) ->
  organize_buffer' context blob_id importance_score epsilon increasing
                   buffer_info b = (context', Examined (Some t) new stop) ->
  mt_src t = bi_id b /\ mt_blob_id t = blob_id /\ mt_dest t <> []
  /\ mt_high_priority t = false.
Proof.
  intros Hnil. unfold organize_buffer.
  match goal with
  | |- context [choose_target ?tis b] =>
      destruct (choose_target_cases tis b) as [(u & Hu) | Hnone]
  end.
  - rewrite (choose_target_first_fit _ _ _ Hu).
    destruct (GetBuffers context [(bi_size b, ti_id u)]) as [[ | d dest] ctx'];
      [ discriminate | ].
    destruct (move_is_valid _ _ _ _); [ | discriminate ].
    intros E. injection E as _ <- _ _. now repeat split.
  - rewrite (choose_target_none _ _ Hnone).
    specialize (Hnil context).
    destruct (GetBuffers context []) as [dest ctx']. simpl in Hnil. subst dest.
    discriminate.
Qed.

Lemma organize_loop_tasks (blob_id : BlobID) (importance_score epsilon : F)
    (increasing : bool) (buffer_info todo : list (BufferInfo F)) :
  (forall ctx, fst (GetBuffers ctx []) = []) ->
  forall context,
    Forall (fun '(t, _) =>
              In (mt_src t) (map bi_id todo) /\ mt_blob_id t = blob_id
              /\ mt_dest t <> [] /\ mt_high_priority t = false)
           (enqueued_moves
              (snd (organize_loop' context blob_id importance_score epsilon
                                   increasing buffer_info todo))).
Proof.
  intros Hnil. induction todo as [ | b todo IH ]; intros context; simpl.
  - constructor.
  - destruct (organize_buffer' context blob_id importance_score epsilon
                increasing buffer_info b) as [context' it] eqn:E.
    specialize (IH context').
    destruct (organize_loop' context' blob_id importance_score epsilon
                increasing buffer_info todo) as [context'' its].
    simpl in IH.
    assert (IH' : Forall (fun '(t, _) =>
                     (bi_id b = mt_src t \/ In (mt_src t) (map bi_id todo))
                     /\ mt_blob_id t = blob_id /\ mt_dest t <> []
                     /\ mt_high_priority t = false) (enqueued_moves its)).
    { revert IH. apply List.Forall_impl. intros [t n] (H1 & H2); auto. }
    destruct it as [ | [t | ] new stop ].
    + exact IH'.
    + apply (organize_buffer_task _ _ _ _ _ _ _ _ _ _ _ Hnil) in E
        as (Hsrc & Hrest).
      destruct stop; simpl; constructor; auto; constructor.
    + destruct stop; simpl; [ constructor | exact IH' ].
Qed.

(** X8.  Every Move that [LocalOrganizeBlob] enqueues is appended behind the
    tasks already queued, moves one of the blob's own buffers, names the
    blob, has at least one destination buffer and is low priority.  The
    buffer pool gives no buffer for an empty schema. *)
Theorem LocalOrganizeBlob_enqueues_moves_of_the_blob
    (context : SharedMemoryContext) (queue : list MoveTask)
    (internal_blob_name : string) (epsilon explicit_importance_score : F) :
  (forall ctx, fst (GetBuffers ctx []) = []) ->
  let run := LocalOrganizeBlob' context queue internal_blob_name epsilon
                                explicit_importance_score in
  let blob_id := LocalGet context internal_blob_name in
  exists new_tasks,
    or_queue _ run = queue ++ new_tasks
    /\ Forall (fun t =>
                 In (mt_src t)
                    (map (fun id => bi_id (GetBufferInfo context id))
                         (LocalGetBufferIdList context blob_id))
                 /\ mt_blob_id t = blob_id /\ mt_dest t <> []
                 /\ mt_high_priority t = false) new_tasks.
Proof.
  intros Hnil. unfold LocalOrganizeBlob.
  set (blob_id := LocalGet context internal_blob_name).
  set (importance := if feq explicit_importance_score (f_of_Z (-1)) then _ else _).
  set (increasing := fgt importance _).
  set (infos := map (GetBufferInfo context) (LocalGetBufferIdList context blob_id)).
  pose proof (organize_loop_tasks blob_id importance epsilon increasing
                (SortBufferInfo infos increasing) (SortBufferInfo infos increasing)
                Hnil context) as Htasks.
  destruct (organize_loop' context blob_id importance epsilon increasing _ _)
    as [context' its].
  simpl in *. rewrite enqueue_all_enqueued_moves. eexists. split; [ reflexivity | ].
  apply List.Forall_map. revert Htasks. apply List.Forall_impl.
  intros [t n] (Hsrc & Hblob & Hdest & Hprio). simpl. repeat split; auto.
  assert (Hperm : Permutation infos (SortBufferInfo infos increasing)).
  { unfold SortBufferInfo. destruct increasing; apply std_sort_Permutation. }
  apply (Permutation_in _ (Permutation_map bi_id (Permutation_sym Hperm))) in Hsrc.
  subst infos. now rewrite List.map_map in Hsrc.
Qed.

(** X9.  The buffer list that a prediction is computed from differs from
    the blob's only in bandwidths: it has the same ids and the same sizes,
    in the same order, and a buffer whose id is not the moved one is kept
    as it is. *)
Theorem substitute_bandwidth_keeps_ids_and_sizes (l : list (BufferInfo F))
    (src : BufferID) (w : F) :
  map bi_id (substitute_bandwidth l src w) = map bi_id l
  /\ map bi_size (substitute_bandwidth l src w) = map bi_size l
  /\ Forall2 (fun x y => bi_id x <> src -> y = x) l (substitute_bandwidth l src w).
Proof.
  unfold substitute_bandwidth. induction l as [ | x l (IH1 & IH2 & IH3) ]; simpl.
  - repeat split; constructor.
  - destruct (Z.eqb_spec (bi_id x) src) as [E | Hne]; simpl;
      rewrite IH1, IH2; repeat split; try (now rewrite E);
      constructor; auto; intros; congruence.
Qed.

(** X10.  [OrganizeBlob] organizes the blob on this node exactly when the
    node owns the blob's internal name; otherwise it sends the internal name
    and epsilon to the owner, and the importance score it was given plays no
    part.  On this node the given importance score drives the run unless it
    is the sentinel -1, which stands for the stored score. *)
Theorem OrganizeBlob_routing (context : SharedMemoryContext)
    (queue : list MoveTask) (bucket_id : BucketID) (blob_name : string)
    (epsilon importance_score : F) :
  let internal_name := MakeInternalBlobName blob_name bucket_id in
  (HashString internal_name <> node_id ->
   forall other_score,
     OrganizeBlob' context queue bucket_id blob_name epsilon importance_score
     = OrganizeBlob' context queue bucket_id blob_name epsilon other_score
     /\ OrganizeBlob' context queue bucket_id blob_name epsilon importance_score
        = ForwardedTo (HashString internal_name) "RemoteOrganizeBlob"
                      internal_name epsilon)
  /\ (HashString internal_name = node_id ->
      exists run,
        OrganizeBlob' context queue bucket_id blob_name epsilon importance_score
        = OrganizedLocally run
        /\ or_importance_score _ run
           = if feq importance_score (f_of_Z (-1))
             then LocalGetBlobImportanceScore context
                    (LocalGet context internal_name)
             else importance_score).
Proof.
  intros internal_name. unfold OrganizeBlob. fold internal_name. split.
  - intros Hne other. apply Z.eqb_neq in Hne. rewrite Hne. now split.
  - intros E. apply Z.eqb_eq in E. rewrite E. eexists. split; [ reflexivity | ].
    unfold LocalOrganizeBlob.
    destruct (organize_loop _ _ _ _ _ _ _ _ _ _ _ _ _) as [context' its].
    reflexivity.
Qed.
End OrganizerMore.

Lemma LocalOrganizeBlob_enqueues_moves_of_the_blob_witness :
  or_queue _ (SampleBlob.LocalOrganizeBlob tt [] "blob" (Fin (1 # 100)) (Fin (-1)))
  = [mkMoveTask 11 [2000] 5 false; mkMoveTask 12 [1000] 5 false]
  /\ exists new_tasks,
       or_queue _ (SampleBlob.LocalOrganizeBlob tt [] "blob" (Fin (1 # 100))
                     (Fin (-1)))
       = [] ++ new_tasks
       /\ Forall (fun t => mt_blob_id t = 5 /\ mt_high_priority t = false) new_tasks.
Proof.
  split; [ vm_compute; reflexivity | ].
  destruct (LocalOrganizeBlob_enqueues_moves_of_the_blob unit
              Sample.GetBufferPoolFromContext SampleBlob.LocalGet
              SampleBlob.LocalGetBlobImportanceScore SampleBlob.LocalGetBufferIdList
              SampleBlob.GetBufferInfo Sample.LocalGetNodeTargets Sample.GetBandwidths
              Sample.GetRemainingTargetCapacities Sample.GetBuffers
              tt [] "blob"%string (Fin (1 # 100)) (Fin (-1)) (fun _ => eq_refl))
    as (new_tasks & E & Hall).
  exists new_tasks. split; [ exact E | ].
  revert Hall. apply List.Forall_impl. intros t (_ & Hb & _ & Hp). now split.
Defined.

Lemma OrganizeBlob_routing_witness :
  OrganizeBlob unit Sample.GetBufferPoolFromContext SampleBlob.LocalGet
    SampleBlob.LocalGetBlobImportanceScore SampleBlob.LocalGetBufferIdList
    SampleBlob.GetBufferInfo Sample.LocalGetNodeTargets Sample.GetBandwidths
    Sample.GetRemainingTargetCapacities Sample.GetBuffers
    SampleBlob.MakeInternalBlobName SampleBlob.HashString 0
    tt [] 7 "blob" (Fin (1 # 100)) (Fin (9 # 10))
  = ForwardedTo 1 "RemoteOrganizeBlob" "blob" (Fin (1 # 100)).
Proof.
  refine (proj2 (proj1 (OrganizeBlob_routing unit Sample.GetBufferPoolFromContext
            SampleBlob.LocalGet SampleBlob.LocalGetBlobImportanceScore
            SampleBlob.LocalGetBufferIdList SampleBlob.GetBufferInfo
            Sample.LocalGetNodeTargets Sample.GetBandwidths
            Sample.GetRemainingTargetCapacities Sample.GetBuffers
            SampleBlob.MakeInternalBlobName SampleBlob.HashString 0
            tt [] 7 "blob"%string (Fin (1 # 100)) (Fin (9 # 10))) _ (Fin 0))).
  discriminate.
Defined.

(** ** More on the move executor *)

Module MoverMore.
Import Mover MoverSpec MoverFacts.

Lemma unlock_locked (context : SharedMemoryContext) (blob_id : BlobID) :
  blob_id ∉ locked_blobs context ->
  LocalUnlockBlob (locked context blob_id) blob_id = context.
Proof.
  intros Hfree. destruct context as [hs ds ls].
  unfold LocalUnlockBlob, locked. cbn [headers buffer_data locked_blobs] in *.
  f_equal. apply set_eq. intros x.
  rewrite elem_of_difference, elem_of_union, !elem_of_singleton.
  split; [ tauto | ]. intros Hx. split; [ now right | ]. congruence.
Qed.

(** X11.  On every path on which [BoMove] returns, the lock it took is
    released and the context is as it was found; when the assertion fails
    the blob is left locked. *)
Theorem BoMove_lock_balance (context : SharedMemoryContext) (src : BufferID)
    (destinations : list BufferID) (blob_id : BlobID) :
  (forall context',
     res_outcome (BoMove context src destinations blob_id) = Returned context' ->
     context' = context)
  /\ (forall context',
        res_outcome (BoMove context src destinations blob_id)
        = AssertionFailed context' ->
        blob_id ∈ locked_blobs context'
        /\ blob_id ∉ locked_blobs context).
Proof.
  unfold BoMove, LocalLockBlob.
  destruct (decide (blob_id ∈ locked_blobs context)) as [Hin | Hfree].
  - split; intros context' E; simpl in E; [ now injection E | discriminate ].
  - fold (locked context blob_id).
    destruct (GetHeaderByBufferId (locked context blob_id) src) as [h | ].
    + destruct (move_loop _ _ destinations 0 (i64 (used h))) as [evs [o r]].
      destruct (r =? 0); split; intros context' E; simpl in E;
        try discriminate; injection E as <-.
      * now apply unlock_locked.
      * split; [ | exact Hfree ]. unfold locked. simpl.
        apply elem_of_union. left. now apply elem_of_singleton.
    + split; intros context' E; simpl in E; [ | discriminate ].
      injection E as <-. now apply unlock_locked.
Qed.

(** X12.  [BoMove] calls [LocalWriteBufferById] only with the blob lock held
    and the source header resolved: when the blob is already locked, or the
    source does not resolve, nothing is written and [BoMove] returns. *)
Theorem BoMove_writes_nothing_without_lock_or_source
    (context : SharedMemoryContext) (src : BufferID)
    (destinations : list BufferID) (blob_id : BlobID) :
  blob_id ∈ locked_blobs context \/ GetHeaderByBufferId context src = None ->
  writes_of (res_events (BoMove context src destinations blob_id)) = []
  /\ res_outcome (BoMove context src destinations blob_id) = Returned context
  /\ res_remaining_src_size (BoMove context src destinations blob_id) = None.
Proof.
  intros Hcase. unfold BoMove, LocalLockBlob.
  destruct (decide (blob_id ∈ locked_blobs context)) as [Hin | Hfree].
  - now repeat split.
  - destruct Hcase as [Hin | Hsrc]; [ contradiction | ].
    fold (locked context blob_id).
    change (GetHeaderByBufferId (locked context blob_id) src)
      with (GetHeaderByBufferId context src).
    rewrite Hsrc. simpl. repeat split. f_equal. now apply unlock_locked.
Qed.

Lemma BoMove_writes_nothing_witness :
  writes_of (res_events (BoMove sample_context 9 [2; 3] 7)) = []
  /\ res_outcome (BoMove sample_context 9 [2; 3] 7) = Returned sample_context.
Proof.
  destruct (BoMove_writes_nothing_without_lock_or_source sample_context 9 [2; 3] 7)
    as (Hw & Ho & _).
  - right. reflexivity.
  - split; [ exact Hw | exact Ho ].
Defined.

(** X13.  With the lock held and the source resolved, the bytes [BoMove]
    writes, in order, are the first [min(used, c)] bytes of the source,
    where [c] is the sum of the capacities of the destinations that resolve:
    it never writes more than the source holds, nor a byte out of place. *)
Theorem BoMove_writes_a_prefix (context : SharedMemoryContext) (src : BufferID)
    (destinations : list BufferID) (blob_id : BlobID) (src_header : BufferHeader) :
  blob_id ∉ locked_blobs context ->
  GetHeaderByBufferId context src = Some src_header ->
  well_formed_header src_header ->
  well_formed_headers context destinations ->
  let r := BoMove context src destinations blob_id in
  let blob := LocalReadBufferById context src (used src_header) in
  let c := sum_capacities context destinations in
  concat (map w_data (writes_of (res_events r)))
  = take (Z.to_nat (Z.min (used src_header) c)) blob
  /\ res_remaining_src_size r = Some (Z.max 0 (used src_header - c)).
Proof.
  intros Hlock Hsrc Hwf Hwfd r blob c. subst r.
  rewrite (BoMove_locked _ _ _ _ _ Hlock Hsrc Hwf).
  destruct Hwf as [_ Hused]. unfold is_u32 in Hused.
  assert (Hlen : Z.of_nat (length blob) = used src_header)
    by (apply length_LocalReadBufferById; lia).
  pose proof (move_loop_spec (locked context blob_id) blob ltac:(lia)
                destinations 0 (used src_header) Hwfd ltac:(lia) ltac:(lia)
                ltac:(lia)) as Hloop.
  fold blob.
  destruct (move_loop (locked context blob_id) blob destinations 0 (used src_header))
    as [evs [offset' remaining']].
  simpl in Hloop.
  destruct Hloop as (_ & Hcat & _ & Hoff & _ & _ & Hrem).
  change (sum_capacities (locked context blob_id) destinations) with c in Hrem.
  assert (Hev : forall x y : result,
            res_events (if remaining' =? 0 then x else y)
            = if remaining' =? 0 then res_events x else res_events y)
    by (intros; now destruct (remaining' =? 0)).
  split.
  - rewrite Hev. simpl. replace (if remaining' =? 0 then evs else evs) with evs
      by now destruct (remaining' =? 0).
    rewrite Hcat. simpl. f_equal. lia.
  - cbn [fst snd]. destruct (remaining' =? 0); simpl; now rewrite Hrem.
Qed.

Lemma BoMove_writes_a_prefix_witness :
  concat (map w_data (writes_of (res_events (BoMove sample_context 1 [2; 9] 7))))
  = take 3 six_bytes.
Proof.
  refine (eq_trans (proj1 (BoMove_writes_a_prefix sample_context 1 [2; 9] 7
                             (mkBufferHeader 8 6) _ _ _ _)) _).
  - apply not_elem_of_empty.
  - reflexivity.
  - unfold well_formed_header, is_u32; simpl; lia.
  - apply sample_context_well_formed.
  - vm_compute. reflexivity.
Defined.

(** X14.  With the lock held and the source resolved, the assertion of
    [BoMove] fails exactly when the capacities of the destinations that
    resolve add up to less than [used(src)]; [BoMove] then stops with the
    blob locked, and otherwise returns. *)
Theorem BoMove_assertion_fails_iff (context : SharedMemoryContext) (src : BufferID)
    (destinations : list BufferID) (blob_id : BlobID) (src_header : BufferHeader) :
  blob_id ∉ locked_blobs context ->
  GetHeaderByBufferId context src = Some src_header ->
  well_formed_header src_header ->
  well_formed_headers context destinations ->
  let r := BoMove context src destinations blob_id in
  (sum_capacities context destinations < used src_header ->
   res_outcome r = AssertionFailed (locked context blob_id))
  /\ (used src_header <= sum_capacities context destinations ->
      res_outcome r = Returned context).
Proof.
  intros Hlock Hsrc Hwf Hwfd r. subst r.
  rewrite (BoMove_locked _ _ _ _ _ Hlock Hsrc Hwf).
  destruct Hwf as [_ Hused]. unfold is_u32 in Hused.
  set (blob := LocalReadBufferById context src (used src_header)).
  assert (Hlen : Z.of_nat (length blob) = used src_header)
    by (apply length_LocalReadBufferById; lia).
  pose proof (move_loop_spec (locked context blob_id) blob ltac:(lia)
                destinations 0 (used src_header) Hwfd ltac:(lia) ltac:(lia)
                ltac:(lia)) as Hloop.
  destruct (move_loop (locked context blob_id) blob destinations 0 (used src_header))
    as [evs [offset' remaining']].
  simpl in Hloop.
  destruct Hloop as (_ & _ & _ & _ & _ & _ & Hrem).
  change (sum_capacities (locked context blob_id) destinations)
    with (sum_capacities context destinations) in Hrem.
  simpl. split; intros Hc.
  - destruct (Z.eqb_spec remaining' 0) as [E | _]; [ lia | reflexivity ].
  - destruct (Z.eqb_spec remaining' 0) as [_ | Hne]; [ | lia ].
    simpl. f_equal. now apply unlock_locked.
Qed.

Lemma BoMove_assertion_fails_iff_witness :
  res_outcome (BoMove sample_context 1 [2] 7)
  = AssertionFailed (locked sample_context 7)
  /\ res_outcome (BoMove sample_context 1 [2; 3] 7) = Returned sample_context.
Proof.
  split.
  - refine (proj1 (BoMove_assertion_fails_iff sample_context 1 [2] 7
                     (mkBufferHeader 8 6) _ _ _ _) _).
    + apply not_elem_of_empty.
    + reflexivity.
    + unfold well_formed_header, is_u32; simpl; lia.
    + apply sample_context_well_formed.
    + vm_compute. reflexivity.
  - refine (proj2 (BoMove_assertion_fails_iff sample_context 1 [2; 3] 7
                     (mkBufferHeader 8 6) _ _ _ _) _).
    + apply not_elem_of_empty.
    + reflexivity.
    + unfold well_formed_header, is_u32; simpl; lia.
    + apply sample_context_well_formed.
    + vm_compute. discriminate.
Defined.
End MoverMore.

(** ** More on flushing *)

Module FlushMore.
Import Flush FlushSpec FlushFacts.

Lemma LocalAdjustFlushCount_lookups (mdm : MetadataManager) (vbkt_name : string)
    (adjustment : Z) :
  let mdm' := LocalAdjustFlushCount mdm vbkt_name adjustment in
  let target := LocalGetVBucketId mdm vbkt_name in
  vbucket_ids mdm' = vbucket_ids mdm
  /\ (forall id, id <> target -> vbucket_info mdm' !! id = vbucket_info mdm !! id)
  /\ vbucket_info mdm' !! target
     = (fun info => mkVBucketInfo (i32 (async_flush_count info + adjustment)))
         <$> vbucket_info mdm !! target.
Proof.
  destruct mdm as [ids infos]. cbv zeta.
  rewrite LocalAdjustFlushCount_eq. unfold LocalGetVBucketId.
  cbn [vbucket_ids vbucket_info].
  generalize (default 0 (ids !! vbkt_name)). intros target.
  destruct (infos !! target) as [info | ] eqn:E; cbn [vbucket_ids vbucket_info].
  - split; [ reflexivity | split ].
    + intros id Hne. now rewrite lookup_insert_ne by congruence.
    + rewrite lookup_insert_eq. symmetry.
      exact (f_equal (fmap (fun i => mkVBucketInfo
                                       (i32 (async_flush_count i + adjustment)))) E).
  - split; [ reflexivity | split; [ reflexivity | ] ].
    exact (eq_trans E
             (eq_sym (f_equal (fmap (fun i => mkVBucketInfo
                                       (i32 (async_flush_count i + adjustment)))) E))).
Qed.

(** X15.  [LocalAdjustFlushCount] changes one counter at most: the ids are
    kept, every VBucket other than the one the name resolves to is kept,
    and that one, when it exists, has the adjustment added to its counter,
    with the wrap-around of an [int]; when the name resolves to no VBucket
    nothing changes. *)
Theorem LocalAdjustFlushCount_frame (mdm : MetadataManager) (vbkt_name : string)
    (adjustment : Z) :
  let mdm' := LocalAdjustFlushCount mdm vbkt_name adjustment in
  let target := LocalGetVBucketId mdm vbkt_name in
  vbucket_ids mdm' = vbucket_ids mdm
  /\ (forall id, id <> target -> vbucket_info mdm' !! id = vbucket_info mdm !! id)
  /\ vbucket_info mdm' !! target
     = (fun info => mkVBucketInfo (i32 (async_flush_count info + adjustment)))
         <$> vbucket_info mdm !! target
  /\ (vbucket_info mdm !! target = None -> mdm' = mdm).
Proof.
  cbv zeta.
  destruct (LocalAdjustFlushCount_lookups mdm vbkt_name adjustment)
    as (Hids & Hother & Htarget).
  split; [ exact Hids | split; [ exact Hother | split; [ exact Htarget | ] ] ].
  intros Hnone. unfold LocalAdjustFlushCount, LocalGetVBucketInfoById.
  now rewrite Hnone.
Qed.

Section Routing.
Variable HashString : string -> Z.
Variable BlobIsInSwap : BlobID -> bool.
Variable node_id : Z.

Local Abbreviation FlushBlob' := (FlushBlob HashString node_id).
Local Abbreviation LocalEnqueueFlushingTask' :=
  (LocalEnqueueFlushingTask HashString BlobIsInSwap node_id).

(** X16.  A [FlushBlob] that returns has done exactly this: with the blob
    lock, one persist of the blob followed by one unlock; without it,
    neither; then, when asynchronous, one decrement.  A synchronous flush
    leaves every counter alone, and the queue is not touched. *)
Theorem FlushBlob_returned_trace (sys : syscalls) (st st' : state)
    (blob_id : BlobID) (filename : string) (offset : Z) (async : bool) :
  FlushBlob' sys st blob_id filename offset async = Returned st' ->
  trace st' = trace st ++ flush_events sys blob_id filename offset async
  /\ pool_queue st' = pool_queue st
  /\ (async = false -> nodes st' = nodes st).
Proof.
  unfold FlushBlob, flush_locked, check, and_then, flush_events.
  destruct st as [ns q tr].
  destruct (lock_acquired sys).
  - destruct (open_ok sys); [ | discriminate ].
    destruct (flock_ex_ok sys); [ | discriminate ].
    destruct (flock_un_ok sys); [ | discriminate ].
    destruct (close_ok sys); [ | discriminate ].
    destruct async; intros E; injection E as <-.
    + rewrite DecrementFlushCount_routed. unfold log. cbn [nodes pool_queue trace].
      rewrite <- !app_assoc. repeat split. discriminate.
    + unfold log. cbn [nodes pool_queue trace]. rewrite <- !app_assoc.
      repeat split.
  - destruct async; intros E; injection E as <-.
    + rewrite DecrementFlushCount_routed. cbn [nodes pool_queue trace].
      repeat split. discriminate.
    + cbn [nodes pool_queue trace]. rewrite app_nil_r. repeat split.
Qed.

(** X17.  When a library call fails inside [FlushBlob], the flush stops
    there: the blob is not unlocked and, for an asynchronous flush, the
    counter is not decremented, so it stays one above.  This happens exactly
    when the lock was acquired and [open], [flock] or [close] failed. *)
Theorem FlushBlob_fatal (sys : syscalls) (st : state) (blob_id : BlobID)
    (filename : string) (offset : Z) (async : bool) :
  ((exists func st', FlushBlob' sys st blob_id filename offset async = Fatal func st')
   <-> lock_acquired sys = true /\ a_call_fails sys)
  /\ (forall func st',
        FlushBlob' sys st blob_id filename offset async = Fatal func st' ->
        nodes st' = nodes st
        /\ exists evs, trace st' = trace st ++ evs
                       /\ ~ In (BlobUnlocked blob_id) evs
                       /\ ~ In (CallDecrementFlushCount filename) evs).
Proof.
  clear BlobIsInSwap.
  unfold FlushBlob, flush_locked, check, and_then, a_call_fails.
  destruct st as [ns q tr]. split.
  - destruct (lock_acquired sys), (open_ok sys), (flock_ex_ok sys),
      (flock_un_ok sys), (close_ok sys), async; simpl;
      (split; [ intros (f & s & E); try discriminate; intuition congruence
              | intros [E1 E2]; try discriminate;
                try (exfalso; intuition congruence); eauto ]).
  - intros func st'.
    destruct (lock_acquired sys); [ | destruct async; discriminate ].
    destruct (open_ok sys).
    + destruct (flock_ex_ok sys).
      * destruct (flock_un_ok sys).
        -- destruct (close_ok sys); [ destruct async; discriminate | ].
           intros E. injection E as _ <-. unfold log. cbn [nodes trace].
           split; [ reflexivity | ]. eexists. split; [ reflexivity | ].
           simpl. intuition discriminate.
        -- intros E. injection E as _ <-. unfold log. cbn [nodes trace].
           split; [ reflexivity | ]. eexists. split; [ reflexivity | ].
           simpl. intuition discriminate.
      * intros E. injection E as _ <-. cbn [nodes trace].
        split; [ reflexivity | ]. exists []. rewrite app_nil_r. now repeat split.
    + intros E. injection E as _ <-. cbn [nodes trace].
      split; [ reflexivity | ]. exists []. rewrite app_nil_r. now repeat split.
Qed.

(** X18.  [LocalEnqueueFlushingTask] accepts a flush exactly when the blob is
    not in swap; a blob in swap is refused with nothing changed: no
    increment, nothing queued. *)
Theorem LocalEnqueueFlushingTask_swap (st : state) (blob_id : BlobID)
    (filename : string) (offset : Z) :
  fst (LocalEnqueueFlushingTask' st blob_id filename offset)
  = negb (BlobIsInSwap blob_id)
  /\ (BlobIsInSwap blob_id = true ->
      snd (LocalEnqueueFlushingTask' st blob_id filename offset) = st).
Proof.
  unfold LocalEnqueueFlushingTask.
  destruct (BlobIsInSwap blob_id); simpl; split; try reflexivity; discriminate.
Qed.
End Routing.

Lemma FlushBlob_returned_trace_witness :
  exists st',
    run_task FlushSample.HashString FlushSample.node_id FlushSample.all_succeed
             (dequeued (snd FlushSample.enqueued) []) FlushSample.task
    = Returned st'
    /\ trace st'
       = trace (snd FlushSample.enqueued)
         ++ [PersistBlob 42 "out.dat" 0; BlobUnlocked 42;
             CallDecrementFlushCount "out.dat"].
Proof.
  eexists. split; [ reflexivity | ].
  exact (proj1 (FlushBlob_returned_trace FlushSample.HashString FlushSample.node_id
                  FlushSample.all_succeed _ _ 42 "out.dat"%string 0 true eq_refl)).
Defined.

Lemma FlushBlob_fatal_witness :
  exists st',
    FlushBlob FlushSample.HashString FlushSample.node_id close_fails
              (dequeued (snd FlushSample.enqueued) []) 42 "out.dat" 0 true
    = Fatal "close" st'
    /\ nodes st' = nodes (snd FlushSample.enqueued)
    /\ flush_count st' 0 "out.dat" = Some 1.
Proof.
  eexists. split; [ reflexivity | ]. split.
  - exact (proj1 (proj2 (FlushBlob_fatal FlushSample.HashString FlushSample.node_id
                           close_fails (dequeued (snd FlushSample.enqueued) [])
                           42 "out.dat"%string 0 true) _ _ eq_refl)).
  - vm_compute. reflexivity.
Defined.

Lemma LocalEnqueueFlushingTask_swap_witness :
  LocalEnqueueFlushingTask FlushSample.HashString (fun _ => true)
    FlushSample.node_id FlushSample.initial 42 "out.dat" 0
  = (false, FlushSample.initial).
Proof.
  destruct (LocalEnqueueFlushingTask_swap FlushSample.HashString (fun _ => true)
              FlushSample.node_id FlushSample.initial 42 "out.dat"%string 0)
    as [Hfst Hsnd].
  specialize (Hsnd eq_refl).
  destruct (LocalEnqueueFlushingTask _ _ _ _ _ _ _) as [accepted st].
  simpl in *. now subst.
Defined.

Section Outstanding.
Variable HashString : string -> Z.
Variable BlobIsInSwap : BlobID -> bool.
Variable node_id : Z.

Lemma with_outstanding_pointwise (queue : list FlushTask)
    (base : gmap Z MetadataManager) (n : Z) (mdm0 : MetadataManager) :
  nodes_in_range base -> base !! n = Some mdm0 ->
  exists mdm,
    with_outstanding HashString queue base !! n = Some mdm
    /\ vbucket_ids mdm = vbucket_ids mdm0
    /\ forall id,
         vbucket_info mdm !! id
         = (fun info0 =>
              mkVBucketInfo (i32 (async_flush_count info0
                                  + pending HashString mdm0 n id queue)))
             <$> vbucket_info mdm0 !! id.
Proof.
  intros Hrange Hn. induction queue as [ | t queue (mdm & Hm & Hids & Hinfo) ].
  - exists mdm0. split; [ exact Hn | split; [ reflexivity | ] ].
    intros id. simpl. destruct (vbucket_info mdm0 !! id) as [[c] | ] eqn:E;
      [ | reflexivity ].
    simpl. rewrite Z.add_0_r, i32_small; [ reflexivity | ].
    exact (Hrange _ _ _ _ Hn E).
  - cbn [with_outstanding foldr]. fold (with_outstanding HashString queue base).
    destruct (Z.eqb_spec (HashString (ft_filename t)) n) as [E | Hne].
    + rewrite E, lookup_alter_eq, Hm. simpl. eexists. split; [ reflexivity | ].
      unfold LocalIncrementFlushCount.
      destruct (LocalAdjustFlushCount_lookups mdm (ft_filename t) 1)
        as (Fids & Fother & Ftarget).
      split; [ now rewrite Fids | ].
      assert (Htarget : LocalGetVBucketId mdm (ft_filename t)
                        = LocalGetVBucketId mdm0 (ft_filename t))
        by (unfold LocalGetVBucketId; now rewrite Hids).
      intros id. cbn [pending]. rewrite E, Z.eqb_refl. cbn [andb].
      destruct (Z.eqb_spec (LocalGetVBucketId mdm0 (ft_filename t)) id) as [Eid | Hid].
      * rewrite <- Eid, <- Htarget, Ftarget, Htarget, Eid, Hinfo.
        destruct (vbucket_info mdm0 !! id) as [[c] | ]; [ | reflexivity ].
        simpl. rewrite i32_add_idemp. do 3 f_equal. lia.
      * rewrite Fother by congruence. rewrite Hinfo.
        destruct (vbucket_info mdm0 !! id) as [[c] | ]; [ | reflexivity ].
        simpl. do 3 f_equal.
    + rewrite lookup_alter_ne by exact Hne. exists mdm.
      split; [ exact Hm | split; [ exact Hids | ] ].
      intros id. cbn [pending]. apply Z.eqb_neq in Hne. rewrite Hne. cbn [andb].
      exact (Hinfo id).
Qed.

(** X19.  Whatever the order in which flush tasks are accepted and
    complete, starting from an empty queue, the counter of a VBucket is its
    value at the start plus the number of tasks in the queue that flush to
    it (an [int], with its wrap-around): the counter counts the outstanding
    flushes. *)
Theorem flush_count_counts_outstanding (st0 st : state) (n : Z)
    (mdm0 : MetadataManager) (id : VBucketID) (info0 : VBucketInfo) :
  counters_in_range st0 -> pool_queue st0 = [] ->
  reachable HashString BlobIsInSwap node_id st0 st ->
  nodes st0 !! n = Some mdm0 ->
  vbucket_info mdm0 !! id = Some info0 ->
  exists mdm info,
    nodes st !! n = Some mdm
    /\ vbucket_info mdm !! id = Some info
    /\ async_flush_count info
       = i32 (async_flush_count info0
              + pending HashString mdm0 n id (pool_queue st)).
Proof.
  intros Hrange Hq0 Hreach Hn Hid.
  destruct (reachable_outstanding HashString BlobIsInSwap node_id st0 st
              Hrange Hq0 Hreach) as [Hnodes _].
  destruct (with_outstanding_pointwise (pool_queue st) (nodes st0) n mdm0 Hrange Hn)
    as (mdm & Hm & _ & Hinfo).
  exists mdm. eexists. rewrite Hnodes. split; [ exact Hm | ].
  rewrite Hinfo, Hid. simpl. split; reflexivity.
Qed.
End Outstanding.

Lemma flush_count_counts_outstanding_witness :
  exists mdm info,
    nodes (snd FlushSample.enqueued) !! 0 = Some mdm
    /\ vbucket_info mdm !! 5 = Some info
    /\ async_flush_count info = 1.
Proof.
  assert (Hreach : reachable FlushSample.HashString FlushSample.BlobIsInSwap
                     FlushSample.node_id FlushSample.initial
                     (snd FlushSample.enqueued)).
  { apply (reachable_step _ _ _ _ FlushSample.initial); [ apply reachable_refl | ].
    exact (step_enqueue FlushSample.HashString FlushSample.BlobIsInSwap
             FlushSample.node_id FlushSample.initial 42 "out.dat" 0 eq_refl). }
  destruct (flush_count_counts_outstanding FlushSample.HashString
              FlushSample.BlobIsInSwap FlushSample.node_id FlushSample.initial
              (snd FlushSample.enqueued) 0
              (mkMdm {[ "out.dat"%string := 5 ]} {[ 5 := mkVBucketInfo 0 ]}) 5
              (mkVBucketInfo 0) sample_counters_in_range eq_refl Hreach
              eq_refl eq_refl)
    as (mdm & info & Hm & Hi & Hc).
  exists mdm, info. split; [ exact Hm | split; [ exact Hi | ] ].
  rewrite Hc. vm_compute. reflexivity.
Defined.
End FlushMore.

(** ** [LocalEnqueueBoTask] *)

Module BoTasksFacts.
Import Rpc BoTasks.

End BoTasksFacts.

(** ** [AwaitAsyncFlushingTasks] *)

Module AwaitFacts.
Import Await.

Lemma await_loop_returns (readings : nat -> Z) (k : nat) :
  forall (poll : nat) (counter : Z) (fuel : nat),
    0 <= counter < log_every ->
    (forall j, (j < k)%nat -> readings (poll + j)%nat <> 0) ->
    readings (poll + k)%nat = 0 ->
    (k < fuel)%nat ->
    exists evs,
      await_loop fuel readings poll counter = Some evs
      /\ sleeps evs = k
      /\ Z.of_nat (logs evs) = (counter + Z.of_nat k) / log_every.
Proof.
  unfold log_every.
  induction k as [ | k IH ]; intros poll counter fuel Hc Hnz Hz Hfuel;
    (destruct fuel as [ | fuel ]; [ lia | ]); cbn [await_loop].
  - rewrite Nat.add_0_r in Hz. rewrite Hz. simpl. exists [].
    split; [ reflexivity | split; [ reflexivity | ] ].
    simpl. rewrite Z.add_0_r, Z.div_small; [ reflexivity | exact Hc ].
  - assert (H0 : readings poll <> 0).
    { specialize (Hnz 0%nat). rewrite Nat.add_0_r in Hnz. apply Hnz. lia. }
    destruct (Z.eqb_spec (readings poll) 0) as [ | _ ]; [ contradiction | ].
    rewrite i32_small by (unfold is_i32; lia).
    assert (Hnz' : forall j, (j < k)%nat -> readings (S poll + j)%nat <> 0).
    { intros j Hj. replace (S poll + j)%nat with (poll + S j)%nat by lia.
      apply Hnz. lia. }
    assert (Hz' : readings (S poll + k)%nat = 0).
    { replace (S poll + k)%nat with (poll + S k)%nat by lia. exact Hz. }
    unfold log_every.
    destruct (Z.eqb_spec (counter + 1) 10) as [E | Hne].
    + destruct (IH (S poll) 0 fuel ltac:(lia) Hnz' Hz' ltac:(lia))
        as (evs & He & Hs & Hl).
      rewrite He. eexists. split; [ reflexivity | ].
      simpl. rewrite Hs. split; [ reflexivity | ].
      replace (counter + Z.of_nat (S k)) with (1 * 10 + (0 + Z.of_nat k)) by lia.
      rewrite Z.div_add_l by lia. lia.
    + destruct (IH (S poll) (counter + 1) fuel ltac:(lia) Hnz' Hz' ltac:(lia))
        as (evs & He & Hs & Hl).
      rewrite He. eexists. split; [ reflexivity | ].
      simpl. rewrite Hs. split; [ reflexivity | ].
      rewrite Hl. f_equal. lia.
Qed.

Lemma await_loop_returned (readings : nat -> Z) (fuel : nat) :
  forall (poll : nat) (counter : Z) (evs : list event),
    await_loop fuel readings poll counter = Some evs ->
    readings (poll + sleeps evs)%nat = 0
    /\ (forall j, (j < sleeps evs)%nat -> readings (poll + j)%nat <> 0)
    /\ (sleeps evs < fuel)%nat
    /\ Forall (fun e => e = SleepFor 500
                        \/ exists n, e = LogWaiting n /\ n <> 0) evs.
Proof.
  induction fuel as [ | fuel IH ]; intros poll counter evs H; [ discriminate H | ].
  cbn [await_loop] in H.
  destruct (Z.eqb_spec (readings poll) 0) as [E | Hne].
  - injection H as <-. simpl. rewrite Nat.add_0_r.
    split; [ exact E | split; [ intros j Hj; lia | split; [ lia | constructor ] ] ].
  - destruct (await_loop fuel readings (S poll) _) as [evs' | ] eqn:Hrest;
      [ | discriminate H ].
    injection H as <-.
    destruct (IH _ _ _ Hrest) as (Hz & Hnz & Hlt & Hall).
    assert (Hs : forall logged,
               logged = [LogWaiting (readings poll)] \/ logged = [] ->
               sleeps (logged ++ SleepFor sleep_time :: evs') = S (sleeps evs')).
    { intros logged [-> | ->]; reflexivity. }
    match goal with
    | |- context [ (?logged ++ SleepFor sleep_time :: evs') ] =>
        assert (Hl : logged = [LogWaiting (readings poll)] \/ logged = [])
          by (destruct (i32 (counter + 1) =? log_every); [ now left | now right ]);
        rewrite (Hs logged Hl)
    end.
    split; [ | split; [ | split ] ].
    + replace (poll + S (sleeps evs'))%nat with (S poll + sleeps evs')%nat by lia.
      exact Hz.
    + intros [ | j ] Hj.
      * now rewrite Nat.add_0_r.
      * replace (poll + S j)%nat with (S poll + j)%nat by lia. apply Hnz. lia.
    + lia.
    + apply Forall_app. split.
      * destruct (i32 (counter + 1) =? log_every); constructor; [ | constructor ].
        right. eexists. split; [ reflexivity | exact Hne ].
      * constructor; [ now left | exact Hall ].
Qed.

(** X21.  [AwaitAsyncFlushingTasks] returns as soon as the count of
    outstanding flushes reads zero: when the [k]-th reading is the first
    zero, it returns after [k] sleeps, having logged once every ten
    readings. *)
Theorem AwaitAsyncFlushingTasks_returns (readings : nat -> Z) (k fuel : nat) :
  (forall j, (j < k)%nat -> readings j <> 0) ->
  readings k = 0 ->
  (k < fuel)%nat ->
  exists evs,
    AwaitAsyncFlushingTasks fuel readings = Some evs
    /\ sleeps evs = k
    /\ Z.of_nat (logs evs) = Z.of_nat k / 10.
Proof.
  intros Hnz Hz Hfuel.
  destruct (await_loop_returns readings k 0 0 fuel) as (evs & He & Hs & Hl);
    try assumption; [ unfold log_every; lia | ].
  exists evs. split; [ exact He | split; [ exact Hs | ] ].
  rewrite Hl. reflexivity.
Qed.

Lemma AwaitAsyncFlushingTasks_returns_witness :
  exists evs,
    AwaitAsyncFlushingTasks 30 (fun n => Z.of_nat (25 - n)) = Some evs
    /\ sleeps evs = 25%nat
    /\ Z.of_nat (logs evs) = 2.
Proof.
  apply (AwaitAsyncFlushingTasks_returns (fun n => Z.of_nat (25 - n)) 25 30).
  - intros j Hj. lia.
  - reflexivity.
  - lia.
Defined.

(** X22.  [AwaitAsyncFlushingTasks] does not return while flushes are
    outstanding: when it returns, the last count it read was zero and every
    earlier one was not; it slept 500 ms after each of those, and each line
    it logged reports a count that is not zero. *)
Theorem AwaitAsyncFlushingTasks_returned (readings : nat -> Z) (fuel : nat)
    (evs : list event) :
  AwaitAsyncFlushingTasks fuel readings = Some evs ->
  readings (sleeps evs) = 0
  /\ (forall j, (j < sleeps evs)%nat -> readings j <> 0)
  /\ Forall (fun e => e = SleepFor 500
                      \/ exists n, e = LogWaiting n /\ n <> 0) evs.
Proof.
  intros H. destruct (await_loop_returned readings fuel 0 0 evs H)
    as (Hz & Hnz & _ & Hall).
  split; [ exact Hz | split; [ exact Hnz | exact Hall ] ].
Qed.

Lemma AwaitAsyncFlushingTasks_returned_witness :
  (fun n => Z.of_nat (2 - n)) (sleeps [SleepFor 500; SleepFor 500]) = 0.
Proof.
  exact (proj1 (AwaitAsyncFlushingTasks_returned
                  (fun n => Z.of_nat (2 - n)) 5 [SleepFor 500; SleepFor 500]
                  eq_refl)).
Defined.
End AwaitFacts.

(** ** Routing of RPC names *)

Module RpcNamesFacts.
Import RpcNames.

Ltac by_cases_on_char c :=
  destruct c as [[] [] [] [] [] [] [] []]; try (vm_compute; reflexivity).

(** The loop of [IsBoFunction] reads no character behind the terminator of
    [func_name], and stops at [kBoPrefixLength] exactly when [func_name]
    starts with the prefix. *)
Lemma prefix_loop_spec (s : string) :
  exists i,
    prefix_loop (S kBoPrefixLength) s 0 = Some i
    /\ (i =? kBoPrefixLength)%nat = String.prefix kBoPrefix s.
Proof.
  destruct s as [ | c0 s ]; [ exists 0%nat; split; reflexivity | ].
  by_cases_on_char c0; try (exists 0%nat; split; vm_compute; reflexivity).
  destruct s as [ | c1 s ]; [ exists 1%nat; split; reflexivity | ].
  by_cases_on_char c1; try (exists 1%nat; split; vm_compute; reflexivity).
  destruct s as [ | c2 s ]; [ exists 2%nat; split; reflexivity | ].
  by_cases_on_char c2; try (exists 2%nat; split; vm_compute; reflexivity).
  destruct s as [ | c3 s ]; [ exists 3%nat; split; reflexivity | ].
  by_cases_on_char c3; try (exists 3%nat; split; vm_compute; reflexivity).
  exists 4%nat. split; [ reflexivity | destruct s; reflexivity ].
Qed.

Lemma substring_whole (s : string) : String.substring 0 (String.length s) s = s.
Proof. induction s as [ | c s IH ]; simpl; [ reflexivity | now rewrite IH ]. Qed.

(** X23.  [IsBoFunction] answers whether the name starts with ["BO::"], for
    every name, also one that is shorter than the prefix or empty: it
    never reads behind the name's terminator.  A null name is not a
    buffer-organizer function. *)
Theorem IsBoFunction_prefix :
  IsBoFunction None = Some false
  /\ forall s, IsBoFunction (Some s) = Some (String.prefix "BO::" s).
Proof.
  split; [ reflexivity | ]. intros s. unfold IsBoFunction.
  destruct (prefix_loop_spec s) as (i & Hi & Hp). rewrite Hi, Hp. reflexivity.
Qed.

(** X24.  [ThalliumRpc::Call] sends a name that starts with ["BO::"] to the
    buffer organizer's server, calling the procedure named by what follows
    the prefix; every other name goes to the main server unchanged. *)
Theorem call_target_routes (func_name : string) :
  (forall f, func_name = ("BO::" ++ f)%string ->
             call_target func_name = Some (true, f))
  /\ (String.prefix "BO::" func_name = false ->
      call_target func_name = Some (false, func_name)).
Proof.
  unfold call_target, IsBoFunction.
  destruct (prefix_loop_spec func_name) as (i & Hi & Hp). rewrite Hi, Hp.
  change kBoPrefix with "BO::"%string. split.
  - intros f ->. simpl. rewrite Nat.sub_0_r.
    destruct f; [ reflexivity | ]. now rewrite substring_whole.
  - intros H. rewrite H. reflexivity.
Qed.

Lemma call_target_routes_witness :
  call_target "BO::RemoteOrganizeBlob" = Some (true, "RemoteOrganizeBlob"%string)
  /\ call_target "RemoteGet" = Some (false, "RemoteGet"%string).
Proof.
  split.
  - exact (proj1 (call_target_routes "BO::RemoteOrganizeBlob")
             "RemoteOrganizeBlob"%string eq_refl).
  - exact (proj2 (call_target_routes "RemoteGet") eq_refl).
Defined.
End RpcNamesFacts.

(** ** The other serializers *)

Module RpcMoreFacts.
Import Rpc RpcMore RpcFacts.

Lemma encodes_MapType (v : MapType) :
  is_i32 v -> encodes serialize_MapType v (le_encode 4 (v mod 2 ^ 32)).
Proof.
  intros Hv. split.
  - intros buf. unfold serialize_MapType, save_load, save_MapType, bind.
    now rewrite amp_int_out.
  - intros init rest. unfold serialize_MapType, save_load, load_MapType, bind.
    now rewrite amp_int_in.
Qed.

Lemma encodes_BoPriority (v : BoPriorityValue) :
  is_i32 v -> encodes serialize_BoPriority v (le_encode 4 (v mod 2 ^ 32)).
Proof.
  intros Hv. split.
  - intros buf. unfold serialize_BoPriority, save_load, save_BoPriority, bind.
    now rewrite amp_int_out.
  - intros init rest. unfold serialize_BoPriority, save_load, load_BoPriority, bind.
    now rewrite amp_int_in.
Qed.

(** X25.  A [MapType] and a [BoPriority] travel as the four bytes of their
    [int], and reading them back gives the value that was written, whatever
    the receiving variable held. *)
Theorem enum_round_trip (v : Z) :
  is_i32 v ->
  round_trips serialize_MapType v /\ round_trips serialize_BoPriority v
  /\ to_bytes serialize_MapType v = le_encode 4 (v mod 2 ^ 32)
  /\ to_bytes serialize_BoPriority v = le_encode 4 (v mod 2 ^ 32).
Proof.
  intros Hv.
  pose proof (encodes_MapType v Hv) as Hm.
  pose proof (encodes_BoPriority v Hv) as Hp.
  split; [ exact (encodes_round_trips _ _ _ Hm) | ].
  split; [ exact (encodes_round_trips _ _ _ Hp) | ].
  unfold to_bytes. rewrite (proj1 Hm), (proj1 Hp). split; reflexivity.
Qed.

Lemma enum_round_trip_witness :
  round_trips serialize_MapType 2 /\ round_trips serialize_BoPriority (-1).
Proof.
  split.
  - apply (enum_round_trip 2). unfold is_i32. lia.
  - apply (enum_round_trip (-1)). unfold is_i32. lia.
Defined.

(** X26.  Of an [api::Context], [save] writes two [int]s, eight bytes:
    [buffer_organizer_retries] and the policy.  [load] overwrites these two
    members of the receiving context with the sender's and leaves every
    other member of the receiving context as it was. *)
Theorem Context_travels {Others : Type} (ctx init : Context Others)
    (rest : list Byte.byte) :
  is_i32 (ctx_buffer_organizer_retries ctx) ->
  is_i32 (ctx_policy ctx) ->
  to_bytes serialize_Context ctx
  = le_encode 4 (ctx_buffer_organizer_retries ctx mod 2 ^ 32)
    ++ le_encode 4 (ctx_policy ctx mod 2 ^ 32)
  /\ from_bytes serialize_Context init (to_bytes serialize_Context ctx ++ rest)
     = Some (mkApiContext (ctx_buffer_organizer_retries ctx) (ctx_policy ctx)
                          (ctx_others init), rest).
Proof.
  intros Hr Hp.
  assert (Hout : to_bytes serialize_Context ctx
                 = le_encode 4 (ctx_buffer_organizer_retries ctx mod 2 ^ 32)
                   ++ le_encode 4 (ctx_policy ctx mod 2 ^ 32)).
  { unfold to_bytes, serialize_Context, save_load, save_Context, bind.
    rewrite amp_int_out by exact Hr. cbv beta iota.
    rewrite amp_int_out by exact Hp. reflexivity. }
  split; [ exact Hout | ].
  rewrite Hout, <- app_assoc.
  unfold from_bytes, serialize_Context, save_load, load_Context, bind.
  rewrite amp_int_in by exact Hr. cbv beta iota.
  rewrite amp_int_in by exact Hp. reflexivity.
Qed.

Lemma Context_travels_witness :
  from_bytes serialize_Context (mkApiContext 0 0 "receiver"%string)
    (to_bytes serialize_Context (mkApiContext 3 1 "sender"%string) ++ [])
  = Some (mkApiContext 3 1 "receiver"%string, []).
Proof.
  apply (Context_travels (mkApiContext 3 1 "sender"%string)
           (mkApiContext 0 0 "receiver"%string) []);
    unfold is_i32; simpl; lia.
Defined.
End RpcMoreFacts.

(** ** [GetFilenameFromFP] *)

Module InterceptorFacts.
Import Interceptor.

Lemma c_string_terminated (t : list Ascii.ascii) :
  c_string (t ++ [Ascii.zero]) = c_string t.
Proof.
  induction t as [ | c t IH ]; [ reflexivity | ].
  simpl. now rewrite IH.
Qed.

(** X27.  [GetFilenameFromFP] returns the link's target only when [readlink]
    succeeds with a target shorter than [kMaxPathLen].  When [readlink]
    fails, its -1 becomes the [size_t] 2^64 - 1, and when the target fills
    the array, [r] is [kMaxPathLen]: the terminator is then written outside
    the array [filename]. *)
Theorem GetFilenameFromFP_cases (target : option (list Ascii.ascii)) :
  GetFilenameFromFP target
  = match target with
    | None => WriteOutOfBounds (2 ^ 64 - 1)
    | Some t =>
        if (length t <? 4096)%nat then Filename (c_string t)
        else WriteOutOfBounds 4096
    end.
Proof.
  destruct target as [ t | ]; [ | vm_compute; reflexivity ].
  unfold GetFilenameFromFP, readlink, kMaxPathLen.
  rewrite length_take.
  change (Z.to_nat 4096) with 4096%nat.
  destruct (Nat.ltb_spec (length t) 4096) as [Hlt | Hge].
  - rewrite Nat.min_r by lia.
    rewrite take_ge by lia.
    unfold u64. rewrite Z.mod_small by lia.
    destruct (Z.leb_spec 0 (Z.of_nat (length t))); [ | lia ].
    destruct (Z.ltb_spec (Z.of_nat (length t)) 4096); [ | lia ].
    simpl. now rewrite c_string_terminated.
  - rewrite Nat.min_l by lia.
    reflexivity.
Qed.
End InterceptorFacts.
